(** * Embedding cache of the hybrid graph chat assistant (emb_cache.py)

    A shallow embedding of [emb_cache.py]: key derivation
    ([_make_key]), the float32 vector codec ([_serialize_emb],
    [_deserialize_emb]), the SQLite table [embeddings] as a list of rows
    in rowid order, and the three cache operations
    [get_embedding_from_cache], [put_embedding_in_cache] and
    [batch_get_embeddings].

    Conventions.
    - A Python [str] is the list of its Unicode code points ([list N]).
    - A Python [bytes] is a [list byte].
    - A Python exception is a value [Raise e] of the [result] type.
    - A Python [float] is a binary64 number and a numpy [float32] a
      binary32 number, both in the Standard Library's specification of
      IEEE 754 arithmetic ([SpecFloat]).
    - [time.time()] is an argument [now] of the operation that calls it;
      timestamps are exact numbers of seconds ([Z]).
    - SQLite fails in one way here: a statement that binds more
      variables than SQLite's limit on them is refused with
      [sqlite3.OperationalError] and changes nothing.  The statements of
      [get_embedding_from_cache] and [put_embedding_in_cache] bind at
      most five variables and are run as total functions on the table,
      so the handler around the expiry deletion of
      [get_embedding_from_cache] has nothing to catch; the two
      statements of [batch_get_embeddings] bind one variable for each
      key and are checked against the limit.  One call runs alone.
    - The module constants [MAX_ENTRIES] and [TTL_SECONDS] are Section
      variables; [Config] holds the values the source gives them, and
      the limit on bound variables the source's comment names. *)

From Stdlib Require Import ZArith NArith Lia List Floats.SpecFloat.
From Stdlib Require Import Strings.Byte Strings.String Strings.Ascii.
From stdpp Require Import base decidable option numbers list sorting gmap finite vector.

Local Open Scope N_scope.

(** ** Python values *)

Abbreviation str := (list N) (only parsing).
Abbreviation bytes := (list byte) (only parsing).

Inductive exn : Set :=
| ValueError
| OverflowError
| UnicodeEncodeError
| OperationalError.

Inductive result (A : Type) : Type :=
| Ok (a : A)
| Raise (e : exn).
Arguments Ok {A} a.
Arguments Raise {A} e.

#[global] Instance exn_eq_dec : EqDecision exn.
Proof. solve_decision. Defined.

#[global] Instance result_eq_dec {A} `{EqDecision A} : EqDecision (result A).
Proof. solve_decision. Defined.

#[global] Instance result_ret : MRet result := fun A a => Ok a.
#[global] Instance result_bind : MBind result := fun A B k r =>
  match r with
  | Ok a => k a
  | Raise e => Raise e
  end.

(** [[f(x) for x in l]] where [f] may raise: the first exception wins. *)
Fixpoint rmap {A B} (f : A -> result B) (l : list A) : result (list B) :=
  match l with
  | [] => Ok []
  | x :: l' => y ← f x ; ys ← rmap f l' ; Ok (y :: ys)
  end.

(** String literals of the development: the code points of an ASCII
    Rocq string. *)
Fixpoint of_string (s : string) : str :=
  match s with
  | EmptyString => []
  | String a s' => N_of_ascii a :: of_string s'
  end.

Definition byte_of_N (n : N) : byte :=
  match Byte.of_N (n mod 256) with
  | Some b => b
  | None => x00
  end.

(** The list cut into consecutive groups of [n] elements; [fuel] bounds
    the number of groups ([length l] is always enough). *)
Fixpoint groups {A} (fuel n : nat) (l : list A) : list (list A) :=
  match fuel, l with
  | S fuel', _ :: _ => take n l :: groups fuel' n (drop n l)
  | _, _ => []
  end.

(** ** Whitespace normalisation: [" ".join(text.split())] *)

Module PyStr.

(** [str.isspace] on one code point: the characters [str.split()]
    treats as separators (CPython's [_PyUnicode_IsWhitespace]). *)
Definition is_space (c : N) : bool :=
  ((0x09 <=? c) && (c <=? 0x0D)) || ((0x1C <=? c) && (c <=? 0x20))
  || (c =? 0x85) || (c =? 0xA0) || (c =? 0x1680)
  || ((0x2000 <=? c) && (c <=? 0x200A))
  || (c =? 0x2028) || (c =? 0x2029) || (c =? 0x202F) || (c =? 0x205F)
  || (c =? 0x3000).

(** [split_from word s]: the words of [s], [word] being the letters of
    the word under construction. *)
Fixpoint split_from (word : str) (s : str) : list (list N) :=
  match s with
  | [] => match word with [] => [] | _ => [word] end
  | c :: s' =>
      if is_space c
      then match word with
           | [] => split_from [] s'
           | _ => word :: split_from [] s'
           end
      else split_from (word ++ [c]) s'
  end.

(** [text.split()] *)
Definition split (text : str) : list (list N) := split_from [] text.

(** [sep.join(words)] *)
Fixpoint join (sep : str) (words : list (list N)) : str :=
  match words with
  | [] => []
  | [w] => w
  | w :: ws => w ++ sep ++ join sep ws
  end.

(** [s[:n]] for [n >= 0] *)
Definition slice_to (n : nat) (s : str) : str := take n s.

(** A code point is a Unicode scalar value when it is below 0x110000
    and is not a surrogate. *)
Definition is_scalar (c : N) : bool :=
  (c <? 0xD800) || ((0xDFFF <? c) && (c <? 0x110000)).

(** [encode_cp c]: the UTF-8 bytes of one code point, as numbers;
    [None] for a surrogate (the strict error handler raises) or for a
    number that is no code point. *)
Definition encode_cp (c : N) : option (list N) :=
  if c <? 0x80 then Some [c]
  else if c <? 0x800 then Some [0xC0 + c / 64; 0x80 + c mod 64]
  else if c <? 0x10000 then
    if (0xD800 <=? c) && (c <=? 0xDFFF) then None
    else Some [0xE0 + c / 4096; 0x80 + (c / 64) mod 64; 0x80 + c mod 64]
  else if c <? 0x110000 then
    Some [0xF0 + c / 262144; 0x80 + (c / 4096) mod 64;
          0x80 + (c / 64) mod 64; 0x80 + c mod 64]
  else None.

(** [s.encode("utf-8")] *)
Fixpoint encode_utf8 (s : str) : result bytes :=
  match s with
  | [] => Ok []
  | c :: s' =>
      match encode_cp c with
      | None => Raise UnicodeEncodeError
      | Some bs => rest ← encode_utf8 s' ; Ok (map byte_of_N bs ++ rest)
      end
  end.

End PyStr.

(** ** SHA-256 (FIPS 180-4), the digest behind [hashlib.sha256] *)

Module SHA256.

Definition w32 (x : N) : N := x mod 4294967296.
Definition add32 (x y : N) : N := w32 (x + y).
Definition rotr (n x : N) : N :=
  N.lor (N.shiftr x n) (w32 (N.shiftl x (32 - n))).
Definition not32 (x : N) : N := 4294967295 - x.

Definition Ch (x y z : N) : N := N.lxor (N.land x y) (N.land (not32 x) z).
Definition Maj (x y z : N) : N :=
  N.lxor (N.lxor (N.land x y) (N.land x z)) (N.land y z).
Definition Sigma0 (x : N) : N := N.lxor (N.lxor (rotr 2 x) (rotr 13 x)) (rotr 22 x).
Definition Sigma1 (x : N) : N := N.lxor (N.lxor (rotr 6 x) (rotr 11 x)) (rotr 25 x).
Definition sigma0 (x : N) : N := N.lxor (N.lxor (rotr 7 x) (rotr 18 x)) (N.shiftr x 3).
Definition sigma1 (x : N) : N := N.lxor (N.lxor (rotr 17 x) (rotr 19 x)) (N.shiftr x 10).

(** The first 64 primes. *)
Definition primes : list N :=
  [2; 3; 5; 7; 11; 13; 17; 19; 23; 29; 31; 37; 41; 43; 47; 53; 59; 61; 67;
   71; 73; 79; 83; 89; 97; 101; 103; 107; 109; 113; 127; 131; 137; 139; 149;
   151; 157; 163; 167; 173; 179; 181; 191; 193; 197; 199; 211; 223; 227; 229;
   233; 239; 241; 251; 257; 263; 269; 271; 277; 281; 283; 293; 307; 311].

(** [iroot k n bits r]: the integer [k]-th root of [n] found bit by bit
    below [2 ^ bits], starting from [r]. *)
Fixpoint iroot (k n : N) (bits : nat) (r : N) : N :=
  match bits with
  | O => r
  | S b =>
      let r' := r + 2 ^ N.of_nat b in
      iroot k n b (if r' ^ k <=? n then r' else r)
  end.

(** The first 32 bits of the fractional part of the [k]-th root of [p]. *)
Definition frac_root (k p : N) : N :=
  w32 (iroot k (p * 2 ^ (32 * k)) 40 0).

(** Round constants: from the cube roots of the first 64 primes. *)
Definition K : list N := Eval vm_compute in map (frac_root 3) primes.

(** Initial hash value: from the square roots of the first 8 primes. *)
Definition H0 : list N := Eval vm_compute in map (frac_root 2) (take 8 primes).

(** Big-endian bytes of a number: [n] bytes, most significant first. *)
Fixpoint be_bytes (n : nat) (x : N) : list N :=
  match n with
  | O => []
  | S n' => (x / 256 ^ N.of_nat n') mod 256 :: be_bytes n' x
  end.

Fixpoint be_word (bs : list N) (acc : N) : N :=
  match bs with
  | [] => acc
  | b :: bs' => be_word bs' (acc * 256 + b)
  end.

(** Padding: one bit, zeros up to 56 modulo 64, then the bit length. *)
Definition pad (msg : list N) : list N :=
  let len := N.of_nat (length msg) in
  let zeros := (64 + 55 - len mod 64) mod 64 in
  msg ++ [0x80] ++ repeat 0 (N.to_nat zeros) ++ be_bytes 8 (8 * len).

Definition words_of_block (blk : list N) : list N :=
  map (fun g => be_word g 0) (groups 16 4 blk).

(** The message schedule, extended from 16 to 64 words. *)
Fixpoint schedule (n : nat) (w : list N) : list N :=
  match n with
  | O => w
  | S n' =>
      let t := length w in
      let x := add32 (add32 (sigma1 (nth (t - 2) w 0)) (nth (t - 7) w 0))
                     (add32 (sigma0 (nth (t - 15) w 0)) (nth (t - 16) w 0)) in
      schedule n' (w ++ [x])
  end.

Definition round (st : list N) (kw : N * N) : list N :=
  match st with
  | [a; b; c; d; e; f; g; h] =>
      let t1 := add32 (add32 (add32 h (Sigma1 e)) (add32 (Ch e f g) kw.1)) kw.2 in
      let t2 := add32 (Sigma0 a) (Maj a b c) in
      [add32 t1 t2; a; b; c; add32 d t1; e; f; g]
  | _ => st
  end.

Definition compress (h : list N) (blk : list N) : list N :=
  let w := schedule 48 (words_of_block blk) in
  zip_with add32 h (fold_left round (zip K w) h).

Definition digest_words (msg : list N) : list N :=
  let p := pad msg in
  fold_left compress (groups (length p) 64 p) H0.

(** One lower-case hexadecimal digit, as a code point. *)
Definition hex_digit (d : N) : N :=
  if d <? 10 then 48 + d else 87 + d.

Fixpoint hex_of (n : nat) (x : N) : str :=
  match n with
  | O => []
  | S n' => hex_digit ((x / 16 ^ N.of_nat n') mod 16) :: hex_of n' x
  end.

(** [hashlib.sha256(data).hexdigest()] *)
Definition hexdigest (data : bytes) : str :=
  flat_map (hex_of 8) (digest_words (map Byte.to_N data)).

End SHA256.

(** ** Key derivation *)

(** [_make_key(text, model)] *)
Definition _make_key (text model : str) : result str :=
  let cleaned := PyStr.join (of_string " ") (PyStr.split text) in
  let base := model ++ of_string "|" ++ cleaned in
  data ← PyStr.encode_utf8 base ;
  Ok (SHA256.hexdigest data).

(** The value of [cleaned] and of [base] in [_make_key]. *)
Definition normalize (text : str) : str :=
  PyStr.join (of_string " ") (PyStr.split text).

Definition prehash (text model : str) : str :=
  model ++ of_string "|" ++ normalize text.

(** ** Python floats and numpy's float32

    A Python [float] is an IEEE 754 binary64 number and a numpy
    [float32] a binary32 number, both as [spec_float] values of the
    Standard Library's specification of floating-point arithmetic (NaN
    carries no payload there). *)

Module F64.

Definition prec : Z := 53.
Definition emax : Z := 1024.

(** [float(n)] for a Python [int]: round to nearest even;
    [OverflowError] when the integer is too large. *)
Definition of_int (n : Z) : result spec_float :=
  match binary_normalize prec emax n 0 false with
  | S754_infinity _ => Raise OverflowError
  | f => Ok f
  end.

Definition mul : spec_float -> spec_float -> spec_float := SFmul prec emax.

(** [int(x)]: truncation toward zero. *)
Definition to_int (x : spec_float) : result Z :=
  match x with
  | S754_zero _ => Ok 0%Z
  | S754_finite s m e =>
      Ok (cond_Zopp s (if (0 <=? e)%Z then Z.pos m * 2 ^ e
                       else Z.pos m / 2 ^ (- e)))%Z
  | S754_infinity _ => Raise OverflowError
  | S754_nan => Raise ValueError
  end.

(** The literal [0.9], that is 0x1.ccccccccccccdp-1. *)
Definition lit_0_9 : spec_float := S754_finite false 8106479329266893 (-53).

End F64.

Module F32.

Definition prec : Z := 24.
Definition emax : Z := 128.

(** Conversion of a Python float to [np.float32]: round to nearest
    even, overflow to an infinity. *)
Definition of_float (x : spec_float) : spec_float :=
  match x with
  | S754_finite s m e => binary_round prec emax s m e
  | _ => x
  end.

(** Conversion of an [np.float32] to a Python float ([tolist]). *)
Definition to_float (y : spec_float) : spec_float :=
  match y with
  | S754_finite s m e => binary_round F64.prec F64.emax s m e
  | _ => y
  end.

Definition sign_bit (s : bool) : N := if s then 2147483648 else 0.

(** The binary32 interchange encoding: sign, 8 exponent bits, 23
    fraction bits. *)
Definition to_bits (y : spec_float) : N :=
  match y with
  | S754_zero s => sign_bit s
  | S754_infinity s => sign_bit s + 0x7F800000
  | S754_nan => 0x7FC00000
  | S754_finite s m e =>
      if (Z.pos (digits2_pos m) =? prec)%Z
      then sign_bit s + Z.to_N (e + 150) * 8388608 + (N.pos m - 8388608)
      else sign_bit s + N.pos m
  end.

Definition of_bits (w : N) : spec_float :=
  let s := 2147483648 <=? w in
  let e := (w / 8388608) mod 256 in
  let f := w mod 8388608 in
  if e =? 0 then
    match f with
    | 0 => S754_zero s
    | N.pos m => S754_finite s m (-149)
    end
  else if e =? 255 then
    if f =? 0 then S754_infinity s else S754_nan
  else
    match f + 8388608 with
    | 0 => S754_nan
    | N.pos m => S754_finite s m (Z.of_N e - 150)
    end.

(** Four bytes of a 32-bit word, least significant first, and back
    (the byte order of the machines numpy's native order stands for
    here). *)
Definition le_bytes (w : N) : bytes :=
  [byte_of_N w; byte_of_N (w / 256); byte_of_N (w / 65536);
   byte_of_N (w / 16777216)].

Definition le_word (g : bytes) : N :=
  match g with
  | [b0; b1; b2; b3] =>
      Byte.to_N b0 + 256 * Byte.to_N b1 + 65536 * Byte.to_N b2
      + 16777216 * Byte.to_N b3
  | _ => 0
  end.

End F32.

(** ** The vector codec *)

(** [_serialize_emb(emb)]: [np.array(emb, dtype=np.float32).tobytes()] *)
Definition _serialize_emb (emb : list spec_float) : bytes :=
  flat_map (fun x => F32.le_bytes (F32.to_bits (F32.of_float x))) emb.

(** [_deserialize_emb(b)]: [np.frombuffer(b, dtype=np.float32).tolist()];
    [frombuffer] raises [ValueError] when the buffer size is not a
    multiple of the element size. *)
Definition _deserialize_emb (b : bytes) : result (list spec_float) :=
  if (length b mod 4 =? 0)%nat
  then Ok (map (fun g => F32.to_float (F32.of_bits (F32.le_word g)))
               (groups (length b) 4 b))
  else Raise ValueError.

(** ** The table [embeddings] *)

Record row : Type := Row {
  key : list N;
  model : list N;
  text : list N;
  emb : list byte;
  created_at : Z
}.

Abbreviation table := (list row) (only parsing).

#[global] Instance byte_eq_dec : EqDecision byte := Byte.byte_eq_dec.

#[global] Instance row_eq_dec : EqDecision row.
Proof. solve_decision. Defined.

(** The SQL statements of the source on a table held in rowid order;
    [key] is the primary key. *)
Module Sql.

(** [INSERT OR REPLACE INTO embeddings ... VALUES (...)]: the row with
    the same key, if any, is removed and the new row gets a fresh
    rowid. *)
Definition insert_or_replace (r : row) (db : table) : table :=
  filter (fun r' => key r' ≠ key r) db ++ [r].

(** [SELECT emb, created_at FROM embeddings WHERE key = ?], then
    [fetchone()] *)
Definition select_by_key (k : str) (db : table) : option row :=
  head (filter (fun r => key r = k) db).

(** [DELETE FROM embeddings WHERE key = ?] *)
Definition delete_by_key (k : str) (db : table) : table :=
  filter (fun r => key r ≠ k) db.

(** [SELECT COUNT(1) FROM embeddings] *)
Definition count (db : table) : Z := Z.of_nat (length db).

Definition created_le (r1 r2 : row) : Prop :=
  (created_at r1 <= created_at r2)%Z.

#[global] Instance created_le_dec : RelDecision created_le.
Proof. intros r1 r2. unfold created_le. apply _. Defined.

(** [LIMIT n]: a negative [n] is no limit. *)
Definition limit {A} (n : Z) (l : list A) : list A :=
  if (n <? 0)%Z then l else take (Z.to_nat n) l.

(** [SELECT key FROM embeddings ORDER BY created_at ASC LIMIT ?] *)
Definition oldest_keys (n : Z) (db : table) : list (list N) :=
  key <$> limit n (merge_sort created_le db).

(** A statement with one [?] for each element of [params] is run only
    when SQLite's limit on bound variables
    ([SQLITE_MAX_VARIABLE_NUMBER]) allows that many; otherwise
    [execute] raises [sqlite3.OperationalError] ("too many SQL
    variables") and the statement does nothing. *)
Definition bindable {A} (MAX_VARIABLE_NUMBER : nat) (params : list A) : bool :=
  bool_decide (length params <= MAX_VARIABLE_NUMBER)%nat.

(** [DELETE FROM embeddings WHERE key IN (...)] *)
Definition delete_in (ks : list (list N)) (db : table) : table :=
  filter (fun r => key r ∉ ks) db.

(** [SELECT key, emb, created_at FROM embeddings WHERE key IN (...)],
    then [fetchall()] *)
Definition select_in (ks : list (list N)) (db : table) : table :=
  filter (fun r => key r ∈ ks) db.

End Sql.

(** The values the source gives to its module constants, and SQLite's
    limit on the bound variables of one statement as the comment above
    [MAX_VARS] has it ("~999 by default": the default value of
    [SQLITE_MAX_VARIABLE_NUMBER] before SQLite 3.32, which raised it to
    32766). *)
Module Config.
Definition MAX_ENTRIES : Z := 200000.
Definition TTL_SECONDS : Z := 60 * 60 * 24 * 30.
Definition MAX_VARS : nat := 900.
Definition MAX_VARIABLE_NUMBER : nat := 999.
End Config.

(** ** The cache operations *)

(** A loop whose body may raise: [for x in l: acc = f(acc, x)]. *)
Fixpoint rfold {A B} (f : B -> A -> result B) (l : list A) (acc : B) : result B :=
  match l with
  | [] => Ok acc
  | x :: l' => acc' ← f acc x ; rfold f l' acc'
  end.

(** [range(0, stop, step)] for [step >= 1] *)
Definition py_range (stop step : nat) : list nat :=
  (fun j => j * step)%nat <$> seq 0 ((stop + step - 1) / step)%nat.

(** [enumerate(l)] *)
Definition enumerate {A} (l : list A) : list (nat * A) :=
  zip (seq 0 (length l)) l.

Section Cache.

Variable MAX_ENTRIES : Z.
Variable TTL_SECONDS : Z.

(** [TTL_SECONDS and (now - created_at) > TTL_SECONDS] *)
Definition is_expired (now created : Z) : bool :=
  negb (TTL_SECONDS =? 0)%Z && (TTL_SECONDS <? now - created)%Z.

(** [int(MAX_ENTRIES * 0.9)] *)
Definition eviction_cutoff : result Z :=
  f ← F64.of_int MAX_ENTRIES ; F64.to_int (F64.mul f F64.lit_0_9).

(** [get_embedding_from_cache(text, model)] *)
Definition get_embedding_from_cache (text model : str) (now : Z) (db : table)
  : result (option (list spec_float)) * table :=
  match _make_key text model with
  | Raise e => (Raise e, db)
  | Ok k =>
      match Sql.select_by_key k db with
      | None => (Ok None, db)
      | Some r =>
          if is_expired now (created_at r)
          then (Ok None, Sql.delete_by_key k db)
          else (v ← _deserialize_emb (emb r) ; Ok (Some v), db)
      end
  end.

(** [put_embedding_in_cache(text, model, emb)] *)
Definition put_embedding_in_cache (text model : str) (vec : list spec_float)
    (now : Z) (db : table) : result unit * table :=
  match _make_key text model with
  | Raise e => (Raise e, db)
  | Ok k =>
      let emb_blob := _serialize_emb vec in
      let db1 :=
        Sql.insert_or_replace (Row k model (PyStr.slice_to 2000 text) emb_blob now) db in
      let count := Sql.count db1 in
      if (MAX_ENTRIES <? count)%Z then
        match eviction_cutoff with
        | Raise e => (Raise e, db1)
        | Ok cutoff =>
            (Ok (), Sql.delete_in (Sql.oldest_keys (count - cutoff) db1) db1)
        end
      else (Ok (), db1)
  end.

(** [key_to_idxs]: for each key the positions that carry it, built by
    [key_to_idxs.setdefault(k, []).append(i)]. *)
Definition index_keys (keys : list (list N)) : gmap (list N) (list nat) :=
  fold_left (fun m ik => <[ik.2 := default [] (m !! ik.2) ++ [ik.1]]> m)
            (enumerate keys) ∅.

(** The body of [for key, emb_blob, created_at in rows]. *)
Definition scan_row (key_to_idxs : gmap (list N) (list nat)) (now : Z)
    (st : gmap nat (list spec_float) * gset (list N)) (r : row)
  : result (gmap nat (list spec_float) * gset (list N)) :=
  if is_expired now (created_at r)
  then Ok (st.1, {[key r]} ∪ st.2)
  else
    v ← _deserialize_emb (emb r) ;
    Ok (fold_left (fun found idx => <[idx := v]> found)
                  (default [] (key_to_idxs !! key r)) st.1, st.2).

(** The body of [for i in range(0, len(keys), MAX_VARS)]: the [SELECT]
    binds the keys of the chunk, and its rows are scanned. *)
Definition scan_chunk (MAX_VARIABLE_NUMBER : nat)
    (key_to_idxs : gmap (list N) (list nat)) (now : Z)
    (db : table) (st : gmap nat (list spec_float) * gset (list N))
    (chunk : list (list N))
  : result (gmap nat (list spec_float) * gset (list N)) :=
  if Sql.bindable MAX_VARIABLE_NUMBER chunk
  then rfold (scan_row key_to_idxs now) (Sql.select_in chunk db) st
  else Raise OperationalError.

(** [keys[i:i+MAX_VARS]] for each [i] of the range. *)
Definition chunks (MAX_VARS : nat) (keys : list (list N)) : list (list (list N)) :=
  (fun i => take MAX_VARS (drop i keys)) <$> py_range (length keys) MAX_VARS.

(** [batch_get_embeddings(texts, model)] with the local constant
    [MAX_VARS] and SQLite's limit on bound variables as arguments.  The
    [DELETE] of the expired keys is one statement that binds all of
    them: above the limit it raises, nothing is deleted and nothing is
    returned. *)
Definition batch_get_embeddings_with (MAX_VARIABLE_NUMBER MAX_VARS : nat)
    (texts : list (list N)) (model : str) (now : Z) (db : table)
  : result (gmap nat (list spec_float) * list nat) * table :=
  match texts with
  | [] => (Ok (∅, []), db)
  | _ =>
      match rmap (fun t => _make_key t model) texts with
      | Raise e => (Raise e, db)
      | Ok keys =>
          let key_to_idxs := index_keys keys in
          match rfold (scan_chunk MAX_VARIABLE_NUMBER key_to_idxs now db)
                      (chunks MAX_VARS keys) (∅, ∅) with
          | Raise e => (Raise e, db)
          | Ok (found, expired_keys) =>
              let missing :=
                filter (fun i => found !! i = None) (seq 0 (length texts)) in
              if decide (expired_keys = ∅) then (Ok (found, missing), db)
              else if Sql.bindable MAX_VARIABLE_NUMBER (elements expired_keys)
              then (Ok (found, missing), Sql.delete_in (elements expired_keys) db)
              else (Raise OperationalError, db)
          end
      end
  end.

(** [batch_get_embeddings(texts, model)]: [MAX_VARS = 900], on an
    SQLite with the limit of 999 bound variables. *)
Definition batch_get_embeddings :=
  batch_get_embeddings_with Config.MAX_VARIABLE_NUMBER Config.MAX_VARS.

(** The same procedure with a single query over all keys, whatever
    their number: the reference the chunked procedure is compared
    with. *)
Definition batch_get_embeddings_unchunked_with (MAX_VARIABLE_NUMBER : nat)
    (texts : list (list N)) (model : str) (now : Z) (db : table)
  : result (gmap nat (list spec_float) * list nat) * table :=
  match texts with
  | [] => (Ok (∅, []), db)
  | _ =>
      match rmap (fun t => _make_key t model) texts with
      | Raise e => (Raise e, db)
      | Ok keys =>
          let key_to_idxs := index_keys keys in
          match rfold (scan_row key_to_idxs now) (Sql.select_in keys db) (∅, ∅) with
          | Raise e => (Raise e, db)
          | Ok (found, expired_keys) =>
              let missing :=
                filter (fun i => found !! i = None) (seq 0 (length texts)) in
              if decide (expired_keys = ∅) then (Ok (found, missing), db)
              else if Sql.bindable MAX_VARIABLE_NUMBER (elements expired_keys)
              then (Ok (found, missing), Sql.delete_in (elements expired_keys) db)
              else (Raise OperationalError, db)
          end
      end
  end.

Definition batch_get_embeddings_unchunked :=
  batch_get_embeddings_unchunked_with Config.MAX_VARIABLE_NUMBER.

End Cache.

(** ** Well-formed tables *)

(** [key] is the primary key of the table. *)
Definition table_wf (db : table) : Prop := NoDup (key <$> db).

(** Every stored blob holds whole float32 elements, as every blob
    [_serialize_emb] writes does. *)
Definition blobs_ok (db : table) : Prop :=
  Forall (fun r => (length (emb r) mod 4 = 0)%nat) db.

(** The two invariants together: unique keys, and blobs that hold whole
    float32 elements. *)
Definition table_ok (db : list row) : Prop := table_wf db ∧ blobs_ok db.

(** ** Auxiliary notions of the statements *)

(** The rows [ORDER BY created_at ASC LIMIT n] selects. *)
Definition victims (n : Z) (db : list row) : list row :=
  Sql.limit n (merge_sort Sql.created_le db).

(** The row [put_embedding_in_cache] writes. *)
Definition new_row (text model k : list N) (vec : list spec_float) (now : Z) : row :=
  Row k model (PyStr.slice_to 2000 text) (_serialize_emb vec) now.

(** Position [i] of the batch is served by row [r] with vector [v]:
    the row carries the key of the position, is not expired and
    decodes to [v]. *)
Definition hit (TTL_SECONDS now : Z) (keys : list (list N)) (i : nat) (r : row)
    (v : list spec_float) : Prop :=
  keys !! i = Some (key r)
  ∧ is_expired TTL_SECONDS now (created_at r) = false
  ∧ _deserialize_emb (emb r) = Ok v.

(** The outcome of the batch from the outcome of its loop over rows. *)
Definition batch_outcome (MAX_VARIABLE_NUMBER n : nat) (db : list row)
    (scan : result (gmap nat (list spec_float) * gset (list N)))
  : result (gmap nat (list spec_float) * list nat) * list row :=
  match scan with
  | Raise e => (Raise e, db)
  | Ok (found, expired_keys) =>
      let missing := filter (fun i => found !! i = None) (seq 0 n) in
      if decide (expired_keys = ∅) then (Ok (found, missing), db)
      else if Sql.bindable MAX_VARIABLE_NUMBER (elements expired_keys)
      then (Ok (found, missing), Sql.delete_in (elements expired_keys) db)
      else (Raise OperationalError, db)
  end.


(** [k] is the key of some text of the batch. *)
Definition batch_key (texts : list (list N)) (model k : list N) : Prop :=
  ∃ t, t ∈ texts ∧ _make_key t model = Ok k.

#[global] Instance batch_key_dec texts model k : Decision (batch_key texts model k).
Proof.
  refine (cast_if (decide (Exists (fun t => _make_key t model = Ok k) texts)));
    unfold batch_key; by rewrite <- Exists_exists.
Defined.

(** The expired records of the table under a key of the batch: the
    records the [DELETE] of the batch is for. *)
Definition expired_in_batch (TTL_SECONDS : Z) (texts : list (list N))
    (model : list N) (now : Z) (db : list row) : list row :=
  filter (fun r => is_expired TTL_SECONDS now (created_at r) = true
                   ∧ batch_key texts model (key r)) db.

(** Two byte strings on which SHA-256 collides. *)
Definition sha256_collision (d1 d2 : list byte) : Prop :=
  d1 ≠ d2 ∧ SHA256.hexdigest d1 = SHA256.hexdigest d2.

(** A word of [str.split()]: not empty and free of whitespace. *)
Definition word_ok (w : list N) : Prop :=
  w ≠ [] ∧ Forall (fun c => PyStr.is_space c = false) w.

(** Texts that differ only in letter case.  A letter is no whitespace,
    and a letter in the other case is one letter or several (["ß"] in
    upper case is ["SS"]).  So two such texts are cut into the same
    number of pieces, where a piece of the one text is the piece of the
    other, or both are stretches of letters: not empty and free of
    whitespace.  Which characters are letters, and which letters are
    each other in another case, is left open: the relation holds
    whatever the case mapping of Unicode is. *)
Definition same_up_to_case (t1 t2 : list N) : Prop :=
  ∃ pieces : list (list N * list N),
    t1 = concat (pieces.*1) ∧ t2 = concat (pieces.*2)
    ∧ Forall (fun p => p.1 = p.2 ∨ (word_ok p.1 ∧ word_ok p.2)) pieces.

(** A case mapping applied character by character, as [str.upper()]
    and [str.lower()] apply one: a character is kept, or it is no
    whitespace and becomes one or more characters that are no
    whitespace. *)
Definition case_mapping (f : N -> list N) : Prop :=
  ∀ c, f c = [c] ∨ (PyStr.is_space c = false ∧ word_ok (f c)).

(** Lower-casing of the ASCII letters, and texts equal up to the case
    of their ASCII letters. *)
Definition ascii_lower (c : N) : N :=
  if (65 <=? c) && (c <=? 90) then c + 32 else c.

Definition same_up_to_ascii_case (t1 t2 : list N) : Prop :=
  map ascii_lower t1 = map ascii_lower t2.

(** Reading one code point back from its UTF-8 bytes: the length the
    first byte announces, and the code point the bytes carry. *)
Definition utf8_width (b0 : N) : nat :=
  if b0 <? 0x80 then 1 else if b0 <? 0xE0 then 2 else if b0 <? 0xF0 then 3 else 4.

Definition utf8_value (bs : list N) : N :=
  match bs with
  | [a] => a
  | [a; b] => (a - 0xC0) * 64 + (b - 0x80)
  | [a; b; c] => (a - 0xE0) * 4096 + (b - 0x80) * 64 + (c - 0x80)
  | [a; b; c; d] =>
      (a - 0xF0) * 262144 + (b - 0x80) * 4096 + (c - 0x80) * 64 + (d - 0x80)
  | _ => 0
  end.

(** The digest words of a key before they are printed. *)
Definition key_words (text model : list N) : result (list N) :=
  data ← PyStr.encode_utf8 (prehash text model) ;
  Ok (SHA256.digest_words (map Byte.to_N data)).

(** Rounding to nearest even in closed form: the number [m * 2 ^ e]
    brought to the exponent [E] its size asks for, by an exact shift
    when [E <= e] and by a division with a rounded quotient otherwise;
    a quotient that reaches [2 ^ prec] moves to the next exponent. *)
Definition round_pack (prec emax : Z) (s : bool) (z E : Z) : spec_float :=
  match z with
  | Z0 => S754_zero s
  | Zpos p => if (E <=? emax - prec)%Z then S754_finite s p E else S754_infinity s
  | Zneg _ => S754_nan
  end.

Definition round_up (n q r : Z) : bool :=
  (2 ^ n <? 2 * r)%Z || ((2 ^ n =? 2 * r)%Z && Z.odd q).

Definition round_model (prec emax : Z) (s : bool) (m : positive) (e : Z)
  : spec_float :=
  let d := Z.pos (digits2_pos m) in
  let E := Z.max (d + e - prec) (3 - emax - prec) in
  if (E <=? e)%Z then round_pack prec emax s (Z.pos m * 2 ^ (e - E)) E
  else
    let n := (E - e)%Z in
    let q := (Z.pos m / 2 ^ n)%Z in
    let r := (Z.pos m mod 2 ^ n)%Z in
    let q' := (if round_up n q r then q + 1 else q)%Z in
    if (q' =? 2 ^ prec)%Z then round_pack prec emax s (2 ^ (prec - 1)) (E + 1)
    else round_pack prec emax s q' E.

(** A Python float is a binary64 number. *)
Definition is_python_float (x : spec_float) : Prop :=
  valid_binary 53 1024 x = true.

(** The value of a finite binary64 number times [2 ^ 1074], an
    integer. *)
Definition f64_scaled (x : spec_float) : option Z :=
  match x with
  | S754_zero _ => Some 0%Z
  | S754_finite s m e => Some (cond_Zopp s (Z.pos m * 2 ^ (e + 1074)))%Z
  | _ => None
  end.

(** [y] is [x] within float32 precision:
    [|x - y| <= max (|x| * 2 ^ -24) (2 ^ -150)], half a unit in the last
    place of a float32 at the size of [x]; an infinity or a NaN is only
    close to itself. *)
Definition within_f32_precision (x y : spec_float) : Prop :=
  match f64_scaled x, f64_scaled y with
  | Some a, Some b => (2 ^ 24 * Z.abs (a - b) <= Z.max (Z.abs a) (2 ^ 948))%Z
  | None, None => x = y
  | _, _ => False
  end.

(** [|x|] is at most the largest float32, [(2 ^ 24 - 1) * 2 ^ 104]. *)
Definition f32_in_range (x : spec_float) : Prop :=
  match f64_scaled x with
  | Some a => (Z.abs a <= (2 ^ 24 - 1) * 2 ^ 1178)%Z
  | None => True
  end.

(** [x] is the value of some float32. *)
Definition f32_representable (x : spec_float) : Prop :=
  ∃ y, valid_binary 24 128 y = true ∧ F32.to_float y = x.

(** ** Sample data *)

Definition wit_text : list N := of_string "Ha Long Bay".
Definition wit_model : list N := of_string "m1".
Definition wit_key : list N :=
  of_string "817683440ecec587bff50f4dc640402d232e4caa5a542af9f480a262d73bfee7".

(** [[0.1, 0.2, 0.3]] as Python floats, and as the floats the cache
    gives back. *)
Definition wit_vec : list spec_float :=
  [S754_finite false 7205759403792794 (-56);
   S754_finite false 7205759403792794 (-55);
   S754_finite false 5404319552844595 (-54)].

Definition wit_vec32 : list spec_float :=
  [S754_finite false 7205759511166976 (-56);
   S754_finite false 7205759511166976 (-55);
   S754_finite false 5404319767592960 (-54)].

Definition wit_row : row :=
  Row wit_key wit_model wit_text (_serialize_emb wit_vec) 0.

(** A row whose blob has three bytes. *)
Definition bad_row : row :=
  Row wit_key wit_model wit_text [x00; x00; x80] 0.

Definition wit_text2 : list N := of_string "Hanoi  museum".
Definition wit_key2 : list N :=
  of_string "2df829ff16efe78138a17727000e70a99bee6e04c61325d458c34719a5b10099".

(** Three rows with the timestamps 3, 1 and 4. *)
Definition small_table : list row :=
  [Row (of_string "k1") wit_model [] [] 3;
   Row (of_string "k2") wit_model [] [] 1;
   Row (of_string "k3") wit_model [] [] 4].

(** The batch ["A", "B", "A", "C", "D"] and a table that holds "B"
    (live at the times used below) and "D" (written at time 0). *)
Definition wit_batch : list (list N) :=
  [of_string "A"; of_string "B"; of_string "A"; of_string "C"; of_string "D"].

Definition key_B : list N :=
  of_string "1972b7caa1d3ba55ddbc14fa3c5a1063ea9ae4566b88f82e8b491ada9e71b924".

Definition key_D : list N :=
  of_string "8f0254fb195a0d60624ecf26deb5916ec6218bebe460512398feb2915593212a".

Definition wit_table : list row :=
  [Row key_B wit_model (of_string "B") (_serialize_emb wit_vec) 1000;
   Row key_D wit_model (of_string "D") (_serialize_emb wit_vec) 0].

(** The Python float [1e300]. *)
Definition huge_float : spec_float :=
  S754_finite false 6724873095247260 944.

(** A table of 200000 rows, row [i] written at time [i]: one more row
    brings the source's cap into play. *)
Definition full_table : list row :=
  (fun i => Row [N.of_nat i] [] [] [] (Z.of_nat i)) <$> seq 0 (N.to_nat 200000).


(** ** Histories of the cache *)

(** The calls of the three cache operations, and the table after a
    sequence of calls, on an SQLite with a given limit on bound
    variables and on the one with the limit of 999. *)
Inductive call : Type :=
| Get (text model : list N) (now : Z)
| Put (text model : list N) (vec : list spec_float) (now : Z)
| BatchGet (texts : list (list N)) (model : list N) (now : Z).

Definition run_call_with (MAX_VARIABLE_NUMBER : nat) (MAX_ENTRIES TTL_SECONDS : Z)
    (db : list row) (c : call) : list row :=
  match c with
  | Get text model now =>
      (get_embedding_from_cache TTL_SECONDS text model now db).2
  | Put text model vec now =>
      (put_embedding_in_cache MAX_ENTRIES text model vec now db).2
  | BatchGet texts model now =>
      (batch_get_embeddings_with TTL_SECONDS MAX_VARIABLE_NUMBER Config.MAX_VARS
         texts model now db).2
  end.

Definition run_calls_with (MAX_VARIABLE_NUMBER : nat) (MAX_ENTRIES TTL_SECONDS : Z)
    (calls : list call) (db : list row) : list row :=
  fold_left (run_call_with MAX_VARIABLE_NUMBER MAX_ENTRIES TTL_SECONDS) calls db.

Definition run_call := run_call_with Config.MAX_VARIABLE_NUMBER.

Definition run_calls := run_calls_with Config.MAX_VARIABLE_NUMBER.

(** The texts ["t000"] to ["t999"], and the table that holds a record
    for each of them under the model ["m1"], written at time 0: on an
    SQLite that allows 999 bound variables, a batch with one expired
    record too many for its [DELETE]. *)
Definition numbered_text (i : nat) : list N :=
  of_string "t" ++ [48 + N.of_nat (i / 100); 48 + N.of_nat (i / 10 mod 10);
                    48 + N.of_nat (i mod 10)].

Definition over_limit_texts : list (list N) := numbered_text <$> seq 0 1000.

Definition over_limit_row (t : list N) : row :=
  new_row t wit_model
    (match _make_key t wit_model with Ok k => k | Raise _ => [] end) wit_vec 0.

Definition over_limit_table : list row := over_limit_row <$> over_limit_texts.

(** A row as [put_embedding_in_cache] writes it: the key of some text
    under the row's model, the first 2000 code points of that text, and
    the blob of some vector. *)
Definition written_by_put (r : row) : Prop :=
  ∃ t vec, _make_key t (model r) = Ok (key r)
           ∧ text r = PyStr.slice_to 2000 t
           ∧ emb r = _serialize_emb vec.

(** What the operations keep: unique keys, at most [MAX_ENTRIES] rows,
    every row written by [put_embedding_in_cache]. *)
Definition cache_inv (MAX_ENTRIES : Z) (db : list row) : Prop :=
  table_wf db ∧ (Sql.count db <= MAX_ENTRIES)%Z ∧ Forall written_by_put db.

(** * The scripts around the cache: pinecone_upload.py and hybrid_chat.py

    Conventions.
    - A JSON value is what [json.load] makes of it: [None], a [bool],
      an [int], a [float], a [str], a [list] or a [dict].  The data
      file is an array of objects: the nodes are Python [dict]s with
      string keys, finite maps from strings.
    - The services the scripts call (the embedding API, Pinecone,
      Neo4j) are arguments: the function that answers a request.
    - Progress bars, pauses and printing are left out. *)

(** [s.strip()]: whitespace removed at both ends. *)
Fixpoint lstrip (s : list N) : list N :=
  match s with
  | [] => []
  | c :: s' => if PyStr.is_space c then lstrip s' else s
  end.

Definition rstrip (s : list N) : list N := reverse (lstrip (reverse s)).

Definition strip (s : list N) : list N := rstrip (lstrip s).

(** Exceptions of the scripts, next to the ones of the cache. *)
Inductive script_exn : Set :=
| KeyError
| AttributeError
| TypeError
| Builtin (e : exn).

Inductive outcome (A : Type) : Type :=
| Done (a : A)
| Failed (e : script_exn).
Arguments Done {A} a.
Arguments Failed {A} e.

#[global] Instance outcome_ret : MRet outcome := fun A a => Done a.
#[global] Instance outcome_bind : MBind outcome := fun A B k r =>
  match r with
  | Done a => k a
  | Failed e => Failed e
  end.

Inductive jval : Type :=
| JNull
| JBool (b : bool)
| JInt (n : Z)
| JFloat (x : spec_float)
| JStr (s : list N)
| JList (l : list jval)
| JObj (members : list (list N * jval)).

(** Truth value of a JSON value: [None], [False], [0], [0.0] and
    [-0.0], [""], [[]] and [{}] are false. *)
Definition truthy (v : jval) : bool :=
  match v with
  | JNull => false
  | JBool b => b
  | JInt n => negb (n =? 0)%Z
  | JFloat (S754_zero _) => false
  | JFloat _ => true
  | JStr [] | JList [] | JObj [] => false
  | JStr _ | JList _ | JObj _ => true
  end.

(** [a or b] *)
Definition py_or (a b : jval) : jval := if truthy a then a else b.

(** [v[:n]].  A string and a list are sliced; [None], a [bool] and a
    number are not subscriptable ([TypeError]).  A [dict] looks the
    slice up as a key: it cannot be hashed before Python 3.12
    ([TypeError]); since then it can, and is no key of a [dict] read
    from JSON ([KeyError]). *)
Definition jslice (hashable_slices : bool) (n : nat) (v : jval) : outcome jval :=
  match v with
  | JStr s => Done (JStr (take n s))
  | JList l => Done (JList (take n l))
  | JObj _ => Failed (if hashable_slices then KeyError else TypeError)
  | JNull | JBool _ | JInt _ | JFloat _ => Failed TypeError
  end.

(** The Python the scripts are run with when nothing else is said:
    before 3.12. *)
Module Python.
Definition HASHABLE_SLICES : bool := false.
End Python.

(** [d.get(k)] and [d.get(k, default)] *)
Definition dict_get (d : gmap (list N) jval) (k : string) : jval :=
  default JNull (d !! of_string k).

Definition dict_get_or (d : gmap (list N) jval) (k : string) (dflt : jval) : jval :=
  default dflt (d !! of_string k).

(** ** pinecone_upload.py *)

Module Upload.

Definition BATCH_SIZE : Z := 32.

(** [chunked(iterable, n)], its generator run to the end
    ([list(chunked(items, n))]): [range] raises [ValueError] for a zero
    step and is empty for a negative one. *)
Definition chunked {A} (iterable : list A) (n : Z) : result (list (list A)) :=
  if (n =? 0)%Z then Raise ValueError
  else if (n <? 0)%Z then Ok []
  else Ok ((fun i => take (Z.to_nat n) (drop i iterable))
             <$> py_range (length iterable) (Z.to_nat n)).

Record item : Type := Item {
  item_id : jval;
  item_text : list N;
  item_meta : gmap (list N) jval
}.

(** The dictionary [meta] of a node. *)
Definition make_meta (node : gmap (list N) jval) : gmap (list N) jval :=
  <[of_string "id" := dict_get node "id"]>
  (<[of_string "type" := dict_get node "type"]>
  (<[of_string "name" := dict_get node "name"]>
  (<[of_string "city" :=
       dict_get_or node "city" (dict_get_or node "region" (JStr []))]>
  (<[of_string "tags" := dict_get_or node "tags" (JList [])]> ∅)))).

Section Python.

(** Whether slice objects can be hashed: Python 3.12 and later. *)
Variable hashable_slices : bool.

(** [node.get("semantic_text") or (node.get("description") or "")[:1000]] *)
Definition semantic_text_on (node : gmap (list N) jval) : outcome jval :=
  let a := dict_get node "semantic_text" in
  if truthy a then Done a
  else jslice hashable_slices 1000 (py_or (dict_get node "description") (JStr [])).

(** The loop [for node in nodes] of [main] that fills [items]:
    [semantic_text.strip()] needs a string, and [node["id"]] the key. *)
Fixpoint build_items_on (nodes : list (gmap (list N) jval)) : outcome (list item) :=
  match nodes with
  | [] => Done []
  | node :: rest =>
      st ← semantic_text_on node ;
      match st with
      | JStr s =>
          match strip s with
          | [] => build_items_on rest
          | _ :: _ =>
              match node !! of_string "id" with
              | None => Failed KeyError
              | Some id =>
                  items ← build_items_on rest ;
                  Done (Item id s (make_meta node) :: items)
              end
          end
      | _ => Failed AttributeError
      end
  end.

End Python.

Definition semantic_text := semantic_text_on Python.HASHABLE_SLICES.

Definition build_items := build_items_on Python.HASHABLE_SLICES.

Record vector : Type := Vector {
  vec_id : jval;
  vec_values : list spec_float;
  vec_metadata : gmap (list N) jval
}.

Section Service.

(** [get_embeddings(texts, model=EMBED_MODEL)], the answer of the
    embedding API. *)
Variable get_embeddings : list (list N) -> list (list spec_float).

(** The body of [for batch in ...]: the list [vectors] given to
    [index.upsert]. *)
Definition make_vectors (batch : list item) : list vector :=
  let ids := item_id <$> batch in
  let texts := item_text <$> batch in
  let metas := item_meta <$> batch in
  let embeddings := get_embeddings texts in
  zip_with (fun ie meta => Vector ie.1 ie.2 meta) (zip ids embeddings) metas.

(** [main()] on the nodes of the data file: the arguments of the calls
    of [index.upsert], in order. *)
Definition main_on (hashable_slices : bool) (nodes : list (gmap (list N) jval))
  : outcome (list (list vector)) :=
  items ← build_items_on hashable_slices nodes ;
  match chunked items BATCH_SIZE with
  | Ok batches => Done (make_vectors <$> batches)
  | Raise e => Failed (Builtin e)
  end.

Definition main := main_on Python.HASHABLE_SLICES.

End Service.

End Upload.

(** ** hybrid_chat.py *)

Module HybridChat.

(** A record of the Cypher query of [fetch_graph_context]; a property
    the node lacks is [null]. *)
Record neighbour : Type := Neighbour {
  rel : list N;
  labels : list (list N);
  id : option (list N);
  name : option (list N);
  type : option (list N);
  description : option (list N)
}.

Record fact : Type := Fact {
  source : list N;
  fact_rel : list N;
  target_id : option (list N);
  target_name : list N;
  target_desc : list N;
  fact_labels : list (list N)
}.

(** [f"{v}"] for a string or [None]. *)
Definition fmt (v : option (list N)) : list N :=
  match v with
  | Some s => s
  | None => of_string "None"
  end.

(** [not target_name or len(target_name.strip()) < 3] *)
Definition name_unusable (target_name : option (list N)) : bool :=
  match target_name with
  | None | Some [] => true
  | Some s => (length (strip s) <? 3)%nat
  end.

(** The body of [for r in recs]. *)
Definition make_fact (nid : list N) (r : neighbour) : fact :=
  let target_desc := default [] (description r) in
  let target_name :=
    if name_unusable (name r) then
      let desc_snippet :=
        PyStr.join (of_string " ") (take 10 (PyStr.split target_desc)) in
      of_string "'" ++ desc_snippet ++ of_string "' (ID:" ++ fmt (id r)
      ++ of_string ")"
    else default [] (name r) in
  Fact nid (rel r) (id r) target_name (take 400 target_desc) (labels r).

(** [fetch_graph_context(node_ids, neighborhood_depth)]; [run nid] is
    the answer of [session.run(q, nid=nid)].  The source does not use
    [neighborhood_depth]: the query is the same for every depth. *)
Definition fetch_graph_context (run : list N -> list neighbour)
    (node_ids : list (list N)) (neighborhood_depth : Z) : list fact :=
  nid ← node_ids ; make_fact nid <$> run nid.

End HybridChat.

(** ** More sample data *)

(** A text with the normal form of [wit_text2]. *)
Definition wit_text3 : list N := of_string " Hanoi museum ".

(** The batch of [batch_example] and its table. *)
Definition wit_batch4 : list (list N) :=
  [of_string "A"; of_string "B"; of_string "A"; of_string "C"].

Definition wit_table_B : list row :=
  [Row key_B wit_model (of_string "B") (_serialize_emb wit_vec) 1000].

(** A write, a lookup and a batch lookup. *)
Definition wit_calls : list call :=
  [Put wit_text wit_model wit_vec 1000;
   Get wit_text wit_model 2000;
   BatchGet wit_batch wit_model 3000].

(** Two nodes of a data file: one with a text, one whose
    [semantic_text] is blank. *)
Definition wit_node : gmap (list N) jval :=
  <[of_string "id" := JStr (of_string "n1")]>
  (<[of_string "semantic_text" := JStr (of_string "Hanoi")]> ∅).

Definition blank_node : gmap (list N) jval :=
  <[of_string "id" := JStr (of_string "n2")]>
  (<[of_string "semantic_text" := JStr (of_string "  ")]>
  (<[of_string "description" := JStr (of_string "Old quarter")]> ∅)).

Definition wit_items : list Upload.item :=
  [Upload.Item (JStr (of_string "n1")) (of_string "Hanoi")
     (Upload.make_meta wit_node)].

(** An embedding service that answers every text with [wit_vec]. *)
Definition wit_embed (texts : list (list N)) : list (list spec_float) :=
  (fun _ => wit_vec) <$> texts.

(** A neighbour with a one-letter name, and a graph that returns it
    for every id. *)
Definition wit_neighbour : HybridChat.neighbour :=
  HybridChat.Neighbour (of_string "LOCATED_IN") [of_string "Entity"]
    (Some (of_string "hotel_12")) (Some (of_string "X"))
    (Some (of_string "Hotel"))
    (Some (of_string "A quiet hotel near the old quarter")).

Definition wit_run (nid : list N) : list HybridChat.neighbour := [wit_neighbour].
(** * Properties *)

(** ** Test vectors *)

Example sha256_abc :
  SHA256.hexdigest (map byte_of_N (of_string "abc"))
  = of_string "ba7816bf8f01cfea414140de5dae2223b00361a396177a9cb410ff61f20015ad".
Proof. vm_compute. reflexivity. Qed.

Example make_key_hanoi :
  _make_key (of_string "Hanoi  museum") (of_string "m1")
  = Ok (of_string "2df829ff16efe78138a17727000e70a99bee6e04c61325d458c34719a5b10099").
Proof. vm_compute. reflexivity. Qed.

(** ** The table *)

Section TableFacts.

Implicit Types (db : list row) (r : row) (k : list N).

Lemma table_wf_filter (P : row -> Prop) `{!∀ r, Decision (P r)} db :
  table_wf db -> table_wf (filter P db).
Proof.
  unfold table_wf. induction db as [|r db IH]; [done|].
  rewrite fmap_cons, NoDup_cons. intros [Hr Hnd].
  rewrite filter_cons. destruct (decide (P r)); [|by auto].
  rewrite fmap_cons, NoDup_cons. split; [|by auto].
  intros (r' & Hk & Hin)%list_elem_of_fmap. apply Hr.
  apply list_elem_of_fmap. exists r'. split; [done|].
  by apply list_elem_of_filter in Hin as [_ ?].
Qed.

Lemma table_wf_key_inj db r1 r2 :
  table_wf db -> r1 ∈ db -> r2 ∈ db -> key r1 = key r2 -> r1 = r2.
Proof.
  unfold table_wf. induction db as [|r db IH]; [by intros _ ?%elem_of_nil|].
  rewrite fmap_cons, NoDup_cons. intros [Hr Hnd] H1 H2 Hk.
  apply elem_of_cons in H1 as [->|H1], H2 as [->|H2]; [done| | |by auto].
  - exfalso. apply Hr. rewrite Hk. by apply list_elem_of_fmap_2.
  - exfalso. apply Hr. rewrite <- Hk. by apply list_elem_of_fmap_2.
Qed.

Lemma filter_key_absent db k :
  k ∉ key <$> db -> filter (fun r' => key r' = k) db = [].
Proof.
  induction db as [|r db IH]; [done|].
  rewrite fmap_cons, not_elem_of_cons. intros [Hne Hk].
  rewrite filter_cons, decide_False by congruence. auto.
Qed.

Lemma filter_key_eq db r :
  table_wf db -> r ∈ db -> filter (fun r' => key r' = key r) db = [r].
Proof.
  unfold table_wf. induction db as [|r0 db IH]; [by intros _ ?%elem_of_nil|].
  rewrite fmap_cons, NoDup_cons. intros [Hr Hnd] Hin.
  rewrite filter_cons. apply elem_of_cons in Hin as [->|Hin].
  - rewrite decide_True by done. f_equal. by apply filter_key_absent.
  - rewrite decide_False; [by apply IH|].
    intros Heq. apply Hr. rewrite Heq. by apply list_elem_of_fmap_2.
Qed.

Lemma select_by_key_Some db k r :
  Sql.select_by_key k db = Some r -> r ∈ db ∧ key r = k.
Proof.
  unfold Sql.select_by_key. intros H%head_Some_elem_of.
  apply list_elem_of_filter in H. tauto.
Qed.

Lemma select_by_key_None db k :
  Sql.select_by_key k db = None <-> ∀ r, r ∈ db -> key r ≠ k.
Proof.
  unfold Sql.select_by_key. rewrite head_None. split.
  - intros H r Hin Hk. by eapply (filter_nil_not_elem_of _ _ r H).
  - intros H. induction db as [|r db IH]; [done|].
    rewrite filter_cons, decide_False by (apply H; left).
    apply IH. intros r' ?. apply H. by right.
Qed.

Lemma select_by_key_wf db r :
  table_wf db -> r ∈ db -> Sql.select_by_key (key r) db = Some r.
Proof.
  intros Hwf Hin. unfold Sql.select_by_key. by rewrite filter_key_eq.
Qed.

Lemma filter_split_length (P : row -> Prop) `{!∀ r, Decision (P r)} db :
  (length (filter P db) + length (filter (fun r => ¬ P r) db) = length db)%nat.
Proof.
  induction db as [|r db IH]; [done|].
  rewrite !filter_cons. destruct (decide (P r)).
  - rewrite decide_False by tauto. simpl. lia.
  - rewrite decide_True by done. simpl. lia.
Qed.

Lemma delete_by_key_length db r :
  table_wf db -> r ∈ db ->
  Sql.count (Sql.delete_by_key (key r) db) = (Sql.count db - 1)%Z.
Proof.
  intros Hwf Hin. unfold Sql.count, Sql.delete_by_key.
  pose proof (filter_split_length (fun r' => key r' = key r) db) as Hlen.
  rewrite filter_key_eq in Hlen by done. simpl in Hlen.
  change (fun r0 => key r0 ≠ key r) with (fun r0 => ¬ key r0 = key r).
  lia.
Qed.

Lemma delete_by_key_elem db r r' :
  table_wf db -> r ∈ db ->
  r' ∈ Sql.delete_by_key (key r) db <-> r' ∈ db ∧ r' ≠ r.
Proof.
  intros Hwf Hin. unfold Sql.delete_by_key. rewrite list_elem_of_filter.
  split.
  - intros [Hne Hin']. split; [done|]. by intros ->.
  - intros [Hin' Hne]. split; [|done].
    intros Hk. apply Hne. by eapply table_wf_key_inj.
Qed.

End TableFacts.

(** ** The codec: shape of the result *)

Lemma groups_length {A} (n : nat) (l : list A) fuel :
  (length l <= fuel)%nat ->
  (length (groups fuel (S n) l) = (length l + n) / S n)%nat.
Proof.
  revert l. induction fuel as [|fuel IH]; intros l Hl.
  - destruct l; [|cbn [length] in Hl; lia].
    cbn [groups length]. rewrite Nat.div_small; lia.
  - destruct l as [|x l]; [cbn [groups length]; rewrite Nat.div_small; lia|].
    cbn [groups]. cbn [length] in *.
    rewrite IH by (rewrite length_drop; cbn [length]; lia).
    rewrite length_drop. cbn [length].
    destruct (decide (S (length l) <= S n)%nat) as [Hle|Hgt].
    + replace (S (length l) - S n)%nat with 0%nat by lia.
      rewrite (Nat.div_small (0 + n)) by lia.
      apply (Nat.div_unique _ _ 1 (length l)); lia.
    + replace (S (length l) + n)%nat with ((S (length l) - S n + n) + 1 * S n)%nat by lia.
      rewrite Nat.div_add by lia. lia.
Qed.

Lemma deserialize_ok_iff (b : bytes) :
  (∃ v, _deserialize_emb b = Ok v) <-> (length b mod 4 = 0)%nat.
Proof.
  unfold _deserialize_emb. destruct (Nat.eqb_spec (length b mod 4) 0) as [->|Hne].
  - split; [done|]. eauto.
  - split; [by intros [v ?]|done].
Qed.

Lemma deserialize_malformed (b : bytes) :
  (length b mod 4 ≠ 0)%nat -> _deserialize_emb b = Raise ValueError.
Proof.
  unfold _deserialize_emb. intros H.
  by destruct (Nat.eqb_spec (length b mod 4) 0).
Qed.

Lemma deserialize_length (b : bytes) v :
  _deserialize_emb b = Ok v -> (length v = length b / 4)%nat.
Proof.
  unfold _deserialize_emb. destruct (Nat.eqb_spec (length b mod 4) 0) as [H0|]; [|done].
  intros [= <-]. rewrite length_map, (groups_length 3) by done.
  pose proof (Nat.div_mod_eq (length b) 4).
  symmetry. apply (Nat.div_unique _ _ _ 3); lia.
Qed.

(** ** Single lookup: expiry and malformed blobs *)

Section GetFacts.

Variable TTL_SECONDS : Z.
Implicit Types (db : list row) (r : row) (k : list N).

Lemma is_expired_spec now created :
  TTL_SECONDS ≠ 0%Z ->
  is_expired TTL_SECONDS now created = true <-> (now - created > TTL_SECONDS)%Z.
Proof.
  intros Hne. unfold is_expired.
  rewrite andb_true_iff, negb_true_iff, Z.eqb_neq, Z.ltb_lt. lia.
Qed.

Lemma get_expired text model k now db r :
  table_wf db -> _make_key text model = Ok k -> r ∈ db -> key r = k ->
  is_expired TTL_SECONDS now (created_at r) = true ->
  get_embedding_from_cache TTL_SECONDS text model now db
  = (Ok None, Sql.delete_by_key k db).
Proof.
  intros Hwf Hk Hin <- Hexp. unfold get_embedding_from_cache.
  by rewrite Hk, select_by_key_wf, Hexp.
Qed.

Lemma get_live text model k now db r :
  table_wf db -> _make_key text model = Ok k -> r ∈ db -> key r = k ->
  is_expired TTL_SECONDS now (created_at r) = false ->
  get_embedding_from_cache TTL_SECONDS text model now db
  = (v ← _deserialize_emb (emb r) ; Ok (Some v), db).
Proof.
  intros Hwf Hk Hin <- Hexp. unfold get_embedding_from_cache.
  by rewrite Hk, select_by_key_wf, Hexp.
Qed.

Lemma get_absent text model k now db :
  _make_key text model = Ok k -> (∀ r, r ∈ db -> key r ≠ k) ->
  get_embedding_from_cache TTL_SECONDS text model now db = (Ok None, db).
Proof.
  intros Hk Hno. unfold get_embedding_from_cache. rewrite Hk.
  by apply select_by_key_None in Hno as ->.
Qed.

End GetFacts.

Lemma config_ttl_nonzero : Config.TTL_SECONDS ≠ 0%Z.
Proof. done. Qed.

(** C3. With the source's [TTL_SECONDS], a stored record is expired
    exactly when [now - created_at > TTL_SECONDS] (strictly greater).
    A lookup of an expired record with its text and model returns
    absent and removes that record and no other, so the count is one
    lower; a lookup of a record with [now - created_at <= TTL_SECONDS]
    returns the decoded vector and leaves the table as it is. *)
Theorem get_ttl_expiry (text model k : list N) (now : Z) (db : list row) (r : row) :
  table_wf db -> _make_key text model = Ok k -> r ∈ db -> key r = k ->
  (is_expired Config.TTL_SECONDS now (created_at r) = true
   <-> (now - created_at r > Config.TTL_SECONDS)%Z)
  ∧ ((now - created_at r > Config.TTL_SECONDS)%Z ->
     ∃ db', get_embedding_from_cache Config.TTL_SECONDS text model now db
            = (Ok None, db')
            ∧ (∀ r', r' ∈ db' <-> r' ∈ db ∧ r' ≠ r)
            ∧ Sql.count db' = (Sql.count db - 1)%Z)
  ∧ ((now - created_at r <= Config.TTL_SECONDS)%Z ->
     get_embedding_from_cache Config.TTL_SECONDS text model now db
     = (v ← _deserialize_emb (emb r) ; Ok (Some v), db)
     ∧ ((length (emb r) mod 4 = 0)%nat ->
        ∃ v, _deserialize_emb (emb r) = Ok v
             ∧ (length v = length (emb r) / 4)%nat)).
Proof.
  intros Hwf Hk Hin Hkey.
  pose proof (is_expired_spec Config.TTL_SECONDS now (created_at r)
                config_ttl_nonzero) as Hspec.
  split; [exact Hspec|]. split.
  - intros Hgt. exists (Sql.delete_by_key k db). split.
    + eapply get_expired; eauto. by apply Hspec.
    + subst k. split; [intros r'; by apply delete_by_key_elem|].
      by apply delete_by_key_length.
  - intros Hle. split.
    + eapply get_live; eauto.
      apply not_true_is_false. intros E. apply Hspec in E. lia.
    + intros Hlen. apply deserialize_ok_iff in Hlen as [v Hv].
      exists v. split; [done|]. by apply deserialize_length.
Qed.

Lemma get_ttl_expiry_witness :
  (is_expired Config.TTL_SECONDS 2592001 (created_at wit_row) = true
   <-> (2592001 - created_at wit_row > Config.TTL_SECONDS)%Z)
  ∧ ((2592001 - created_at wit_row > Config.TTL_SECONDS)%Z ->
     ∃ db', get_embedding_from_cache Config.TTL_SECONDS wit_text wit_model
              2592001 [wit_row] = (Ok None, db')
            ∧ (∀ r', r' ∈ db' <-> r' ∈ [wit_row] ∧ r' ≠ wit_row)
            ∧ Sql.count db' = (Sql.count [wit_row] - 1)%Z)
  ∧ ((2592001 - created_at wit_row <= Config.TTL_SECONDS)%Z ->
     get_embedding_from_cache Config.TTL_SECONDS wit_text wit_model
       2592001 [wit_row]
     = (v ← _deserialize_emb (emb wit_row) ; Ok (Some v), [wit_row])
     ∧ ((length (emb wit_row) mod 4 = 0)%nat ->
        ∃ v, _deserialize_emb (emb wit_row) = Ok v
             ∧ (length v = length (emb wit_row) / 4)%nat)).
Proof.
  apply (get_ttl_expiry wit_text wit_model wit_key 2592001 [wit_row] wit_row).
  - unfold table_wf. apply NoDup_singleton.
  - vm_compute. reflexivity.
  - apply list_elem_of_singleton. reflexivity.
  - reflexivity.
Defined.

Example get_expired_example :
  get_embedding_from_cache Config.TTL_SECONDS wit_text wit_model 2592001 [wit_row]
  = (Ok None, []).
Proof. vm_compute. reflexivity. Qed.

Example get_boundary_example :
  get_embedding_from_cache Config.TTL_SECONDS wit_text wit_model 2592000 [wit_row]
  = (Ok (Some wit_vec32), [wit_row]).
Proof. vm_compute. reflexivity. Qed.

(** C7, first half as stated and second half as the code has it.
    [_deserialize_emb] raises [ValueError] on a byte string whose length
    is not a multiple of 4.  [get_embedding_from_cache] has no handler
    around the decoding: on a stored record with such a blob it returns
    absent only when the record is expired (the record is then deleted),
    and otherwise the [ValueError] reaches the caller and the table is
    unchanged. *)
Theorem get_malformed_propagates (TTL_SECONDS : Z) (text model k : list N)
    (now : Z) (db : list row) (r : row) :
  table_wf db -> _make_key text model = Ok k -> r ∈ db -> key r = k ->
  (length (emb r) mod 4 ≠ 0)%nat ->
  _deserialize_emb (emb r) = Raise ValueError
  ∧ get_embedding_from_cache TTL_SECONDS text model now db
    = if is_expired TTL_SECONDS now (created_at r)
      then (Ok None, Sql.delete_by_key k db)
      else (Raise ValueError, db).
Proof.
  intros Hwf Hk Hin Hkey Hlen.
  pose proof (deserialize_malformed _ Hlen) as Hraise. split; [done|].
  destruct (is_expired _ _ _) eqn:E.
  - by eapply get_expired.
  - erewrite get_live by eauto. by rewrite Hraise.
Qed.

Lemma get_malformed_propagates_witness :
  _deserialize_emb (emb bad_row) = Raise ValueError
  ∧ get_embedding_from_cache Config.TTL_SECONDS wit_text wit_model 100 [bad_row]
    = if is_expired Config.TTL_SECONDS 100 (created_at bad_row)
      then (Ok None, Sql.delete_by_key wit_key [bad_row])
      else (Raise ValueError, [bad_row]).
Proof.
  apply (get_malformed_propagates Config.TTL_SECONDS wit_text wit_model wit_key
           100 [bad_row] bad_row).
  - unfold table_wf. apply NoDup_singleton.
  - vm_compute. reflexivity.
  - apply list_elem_of_singleton. reflexivity.
  - reflexivity.
  - vm_compute. lia.
Defined.

(** C7 as stated fails: a live record whose blob has 3 bytes makes the
    lookup raise instead of returning absent. *)
Lemma get_malformed_not_absent :
  ¬ (∀ (text model k : list N) (now : Z) (db : list row) (r : row),
       table_wf db -> _make_key text model = Ok k -> r ∈ db -> key r = k ->
       (length (emb r) mod 4 ≠ 0)%nat ->
       _deserialize_emb (emb r) = Raise ValueError
       ∧ (get_embedding_from_cache Config.TTL_SECONDS text model now db).1
         = Ok None).
Proof.
  intros H.
  destruct (H wit_text wit_model wit_key 100%Z [bad_row] bad_row) as [_ Habs].
  - unfold table_wf. apply NoDup_singleton.
  - vm_compute. reflexivity.
  - apply list_elem_of_singleton. reflexivity.
  - reflexivity.
  - vm_compute. lia.
  - vm_compute in Habs. discriminate Habs.
Qed.

(** ** Insertion and capacity eviction *)

Section PutFacts.

Implicit Types (db : list row) (r : row) (k : list N).

Lemma created_le_total : Total Sql.created_le.
Proof. intros r1 r2. unfold Sql.created_le. lia. Qed.

Lemma created_le_trans : Transitive Sql.created_le.
Proof. intros r1 r2 r3. unfold Sql.created_le. lia. Qed.

#[local] Existing Instance created_le_total.
#[local] Existing Instance created_le_trans.

Lemma table_wf_NoDup db : table_wf db -> NoDup db.
Proof. apply NoDup_fmap_1. Qed.

Lemma insert_or_replace_wf r db :
  table_wf db -> table_wf (Sql.insert_or_replace r db).
Proof.
  intros Hwf. unfold Sql.insert_or_replace, table_wf.
  rewrite fmap_app. apply NoDup_app. split; [|split].
  - by apply (table_wf_filter (fun r' => key r' ≠ key r)).
  - intros k (r' & -> & Hin)%list_elem_of_fmap.
    apply list_elem_of_filter in Hin as [Hne _].
    by intros ?%list_elem_of_singleton.
  - apply NoDup_singleton.
Qed.

Lemma insert_or_replace_elem r db r' :
  r' ∈ Sql.insert_or_replace r db <-> r' = r ∨ (r' ∈ db ∧ key r' ≠ key r).
Proof.
  unfold Sql.insert_or_replace.
  rewrite elem_of_app, list_elem_of_filter, list_elem_of_singleton. tauto.
Qed.

Lemma victims_split n db :
  (0 <= n)%Z ->
  victims n db ++ drop (Z.to_nat n) (merge_sort Sql.created_le db) ≡ₚ db.
Proof.
  intros Hn. unfold victims, Sql.limit.
  destruct (Z.ltb_spec n 0); [lia|].
  rewrite take_drop. apply merge_sort_Permutation.
Qed.

Lemma victims_length n db :
  (0 <= n <= Z.of_nat (length db))%Z -> length (victims n db) = Z.to_nat n.
Proof.
  intros Hn. unfold victims, Sql.limit.
  destruct (Z.ltb_spec n 0); [lia|].
  apply length_take_le.
  rewrite (Permutation_length (merge_sort_Permutation Sql.created_le db)). lia.
Qed.

Lemma victims_oldest n db d s :
  (0 <= n)%Z -> table_wf db ->
  d ∈ victims n db -> s ∈ db -> s ∉ victims n db ->
  (created_at d <= created_at s)%Z.
Proof.
  intros Hn Hwf Hd Hs Hns.
  pose proof (victims_split n db Hn) as Hperm.
  rewrite <- Hperm in Hs. apply elem_of_app in Hs as [?|Hs]; [done|].
  pose proof (StronglySorted_merge_sort Sql.created_le db) as Hsorted.
  rewrite <- (take_drop (Z.to_nat n)) in Hsorted.
  unfold victims, Sql.limit in Hd. destruct (Z.ltb_spec n 0); [lia|].
  exact (StronglySorted_app_1_elem_of _ _ _ d s Hsorted Hd Hs).
Qed.

Lemma victims_sub n db r : r ∈ victims n db -> r ∈ db.
Proof.
  unfold victims, Sql.limit. intros Hin.
  rewrite <- (merge_sort_Permutation Sql.created_le db).
  destruct (n <? 0)%Z; [done|].
  by apply elem_of_take in Hin as (i & ?%list_elem_of_lookup_2 & _).
Qed.

Lemma victims_NoDup n db : table_wf db -> NoDup (victims n db).
Proof.
  intros Hwf%table_wf_NoDup. unfold victims, Sql.limit.
  rewrite <- (merge_sort_Permutation Sql.created_le db) in Hwf.
  destruct (n <? 0)%Z; [done|].
  eapply sublist_NoDup; [exact Hwf|apply sublist_take].
Qed.

Lemma oldest_keys_elem n db r :
  table_wf db -> r ∈ db ->
  key r ∈ Sql.oldest_keys n db <-> r ∈ victims n db.
Proof.
  intros Hwf Hin. unfold Sql.oldest_keys. fold (victims n db). split.
  - intros (v & Hk & Hv)%list_elem_of_fmap.
    assert (r = v) as -> by eauto using table_wf_key_inj, victims_sub. done.
  - apply list_elem_of_fmap_2.
Qed.

(** What [DELETE ... WHERE key IN (SELECT ... LIMIT n)] leaves. *)
Lemma evict_elem n db r :
  table_wf db ->
  r ∈ Sql.delete_in (Sql.oldest_keys n db) db <-> r ∈ db ∧ r ∉ victims n db.
Proof.
  intros Hwf. unfold Sql.delete_in. rewrite list_elem_of_filter. split.
  - intros [Hk Hin]. split; [done|]. by rewrite <- oldest_keys_elem.
  - intros [Hin Hv]. split; [|done]. by rewrite oldest_keys_elem.
Qed.

Lemma evict_length n db :
  table_wf db -> (0 <= n <= Sql.count db)%Z ->
  Sql.count (Sql.delete_in (Sql.oldest_keys n db) db) = (Sql.count db - n)%Z.
Proof.
  intros Hwf Hn. unfold Sql.count in *.
  pose proof (filter_split_length (fun r => key r ∈ Sql.oldest_keys n db) db) as Hlen.
  assert (filter (fun r => key r ∈ Sql.oldest_keys n db) db ≡ₚ victims n db) as Hperm.
  { apply NoDup_Permutation.
    - by apply NoDup_filter, table_wf_NoDup.
    - by apply victims_NoDup.
    - intros r. rewrite list_elem_of_filter. split.
      + intros [Hk Hin]. by apply oldest_keys_elem in Hk.
      + intros Hv. pose proof (victims_sub _ _ _ Hv).
        split; [by apply oldest_keys_elem|done]. }
  rewrite Hperm, victims_length in Hlen by done.
  unfold Sql.delete_in. lia.
Qed.

Lemma evict_sublist ks db : Sql.delete_in ks db `sublist_of` db.
Proof. apply sublist_filter. Qed.

End PutFacts.

Section PutSpec.

Variable MAX_ENTRIES : Z.
Implicit Types (db : list row) (r : row) (k : list N).

Lemma put_no_eviction text model k vec now db :
  _make_key text model = Ok k ->
  let db1 := Sql.insert_or_replace (new_row text model k vec now) db in
  (Sql.count db1 <= MAX_ENTRIES)%Z ->
  put_embedding_in_cache MAX_ENTRIES text model vec now db = (Ok (), db1).
Proof.
  intros Hk db1 Hle. unfold put_embedding_in_cache. rewrite Hk.
  fold (new_row text model k vec now). fold db1.
  by destruct (Z.ltb_spec MAX_ENTRIES (Sql.count db1)); [lia|].
Qed.

Lemma put_eviction_run text model k vec now db cutoff :
  _make_key text model = Ok k ->
  eviction_cutoff MAX_ENTRIES = Ok cutoff ->
  let db1 := Sql.insert_or_replace (new_row text model k vec now) db in
  (MAX_ENTRIES < Sql.count db1)%Z ->
  put_embedding_in_cache MAX_ENTRIES text model vec now db
  = (Ok (), Sql.delete_in (Sql.oldest_keys (Sql.count db1 - cutoff) db1) db1).
Proof.
  intros Hk Hc db1 Hlt. unfold put_embedding_in_cache. rewrite Hk, Hc.
  fold (new_row text model k vec now). fold db1.
  by destruct (Z.ltb_spec MAX_ENTRIES (Sql.count db1)); [|lia].
Qed.

(** The effect of one [put] for any cap whose cutoff lies between 0 and
    the cap. *)
Lemma put_spec text model k vec now db cutoff :
  table_wf db ->
  _make_key text model = Ok k ->
  eviction_cutoff MAX_ENTRIES = Ok cutoff ->
  (0 <= cutoff <= MAX_ENTRIES)%Z ->
  let db1 := Sql.insert_or_replace (new_row text model k vec now) db in
  ∃ db', put_embedding_in_cache MAX_ENTRIES text model vec now db = (Ok (), db')
    ∧ table_wf db'
    ∧ ((Sql.count db1 <= MAX_ENTRIES)%Z -> db' = db1)
    ∧ ((Sql.count db1 > MAX_ENTRIES)%Z ->
         db' `sublist_of` db1
         ∧ Sql.count db' = cutoff
         ∧ (∀ d s, d ∈ db1 -> d ∉ db' -> s ∈ db' ->
                   (created_at d <= created_at s)%Z))
    ∧ (Sql.count db' <= MAX_ENTRIES)%Z.
Proof.
  intros Hwf Hk Hc Hcut db1.
  assert (table_wf db1) as Hwf1 by by apply insert_or_replace_wf.
  destruct (Z.le_gt_cases (Sql.count db1) MAX_ENTRIES) as [Hle|Hgt].
  - exists db1. rewrite (put_no_eviction _ _ k) by done.
    split; [done|]. split; [done|]. split; [done|]. split; [lia|lia].
  - set (n := (Sql.count db1 - cutoff)%Z).
    exists (Sql.delete_in (Sql.oldest_keys n db1) db1).
    rewrite (put_eviction_run _ _ k _ _ _ cutoff) by done.
    assert (Sql.count (Sql.delete_in (Sql.oldest_keys n db1) db1) = cutoff) as Hcount.
    { rewrite evict_length by (done || lia). lia. }
    split; [done|]. split; [by apply table_wf_filter|]. split; [lia|].
    split; [|lia]. intros _. split; [apply evict_sublist|]. split; [done|].
    intros d s Hd Hnd Hs.
    apply evict_elem in Hs as [Hs Hsv]; [|done].
    apply (victims_oldest n db1); [lia|done| |done|done].
    destruct (decide (d ∈ victims n db1)) as [|Hdv]; [done|].
    exfalso. apply Hnd. by apply evict_elem.
Qed.

(** The row just written survives its own eviction pass when it is
    strictly the newest and the cutoff is at least 1. *)
Lemma put_keeps_new text model k vec now db cutoff :
  table_wf db ->
  _make_key text model = Ok k ->
  eviction_cutoff MAX_ENTRIES = Ok cutoff ->
  (1 <= cutoff <= MAX_ENTRIES)%Z ->
  (∀ r, r ∈ db -> key r ≠ k -> (created_at r < now)%Z) ->
  let new := new_row text model k vec now in
  let db1 := Sql.insert_or_replace new db in
  ∃ db', put_embedding_in_cache MAX_ENTRIES text model vec now db = (Ok (), db')
    ∧ new ∈ db'
    ∧ db' `sublist_of` db1
    ∧ (∀ d, d ∈ db1 -> d ∉ db' -> (created_at d < now)%Z).
Proof.
  intros Hwf Hk Hc Hcut Hnew new db1.
  assert (table_wf db1) as Hwf1 by by apply insert_or_replace_wf.
  assert (new ∈ db1) as Hin by (apply insert_or_replace_elem; by left).
  assert (∀ r, r ∈ db1 -> r ≠ new -> (created_at r < now)%Z) as Holder.
  { intros r [->|[Hr Hne]]%insert_or_replace_elem ?; [done|]. by apply Hnew. }
  destruct (put_spec text model k vec now db cutoff) as (db' & Hput & _ & Hsame & Hev & _);
    [done|done|done|lia|].
  fold new db1 in Hsame, Hev.
  exists db'. split; [done|].
  destruct (Z.le_gt_cases (Sql.count db1) MAX_ENTRIES) as [Hle|Hgt].
  - rewrite (Hsame Hle). split; [done|]. split; [done|]. by intros d ? ?.
  - destruct Hev as (Hsub & Hcount & Hold); [lia|].
    assert (∃ s, s ∈ db') as [s Hs].
    { destruct db' as [|s ?]; [|exists s; by left].
      unfold Sql.count in Hcount. simpl in Hcount. lia. }
    assert (new ∈ db') as Hkeep.
    { destruct (decide (new ∈ db')) as [|Hgone]; [done|]. exfalso.
      pose proof (Hold new s Hin Hgone Hs) as Hle. simpl in Hle.
      assert (s ≠ new) as Hne by (by intros ->).
      assert (s ∈ db1) as Hs1 by (by eapply elem_of_sublist).
      pose proof (Holder s Hs1 Hne). lia. }
    split; [done|]. split; [done|].
    intros d Hd Hgone. apply Holder; [done|]. by intros ->.
Qed.

End PutSpec.

Lemma config_cutoff :
  eviction_cutoff Config.MAX_ENTRIES = Ok (Config.MAX_ENTRIES * 9 / 10)%Z.
Proof. vm_compute. reflexivity. Qed.

(** C2. With the source's [MAX_ENTRIES], a call of
    [put_embedding_in_cache] that derives its key inserts (or replaces)
    the row and, [N] being the count after the insertion: when
    [N <= MAX_ENTRIES] nothing is evicted; otherwise exactly
    [N - floor(MAX_ENTRIES * 0.9)] rows are deleted, every deleted row
    being at most as recent as every surviving row, and the surviving
    rows are untouched.  In both cases the count is at most
    [MAX_ENTRIES] when the call returns, and key uniqueness is kept. *)
Theorem put_eviction (text model k : list N) (vec : list spec_float) (now : Z)
    (db : list row) :
  table_wf db ->
  _make_key text model = Ok k ->
  let db1 := Sql.insert_or_replace (new_row text model k vec now) db in
  let n := Sql.count db1 in
  let keep := (Config.MAX_ENTRIES * 9 / 10)%Z in
  ∃ db', put_embedding_in_cache Config.MAX_ENTRIES text model vec now db
         = (Ok (), db')
    ∧ table_wf db'
    ∧ ((n <= Config.MAX_ENTRIES)%Z -> db' = db1)
    ∧ ((n > Config.MAX_ENTRIES)%Z ->
         db' `sublist_of` db1
         ∧ (Sql.count db1 - Sql.count db' = n - keep)%Z
         ∧ Sql.count db' = keep
         ∧ (∀ d s, d ∈ db1 -> d ∉ db' -> s ∈ db' ->
                   (created_at d <= created_at s)%Z))
    ∧ (Sql.count db' <= Config.MAX_ENTRIES)%Z.
Proof.
  intros Hwf Hk db1 n keep.
  destruct (put_spec Config.MAX_ENTRIES text model k vec now db keep)
    as (db' & Hput & Hwf' & Hsame & Hev & Hcap);
    [done|done|apply config_cutoff|by vm_compute|].
  exists db'. split; [done|]. split; [done|]. split; [done|]. split; [|done].
  intros Hgt. destruct (Hev Hgt) as (Hsub & Hcount & Hold).
  split; [done|]. split; [subst n; lia|]. split; [done|done].
Qed.

Lemma filter_all {A} (P : A -> Prop) `{!∀ x, Decision (P x)} (l : list A) :
  (∀ x, x ∈ l -> P x) -> filter P l = l.
Proof.
  induction l as [|x l IH]; intros Hall; [done|].
  rewrite filter_cons, decide_True by (apply Hall; by left).
  f_equal. apply IH. intros y ?. apply Hall. by right.
Qed.

Lemma full_table_wf : table_wf full_table.
Proof.
  unfold table_wf, full_table. rewrite <- list_fmap_compose.
  apply NoDup_fmap_2; [|apply NoDup_seq].
  intros i j [= Hij]. by apply Nat2N.inj in Hij.
Qed.

Lemma full_table_elem r :
  r ∈ full_table ->
  ∃ i, (i < N.to_nat 200000)%nat ∧ r = Row [N.of_nat i] [] [] [] (Z.of_nat i).
Proof.
  unfold full_table. intros (i & -> & Hi%elem_of_seq)%list_elem_of_fmap.
  exists i. split; [lia|done].
Qed.

(** Writing one more row into the full table goes over the cap. *)
Lemma full_table_over_cap :
  (Sql.count (Sql.insert_or_replace
                (new_row wit_text2 wit_model wit_key2 wit_vec 200000) full_table)
   > Config.MAX_ENTRIES)%Z.
Proof.
  unfold Sql.count, Sql.insert_or_replace. rewrite length_app.
  assert (filter (fun r' => key r'
                  ≠ key (new_row wit_text2 wit_model wit_key2 wit_vec 200000))
            full_table = full_table) as ->.
  { apply filter_all. by intros r (i & _ & ->)%full_table_elem. }
  unfold full_table. rewrite length_fmap, length_seq. cbn [length].
  unfold Config.MAX_ENTRIES. lia.
Qed.

Lemma put_eviction_witness :
  let db1 := Sql.insert_or_replace
               (new_row wit_text2 wit_model wit_key2 wit_vec 200000) full_table in
  let n := Sql.count db1 in
  let keep := (Config.MAX_ENTRIES * 9 / 10)%Z in
  ∃ db', put_embedding_in_cache Config.MAX_ENTRIES wit_text2 wit_model wit_vec
           200000 full_table = (Ok (), db')
    ∧ table_wf db'
    ∧ ((n <= Config.MAX_ENTRIES)%Z -> db' = db1)
    ∧ ((n > Config.MAX_ENTRIES)%Z ->
         db' `sublist_of` db1
         ∧ (Sql.count db1 - Sql.count db' = n - keep)%Z
         ∧ Sql.count db' = keep
         ∧ (∀ d s, d ∈ db1 -> d ∉ db' -> s ∈ db' ->
                   (created_at d <= created_at s)%Z))
    ∧ (Sql.count db' <= Config.MAX_ENTRIES)%Z.
Proof.
  apply (put_eviction wit_text2 wit_model wit_key2 wit_vec 200000 full_table).
  - exact full_table_wf.
  - vm_compute. reflexivity.
Defined.

(** On the full table the eviction does run: 20001 rows go and 180000
    stay. *)
Example put_eviction_on_full_table :
  ∃ db', put_embedding_in_cache Config.MAX_ENTRIES wit_text2 wit_model wit_vec
           200000 full_table = (Ok (), db')
         ∧ Sql.count db' = 180000%Z.
Proof.
  destruct (put_spec Config.MAX_ENTRIES wit_text2 wit_model wit_key2 wit_vec 200000
              full_table 180000) as (db' & Hput & _ & _ & Hev & _).
  - exact full_table_wf.
  - vm_compute. reflexivity.
  - vm_compute. reflexivity.
  - unfold Config.MAX_ENTRIES. lia.
  - exists db'. split; [done|]. by destruct (Hev full_table_over_cap) as (_ & ? & _).
Qed.

(** C10. With the source's [MAX_ENTRIES], when the timestamp written
    for the inserted row is strictly greater than that of every other
    stored row, the eviction pass of the same call keeps the inserted
    row: every row it removes is strictly older, no removed row is more
    recent than a surviving one, and the surviving rows are the rows of
    the table after the insertion, unchanged and in their order. *)
Theorem put_keeps_inserted (text model k : list N) (vec : list spec_float)
    (now : Z) (db : list row) :
  table_wf db ->
  _make_key text model = Ok k ->
  (∀ r, r ∈ db -> key r ≠ k -> (created_at r < now)%Z) ->
  let new := new_row text model k vec now in
  let db1 := Sql.insert_or_replace new db in
  ∃ db', put_embedding_in_cache Config.MAX_ENTRIES text model vec now db
         = (Ok (), db')
    ∧ new ∈ db'
    ∧ db' `sublist_of` db1
    ∧ (∀ d, d ∈ db1 -> d ∉ db' -> (created_at d < now)%Z)
    ∧ (∀ d s, d ∈ db1 -> d ∉ db' -> s ∈ db' ->
              (created_at d <= created_at s)%Z).
Proof.
  intros Hwf Hk Hnew new db1.
  pose (keep := (Config.MAX_ENTRIES * 9 / 10)%Z).
  destruct (put_keeps_new Config.MAX_ENTRIES text model k vec now db keep)
    as (db' & Hput & Hin & Hsub & Hold);
    [done|done|apply config_cutoff|by vm_compute|done|].
  destruct (put_spec Config.MAX_ENTRIES text model k vec now db keep)
    as (db2 & Hput2 & _ & Hsame & Hev & _);
    [done|done|apply config_cutoff|by vm_compute|].
  rewrite Hput in Hput2. injection Hput2 as <-.
  exists db'. split; [done|]. split; [done|]. split; [done|]. split; [done|].
  fold new db1 in Hsame, Hev.
  destruct (Z.le_gt_cases (Sql.count db1) Config.MAX_ENTRIES) as [Hle|Hgt].
  - rewrite (Hsame Hle). by intros d s ? ?.
  - destruct Hev as (_ & _ & Hord); [lia|done].
Qed.

Lemma put_keeps_inserted_witness :
  let new := new_row wit_text2 wit_model wit_key2 wit_vec 200000 in
  let db1 := Sql.insert_or_replace new full_table in
  ∃ db', put_embedding_in_cache Config.MAX_ENTRIES wit_text2 wit_model wit_vec
           200000 full_table = (Ok (), db')
    ∧ new ∈ db'
    ∧ db' `sublist_of` db1
    ∧ (∀ d, d ∈ db1 -> d ∉ db' -> (created_at d < 200000)%Z)
    ∧ (∀ d s, d ∈ db1 -> d ∉ db' -> s ∈ db' ->
              (created_at d <= created_at s)%Z).
Proof.
  apply (put_keeps_inserted wit_text2 wit_model wit_key2 wit_vec 200000 full_table).
  - exact full_table_wf.
  - vm_compute. reflexivity.
  - intros r (i & Hi & ->)%full_table_elem _. cbn [created_at]. lia.
Defined.

(** The eviction branch run on a cap of 3: the fourth row makes the
    count 4, the cutoff is [int(3 * 0.9) = 2], and the two oldest rows
    go. *)
Example put_evicts_at_cap_3 :
  put_embedding_in_cache 3 wit_text2 wit_model wit_vec 5 small_table
  = (Ok (), [Row (of_string "k3") wit_model [] [] 4;
             new_row wit_text2 wit_model wit_key2 wit_vec 5]).
Proof. vm_compute. reflexivity. Qed.

(** With a cap of 1 the cutoff is [int(0.9) = 0]: the pass deletes every
    row, the one just written included. *)
Example put_evicts_all_at_cap_1 :
  put_embedding_in_cache 1 wit_text2 wit_model wit_vec 5 [wit_row] = (Ok (), []).
Proof. vm_compute. reflexivity. Qed.

(** ** Batch resolution *)

Section LoopFacts.

Context {A B : Type}.

Lemma rfold_app (f : B -> A -> result B) (l1 l2 : list A) (acc : B) :
  rfold f (l1 ++ l2) acc = (acc' ← rfold f l1 acc ; rfold f l2 acc').
Proof.
  revert acc. induction l1 as [|x l1 IH]; intros acc; [done|].
  cbn [app rfold]. destruct (f acc x) as [acc'|e]; [apply IH|done].
Qed.

(** A loop over rows inside a loop over lists of rows is a loop over
    all the rows. *)
Lemma rfold_nested {C} (f : B -> A -> result B) (g : C -> list A)
    (cs : list C) (acc : B) :
  rfold (fun acc c => rfold f (g c) acc) cs acc = rfold f (cs ≫= g) acc.
Proof.
  revert acc. induction cs as [|c cs IH]; intros acc; [done|].
  cbn [rfold]. rewrite bind_cons, rfold_app.
  destruct (rfold f (g c) acc) as [acc'|e]; [apply IH|done].
Qed.

Lemma rmap_Ok_length (f : A -> result B) (l : list A) (l' : list B) :
  rmap f l = Ok l' -> length l' = length l.
Proof.
  revert l'. induction l as [|x l IH]; intros l'; cbn [rmap].
  - by intros [= <-].
  - destruct (f x) as [y|e]; [|done]. cbn.
    destruct (rmap f l) as [ys|e]; [|done]. cbn.
    intros [= <-]. cbn. f_equal. by apply IH.
Qed.

Lemma rmap_Ok_lookup (f : A -> result B) (l : list A) (l' : list B) i x :
  rmap f l = Ok l' -> l !! i = Some x -> ∃ y, f x = Ok y ∧ l' !! i = Some y.
Proof.
  revert l' i. induction l as [|x0 l IH]; intros l' i; cbn [rmap]; [done|].
  destruct (f x0) as [y|e] eqn:Hy; [|done]. cbn.
  destruct (rmap f l) as [ys|e]; [|done]. cbn.
  intros [= <-]. destruct i as [|i]; cbn.
  - intros [= <-]. eauto.
  - by apply IH.
Qed.

Lemma rmap_Ok_total (f : A -> result B) (l : list A) :
  (∀ x, x ∈ l -> ∃ y, f x = Ok y) -> ∃ l', rmap f l = Ok l'.
Proof.
  induction l as [|x l IH]; intros Hall; cbn [rmap]; [by eexists|].
  destruct (Hall x) as [y ->]; [by left|]. cbn.
  destruct IH as [l' ->]; [intros ??; apply Hall; by right|]. cbn. by eexists.
Qed.

End LoopFacts.

Section IndexFacts.

Implicit Types (keys : list (list N)) (k : list N) (i : nat).

Lemma index_keys_from keys (start : nat) (m : gmap (list N) (list nat)) k i :
  i ∈ default [] (fold_left
        (fun m ik => <[ik.2 := default [] (m !! ik.2) ++ [ik.1]]> m)
        (zip (seq start (length keys)) keys) m !! k)
  <-> i ∈ default [] (m !! k) ∨ (start <= i ∧ keys !! (i - start) = Some k)%nat.
Proof.
  revert start m. induction keys as [|k0 keys IH]; intros start m.
  - cbn. split; [by left|]. by intros [?|[_ ?]].
  - cbn [length seq zip zip_with fold_left]. rewrite IH. cbn [fst snd].
    destruct (decide (k0 = k)) as [->|Hne].
    + rewrite lookup_insert_eq. simpl. rewrite elem_of_app.
      rewrite list_elem_of_singleton. split.
      * intros [[?| ->]|[Hle Hi]]; [by left| |].
        -- right. split; [lia|]. by rewrite Nat.sub_diag.
        -- right. split; [lia|].
           replace (i - start)%nat with (S (i - S start)) by lia. done.
      * intros [?|[Hle Hi]]; [by left; left|].
        destruct (decide (i = start)) as [->|]; [by left; right|].
        right. split; [lia|].
        replace (i - start)%nat with (S (i - S start)) in Hi by lia. done.
    + rewrite lookup_insert_ne by done. split.
      * intros [?|[Hle Hi]]; [by left|]. right. split; [lia|].
        replace (i - start)%nat with (S (i - S start)) by lia. done.
      * intros [?|[Hle Hi]]; [by left|].
        destruct (decide (i = start)) as [->|].
        { rewrite Nat.sub_diag in Hi. cbn in Hi. congruence. }
        right. split; [lia|].
        replace (i - start)%nat with (S (i - S start)) in Hi by lia. done.
Qed.

(** [key_to_idxs[k]] holds exactly the positions whose key is [k]. *)
Lemma index_keys_elem keys k i :
  i ∈ default [] (index_keys keys !! k) <-> keys !! i = Some k.
Proof.
  unfold index_keys, enumerate. rewrite index_keys_from.
  rewrite lookup_empty, Nat.sub_0_r. cbn. split.
  - by intros [?%elem_of_nil|[_ ?]].
  - intros ?. right. split; [lia|done].
Qed.

Lemma fold_insert_lookup {V} (v : V) (idxs : list nat) (found : gmap nat V) i :
  fold_left (fun found idx => <[idx := v]> found) idxs found !! i
  = if decide (i ∈ idxs) then Some v else found !! i.
Proof.
  revert found. induction idxs as [|j idxs IH]; intros found; [done|].
  cbn [fold_left]. rewrite IH.
  destruct (decide (i ∈ idxs)) as [Hin|Hnin].
  - rewrite decide_True by (by right). done.
  - destruct (decide (i = j)) as [->|Hne].
    + rewrite decide_True by (by left). by rewrite lookup_insert_eq.
    + rewrite decide_False by (by intros [?|?]%elem_of_cons).
      by rewrite lookup_insert_ne.
Qed.

End IndexFacts.

Section ScanFacts.

Variable TTL_SECONDS : Z.
Variable now : Z.
Variable keys : list (list N).

Implicit Types (r : row) (rs : list row) (i : nat) (v : list spec_float)
  (st : gmap nat (list spec_float) * gset (list N)).

#[local] Abbreviation step := (scan_row TTL_SECONDS (index_keys keys) now).
#[local] Abbreviation expired r := (is_expired TTL_SECONDS now (created_at r) = true).
#[local] Abbreviation live r := (is_expired TTL_SECONDS now (created_at r) = false).

(** One iteration of the loop over rows, by cases. *)
Lemma scan_row_inv st r st' :
  step st r = Ok st' ->
  (expired r ∧ st' = (st.1, {[key r]} ∪ st.2))
  ∨ (live r ∧ st'.2 = st.2 ∧
     ∃ v, _deserialize_emb (emb r) = Ok v ∧
          ∀ i, st'.1 !! i
               = if decide (keys !! i = Some (key r)) then Some v else st.1 !! i).
Proof.
  unfold scan_row. destruct (is_expired _ _ _) eqn:E.
  - intros [= <-]. by left.
  - destruct (_deserialize_emb (emb r)) as [v|e] eqn:Hv; [|done].
    cbn. intros [= <-]. right. split; [done|]. split; [done|].
    exists v. split; [done|]. intros i. cbn [fst]. rewrite fold_insert_lookup.
    destruct (decide (i ∈ _)) as [Hin|Hnin].
    + apply index_keys_elem in Hin. by rewrite decide_True.
    + rewrite decide_False; [done|]. by rewrite <- index_keys_elem.
Qed.

Lemma scan_row_raise st r e :
  step st r = Raise e ->
  e = ValueError ∧ live r ∧ (length (emb r) mod 4 ≠ 0)%nat.
Proof.
  unfold scan_row. destruct (is_expired _ _ _) eqn:E; [done|].
  destruct (_deserialize_emb (emb r)) as [v|e'] eqn:Hv; [done|].
  cbn. intros [= <-]. unfold _deserialize_emb in Hv.
  destruct (Nat.eqb_spec (length (emb r) mod 4) 0); [done|].
  injection Hv as <-. done.
Qed.

Lemma scan_row_total st r :
  (live r -> (length (emb r) mod 4 = 0)%nat) -> ∃ st', step st r = Ok st'.
Proof.
  intros Hok. unfold scan_row. destruct (is_expired _ _ _) eqn:E; [by eexists|].
  destruct (deserialize_ok_iff (emb r)) as [_ [v ->]]; [by apply Hok|].
  cbn. by eexists.
Qed.

Lemma scan_rows_raise rs st e :
  rfold step rs st = Raise e ->
  e = ValueError ∧ ∃ r, r ∈ rs ∧ live r ∧ (length (emb r) mod 4 ≠ 0)%nat.
Proof.
  revert st. induction rs as [|r rs IH]; intros st; cbn [rfold]; [done|].
  destruct (step st r) as [st1|e1] eqn:Hstep; cbn.
  - intros (-> & r' & ? & ?)%IH. split; [done|]. exists r'. split; [by right|done].
  - intros [= ->]. apply scan_row_raise in Hstep as (-> & ? & ?).
    split; [done|]. exists r. split; [by left|done].
Qed.

Lemma scan_rows_total rs st :
  (∀ r, r ∈ rs -> live r -> (length (emb r) mod 4 = 0)%nat) ->
  ∃ st', rfold step rs st = Ok st'.
Proof.
  revert st. induction rs as [|r rs IH]; intros st Hok; cbn [rfold]; [by eexists|].
  destruct (scan_row_total st r) as [st1 ->]; [apply Hok; by left|]. cbn.
  apply IH. intros r' ?. apply Hok. by right.
Qed.

Lemma scan_rows_malformed rs st r :
  r ∈ rs -> live r -> (length (emb r) mod 4 ≠ 0)%nat ->
  rfold step rs st = Raise ValueError.
Proof.
  intros Hin Hlive Hbad.
  destruct (rfold step rs st) as [st'|e] eqn:Hrun.
  - exfalso. revert st Hrun. induction rs as [|r0 rs IH]; intros st;
      [by apply elem_of_nil in Hin|].
    cbn [rfold]. destruct (step st r0) as [st1|e1] eqn:Hstep; [|done]. cbn.
    apply elem_of_cons in Hin as [<-|Hin]; [|by apply IH].
    apply scan_row_inv in Hstep as [[Hexp _]|(_ & _ & v & Hv & _)]; [congruence|].
    rewrite deserialize_malformed in Hv; done.
  - by apply scan_rows_raise in Hrun as [-> _].
Qed.

(** Every entry of [found] comes from a row that serves its position. *)
Lemma scan_rows_sound rs st st' i v :
  rfold step rs st = Ok st' -> st'.1 !! i = Some v ->
  st.1 !! i = Some v ∨ ∃ r, r ∈ rs ∧ hit TTL_SECONDS now keys i r v.
Proof.
  revert st. induction rs as [|r rs IH]; intros st; cbn [rfold].
  - intros [= <-]. by left.
  - destruct (step st r) as [st1|e1] eqn:Hstep; [|done]. cbn.
    intros Hrun Hi. destruct (IH _ Hrun Hi) as [H1|(r' & ? & ?)].
    + apply scan_row_inv in Hstep as [[_ ->]|(Hlive & _ & v' & Hv' & Hlook)].
      * by left.
      * rewrite Hlook in H1. destruct (decide _) as [Hk|]; [|by left].
        injection H1 as <-. right. exists r. split; [by left|done].
    + right. exists r'. split; [by right|done].
Qed.

Lemma scan_rows_mono rs st st' i :
  rfold step rs st = Ok st' -> is_Some (st.1 !! i) -> is_Some (st'.1 !! i).
Proof.
  revert st. induction rs as [|r rs IH]; intros st; cbn [rfold].
  - by intros [= <-].
  - destruct (step st r) as [st1|e1] eqn:Hstep; [|done]. cbn.
    intros Hrun Hi. apply (IH _ Hrun).
    apply scan_row_inv in Hstep as [[_ ->]|(_ & _ & v' & _ & Hlook)]; [done|].
    rewrite Hlook. by destruct (decide _).
Qed.

(** Every position whose key has a live row gets an entry. *)
Lemma scan_rows_complete rs st st' i r :
  rfold step rs st = Ok st' -> r ∈ rs -> live r -> keys !! i = Some (key r) ->
  is_Some (st'.1 !! i).
Proof.
  revert st. induction rs as [|r0 rs IH]; intros st; cbn [rfold].
  - by intros _ ?%elem_of_nil.
  - destruct (step st r0) as [st1|e1] eqn:Hstep; [|done]. cbn.
    intros Hrun [<-|Hin]%elem_of_cons Hlive Hk; [|by eapply IH].
    apply (scan_rows_mono _ _ _ _ Hrun).
    apply scan_row_inv in Hstep as [[? _]|(_ & _ & v' & _ & Hlook)]; [congruence|].
    rewrite Hlook, decide_True by done. by eexists.
Qed.

(** [expired_keys] collects the keys of the expired rows met. *)
Lemma scan_rows_expired_keys rs st st' k :
  rfold step rs st = Ok st' ->
  k ∈ st'.2 <-> k ∈ st.2 ∨ ∃ r, r ∈ rs ∧ expired r ∧ key r = k.
Proof.
  revert st. induction rs as [|r rs IH]; intros st; cbn [rfold].
  - intros [= <-]. split; [by left|]. by intros [?|(? & ?%elem_of_nil & _)].
  - destruct (step st r) as [st1|e1] eqn:Hstep; [|done]. cbn.
    intros Hrun. rewrite (IH _ Hrun).
    apply scan_row_inv in Hstep as [[Hexp ->]|(Hlive & -> & _)]; cbn [snd].
    + rewrite elem_of_union, elem_of_singleton. split.
      * intros [[->|?]|(r' & ? & ?)]; [|by left|].
        -- right. exists r. split; [by left|done].
        -- right. exists r'. split; [by right|done].
      * intros [?|(r' & [->|?]%elem_of_cons & ? & <-)];
          [by left; right|by left; left|].
        right. by exists r'.
    + split.
      * intros [?|(r' & ? & ?)]; [by left|]. right. exists r'. split; [by right|done].
      * intros [?|(r' & [->|?]%elem_of_cons & Hexp & <-)]; [by left|congruence|].
        right. by exists r'.
Qed.

(** On rows of a table with unique keys the outcome of the loop depends
    only on which rows are scanned, not on their order or repetition. *)
Lemma scan_rows_ext (db : list row) rs1 rs2 :
  table_wf db -> (∀ r, r ∈ rs1 -> r ∈ db) -> (∀ r, r ∈ rs1 <-> r ∈ rs2) ->
  rfold step rs1 (∅, ∅) = rfold step rs2 (∅, ∅).
Proof.
  intros Hwf Hsub Hsame.
  assert (∀ r, r ∈ rs2 -> r ∈ db) as Hsub2 by (intros r ?%Hsame; auto).
  assert (∀ rsa rsb sta stb i v,
            (∀ r, r ∈ rsa -> r ∈ db) -> (∀ r, r ∈ rsa -> r ∈ rsb) ->
            (∀ r, r ∈ rsb -> r ∈ db) ->
            rfold step rsa (∅, ∅) = Ok sta -> rfold step rsb (∅, ∅) = Ok stb ->
            sta.1 !! i = Some v -> stb.1 !! i = Some v) as Hone.
  { intros rsa rsb sta stb i v Ha Hab Hb Hra Hrb Hi.
    destruct (scan_rows_sound _ _ _ _ _ Hra Hi) as [Hemp|(r & Hr & Hk & Hlive & Hv)];
      [cbn [fst] in Hemp; by rewrite lookup_empty in Hemp|].
    destruct (scan_rows_complete rsb _ _ i r Hrb) as [v' Hi']; [auto|done|done|].
    destruct (scan_rows_sound _ _ _ _ _ Hrb Hi') as [Hemp|(r' & Hr' & Hk' & _ & Hv')];
      [cbn [fst] in Hemp; by rewrite lookup_empty in Hemp|].
    assert (r' = r) as ->.
    { apply (table_wf_key_inj db); [done|auto|auto|congruence]. }
    congruence. }
  destruct (rfold step rs1 (∅, ∅)) as [[f1 e1]|err1] eqn:H1,
           (rfold step rs2 (∅, ∅)) as [[f2 e2]|err2] eqn:H2.
  - f_equal. f_equal.
    + apply map_eq. intros i.
      destruct (f1 !! i) as [v|] eqn:Hf1.
      * symmetry. apply (Hone rs1 rs2 (f1, e1) (f2, e2)); try done.
        by intros r ?%Hsame.
      * destruct (f2 !! i) as [v|] eqn:Hf2; [|done].
        assert (f1 !! i = Some v) as Hcontra; [|congruence].
        apply (Hone rs2 rs1 (f2, e2) (f1, e1)); try done.
        by intros r ?%Hsame.
    + apply set_eq. intros k.
      rewrite (scan_rows_expired_keys _ _ _ k H1),
              (scan_rows_expired_keys _ _ _ k H2).
      cbn [snd]. split; (intros [?|(r & Hr & ?)]; [by left|]; right; exists r;
        split; [by apply Hsame|done]).
  - exfalso. apply scan_rows_raise in H2 as (_ & r & Hr & Hlive & Hbad).
    apply Hsame in Hr.
    by rewrite (scan_rows_malformed rs1 (∅, ∅) r Hr Hlive Hbad) in H1.
  - exfalso. apply scan_rows_raise in H1 as (_ & r & Hr & Hlive & Hbad).
    apply Hsame in Hr.
    by rewrite (scan_rows_malformed rs2 (∅, ∅) r Hr Hlive Hbad) in H2.
  - apply scan_rows_raise in H1 as [-> _].
    by apply scan_rows_raise in H2 as [-> _].
Qed.

End ScanFacts.

Section ChunkFacts.

Implicit Types (keys : list (list N)) (k : list N).

Lemma py_range_elem (stop step i : nat) :
  (1 <= step)%nat -> (i < stop)%nat -> (i / step * step)%nat ∈ py_range stop step.
Proof.
  intros Hstep Hi. unfold py_range.
  apply (list_elem_of_fmap_2 (fun j => j * step)%nat), elem_of_seq.
  split; [lia|]. cbn.
  replace (stop + step - 1)%nat with ((stop - 1) + 1 * step)%nat by lia.
  rewrite Nat.div_add by lia.
  pose proof (Nat.Div0.div_le_mono i (stop - 1) step). lia.
Qed.

Lemma chunks_length MAX_VARS keys c :
  c ∈ chunks MAX_VARS keys -> (length c <= MAX_VARS)%nat.
Proof.
  unfold chunks. intros (i & -> & _)%list_elem_of_fmap.
  rewrite length_take. lia.
Qed.

(** The chunks hold the keys of the batch and nothing else. *)
Lemma chunks_cover MAX_VARS keys k :
  (1 <= MAX_VARS)%nat ->
  (∃ c, c ∈ chunks MAX_VARS keys ∧ k ∈ c) <-> k ∈ keys.
Proof.
  intros Hstep. unfold chunks. split.
  - intros (c & (i & -> & _)%list_elem_of_fmap & Hk).
    eapply elem_of_sublist; [exact Hk|].
    etrans; [apply sublist_take|apply sublist_drop].
  - intros (i & Hi)%list_elem_of_lookup_1.
    pose proof (lookup_lt_Some _ _ _ Hi) as Hlt.
    exists (take MAX_VARS (drop (i / MAX_VARS * MAX_VARS) keys)). split.
    + apply (list_elem_of_fmap_2 (fun i => take MAX_VARS (drop i keys))).
      by apply py_range_elem.
    + apply (list_elem_of_lookup_2 _ (i mod MAX_VARS)).
      rewrite lookup_take, decide_True by (apply Nat.mod_upper_bound; lia).
      rewrite lookup_drop.
      replace (i / MAX_VARS * MAX_VARS + i mod MAX_VARS)%nat with i; [done|].
      pose proof (Nat.div_mod_eq i MAX_VARS). lia.
Qed.

Lemma chunk_rows_elem MAX_VARS keys (db : list row) (r : row) :
  (1 <= MAX_VARS)%nat ->
  r ∈ chunks MAX_VARS keys ≫= (fun c => Sql.select_in c db)
  <-> r ∈ Sql.select_in keys db.
Proof.
  intros Hstep. rewrite list_elem_of_bind. unfold Sql.select_in.
  rewrite list_elem_of_filter. split.
  - intros (c & [Hk Hr]%list_elem_of_filter & Hc). split; [|done].
    apply (chunks_cover MAX_VARS); [done|]. eauto.
  - intros [(c & Hc & Hk)%(chunks_cover MAX_VARS) Hr]; [|done].
    exists c. split; [|done]. by apply list_elem_of_filter.
Qed.

End ChunkFacts.

Section BatchFacts.

Variable TTL_SECONDS : Z.

Implicit Types (db : list row) (keys : list (list N)) (texts : list (list N))
  (L : nat).

Lemma bindable_true {A} L (params : list A) :
  Sql.bindable L params = true <-> (length params <= L)%nat.
Proof. unfold Sql.bindable. apply bool_decide_eq_true. Qed.

Lemma bindable_false {A} L (params : list A) :
  Sql.bindable L params = false <-> (L < length params)%nat.
Proof. unfold Sql.bindable. rewrite bool_decide_eq_false. lia. Qed.

Lemma rfold_ext_in {A B} (f g : B -> A -> result B) (l : list A) (acc : B) :
  (∀ acc x, x ∈ l -> f acc x = g acc x) -> rfold f l acc = rfold g l acc.
Proof.
  revert acc. induction l as [|x l IH]; intros acc Hfg; [done|].
  cbn [rfold]. rewrite Hfg by (by left).
  destruct (g acc x) as [acc'|e]; [|done]. cbn.
  apply IH. intros acc1 y Hy. apply Hfg. by right.
Qed.

(** With a chunk size within SQLite's limit every [SELECT] of the loop
    runs: the loop over the chunks is a loop over the rows they
    select. *)
Lemma scan_chunks_rows L MAX_VARS keys kti now db st :
  (MAX_VARS <= L)%nat ->
  rfold (scan_chunk TTL_SECONDS L kti now db) (chunks MAX_VARS keys) st
  = rfold (scan_row TTL_SECONDS kti now)
          (chunks MAX_VARS keys ≫= (fun c => Sql.select_in c db)) st.
Proof.
  intros HL. rewrite <- rfold_nested. apply rfold_ext_in.
  intros acc c Hc%chunks_length. unfold scan_chunk.
  rewrite (proj2 (bindable_true L c)); [done|lia].
Qed.

Lemma batch_with_unfold L MAX_VARS texts model now db keys :
  (MAX_VARS <= L)%nat ->
  texts ≠ [] ->
  rmap (fun t => _make_key t model) texts = Ok keys ->
  batch_get_embeddings_with TTL_SECONDS L MAX_VARS texts model now db
  = batch_outcome L (length texts) db
      (rfold (scan_row TTL_SECONDS (index_keys keys) now)
             (chunks MAX_VARS keys ≫= (fun c => Sql.select_in c db)) (∅, ∅)).
Proof.
  intros HL Hne Hkeys. unfold batch_get_embeddings_with.
  destruct texts as [|t texts]; [done|]. rewrite Hkeys.
  rewrite scan_chunks_rows by done. unfold batch_outcome.
  by destruct (rfold _ _ _) as [[found expired_keys]|e].
Qed.

Lemma batch_unchunked_unfold L texts model now db keys :
  texts ≠ [] ->
  rmap (fun t => _make_key t model) texts = Ok keys ->
  batch_get_embeddings_unchunked_with TTL_SECONDS L texts model now db
  = batch_outcome L (length texts) db
      (rfold (scan_row TTL_SECONDS (index_keys keys) now)
             (Sql.select_in keys db) (∅, ∅)).
Proof.
  intros Hne Hkeys. unfold batch_get_embeddings_unchunked_with.
  destruct texts as [|t texts]; [done|]. rewrite Hkeys.
  unfold batch_outcome.
  by destruct (rfold _ _ _) as [[found expired_keys]|e].
Qed.

Lemma batch_raise_keys L MAX_VARS texts model now db e :
  rmap (fun t => _make_key t model) texts = Raise e ->
  batch_get_embeddings_with TTL_SECONDS L MAX_VARS texts model now db = (Raise e, db)
  ∧ batch_get_embeddings_unchunked_with TTL_SECONDS L texts model now db
    = (Raise e, db).
Proof.
  intros Hkeys.
  unfold batch_get_embeddings_with, batch_get_embeddings_unchunked_with.
  destruct texts as [|t texts]; [done|]. by rewrite Hkeys.
Qed.

(** Chunking does not change the result, for any chunk size of at
    least 1 that SQLite's limit allows. *)
Lemma batch_chunking_any L MAX_VARS texts model now db :
  (1 <= MAX_VARS)%nat -> (MAX_VARS <= L)%nat -> table_wf db ->
  batch_get_embeddings_with TTL_SECONDS L MAX_VARS texts model now db
  = batch_get_embeddings_unchunked_with TTL_SECONDS L texts model now db.
Proof.
  intros Hstep HL Hwf.
  destruct (decide (texts = [])) as [->|Hne]; [done|].
  destruct (rmap (fun t => _make_key t model) texts) as [keys|e] eqn:Hkeys.
  - rewrite (batch_with_unfold _ _ _ _ _ _ keys),
            (batch_unchunked_unfold _ _ _ _ _ keys) by done.
    f_equal. apply (scan_rows_ext _ _ _ db); [done| |].
    + intros r Hr%chunk_rows_elem; [|done].
      by apply list_elem_of_filter in Hr as [_ ?].
    + intros r. by apply chunk_rows_elem.
  - destruct (batch_raise_keys L MAX_VARS texts model now db e Hkeys) as [-> ->].
    done.
Qed.

End BatchFacts.

(** C9. The result of [batch_get_embeddings], which queries the table
    in chunks of at most 900 keys, is the result of the same procedure
    with one query over all keys: the same [found], the same [missing],
    the same exception if any, and the same table afterwards. *)
Theorem batch_chunking_equivalence (TTL_SECONDS : Z) (texts : list (list N))
    (model : list N) (now : Z) (db : list row) :
  table_wf db ->
  batch_get_embeddings TTL_SECONDS texts model now db
  = batch_get_embeddings_unchunked TTL_SECONDS texts model now db
  ∧ ∀ keys c, c ∈ chunks Config.MAX_VARS keys -> (length c <= 900)%nat.
Proof.
  intros Hwf. split.
  - apply batch_chunking_any; [| |done];
      unfold Config.MAX_VARS, Config.MAX_VARIABLE_NUMBER; lia.
  - intros keys c. apply chunks_length.
Qed.

Lemma batch_chunking_equivalence_witness :
  batch_get_embeddings Config.TTL_SECONDS wit_batch wit_model 2592001 wit_table
  = batch_get_embeddings_unchunked Config.TTL_SECONDS wit_batch wit_model
      2592001 wit_table
  ∧ ∀ keys c, c ∈ chunks Config.MAX_VARS keys -> (length c <= 900)%nat.
Proof.
  apply (batch_chunking_equivalence Config.TTL_SECONDS wit_batch wit_model
           2592001 wit_table).
  unfold table_wf. apply (bool_decide_unpack _). vm_compute. exact I.
Defined.

Section BatchResult.

Variable TTL_SECONDS : Z.

Implicit Types (db : list row) (keys : list (list N)) (texts : list (list N))
  (found : gmap nat (list spec_float)) (missing : list nat) (L MAX_VARS : nat)
  (now : Z) (model : list N).

Lemma filter_seq_sorted (P : nat -> Prop) `{!∀ i, Decision (P i)} (start n : nat) :
  StronglySorted lt (filter P (seq start n)).
Proof.
  revert start. induction n as [|n IH]; intros start; [constructor|].
  cbn [seq]. rewrite filter_cons. destruct (decide (P start)); [|apply IH].
  constructor; [apply IH|]. apply Forall_forall.
  intros i [_ Hi%elem_of_seq]%list_elem_of_filter. lia.
Qed.

Lemma rmap_Ok_elem {A B} (f : A -> result B) (l : list A) (l' : list B) y :
  rmap f l = Ok l' -> y ∈ l' <-> ∃ x, x ∈ l ∧ f x = Ok y.
Proof.
  revert l'. induction l as [|x l IH]; intros l'; cbn [rmap].
  - intros [= <-]. split; [by intros ?%elem_of_nil|].
    by intros (? & ?%elem_of_nil & _).
  - destruct (f x) as [y0|e] eqn:Hy; [|done]. cbn.
    destruct (rmap f l) as [ys|e] eqn:Hys; [|done]. cbn.
    intros [= <-]. rewrite elem_of_cons, (IH ys) by done. split.
    + intros [->|(x' & ? & ?)]; [exists x; split; [by left|done]|].
      exists x'. split; [by right|done].
    + intros (x' & [->|?]%elem_of_cons & Hx'); [left; congruence|].
      right. by exists x'.
Qed.

(** The three ways the last step of the batch ends: nothing expired,
    a [DELETE] within SQLite's limit, a [DELETE] above it. *)
Lemma batch_outcome_cases L (n : nat) db found (E : gset (list N)) :
  let missing := filter (fun i => found !! i = None) (seq 0 n) in
  (E = ∅ ∧ batch_outcome L n db (Ok (found, E)) = (Ok (found, missing), db))
  ∨ (E ≠ ∅ ∧ (size E <= L)%nat
     ∧ batch_outcome L n db (Ok (found, E))
       = (Ok (found, missing), Sql.delete_in (elements E) db))
  ∨ (E ≠ ∅ ∧ (L < size E)%nat
     ∧ batch_outcome L n db (Ok (found, E)) = (Raise OperationalError, db)).
Proof.
  intros missing. unfold batch_outcome.
  destruct (decide (E = ∅)) as [HE|HE]; [by left|right].
  destruct (Sql.bindable L (elements E)) eqn:Hb.
  - left. apply bindable_true in Hb. done.
  - right. apply bindable_false in Hb. done.
Qed.

(** What an [Ok] result of the batch is made of. *)
Lemma batch_with_Ok_inv L MAX_VARS texts model now db keys found missing db' :
  (MAX_VARS <= L)%nat ->
  texts ≠ [] ->
  rmap (fun t => _make_key t model) texts = Ok keys ->
  batch_get_embeddings_with TTL_SECONDS L MAX_VARS texts model now db
  = (Ok (found, missing), db') ->
  ∃ expired_keys : gset (list N),
    rfold (scan_row TTL_SECONDS (index_keys keys) now)
          (chunks MAX_VARS keys ≫= (fun c => Sql.select_in c db)) (∅, ∅)
    = Ok (found, expired_keys)
    ∧ missing = filter (fun i => found !! i = None) (seq 0 (length texts))
    ∧ db' = (if decide (expired_keys = ∅) then db
             else Sql.delete_in (elements expired_keys) db)
    ∧ (size expired_keys <= L)%nat.
Proof.
  intros HL Hne Hkeys. rewrite (batch_with_unfold _ _ _ _ _ _ _ keys) by done.
  destruct (rfold _ _ _) as [[f E]|err]; [|done].
  destruct (batch_outcome_cases L (length texts) db f E)
    as [[HE ->]|[(HE & Hsize & ->)|(HE & Hsize & ->)]]; [| |done].
  - intros [= <- <- <-]. exists E. rewrite decide_True by done.
    split; [done|]. split; [done|]. split; [done|].
    rewrite HE, size_empty. lia.
  - intros [= <- <- <-]. exists E. by rewrite decide_False.
Qed.

(** The keys in [expired_keys] are keys of expired records under a key
    of the batch; on a table with unique keys there are as many of the
    ones as of the others. *)
Lemma size_list_to_set_le (l : list (list N)) :
  (size (list_to_set l : gset (list N)) <= length l)%nat.
Proof.
  induction l as [|k l IH]; [by rewrite list_to_set_nil, size_empty|].
  rewrite list_to_set_cons, size_union_alt, size_singleton.
  assert (size (list_to_set l ∖ {[k]} : gset (list N))
          <= size (list_to_set l : gset (list N)))%nat
    by (apply subseteq_size, subseteq_difference_l; done).
  cbn [length]. lia.
Qed.

Lemma scan_expired_keys MAX_VARS texts model now db keys found (E : gset (list N)) :
  (1 <= MAX_VARS)%nat ->
  rmap (fun t => _make_key t model) texts = Ok keys ->
  rfold (scan_row TTL_SECONDS (index_keys keys) now)
        (chunks MAX_VARS keys ≫= (fun c => Sql.select_in c db)) (∅, ∅)
  = Ok (found, E) ->
  E = list_to_set (key <$> expired_in_batch TTL_SECONDS texts model now db).
Proof.
  intros HM Hkeys Hscan. apply set_eq. intros k.
  rewrite (scan_rows_expired_keys _ _ _ _ _ _ k Hscan). cbn [snd].
  rewrite elem_of_list_to_set, list_elem_of_fmap. unfold expired_in_batch.
  split.
  - intros [?%not_elem_of_empty|(r & Hr & Hexp & <-)]; [done|].
    apply chunk_rows_elem in Hr; [|done].
    apply list_elem_of_filter in Hr as [Hk Hr].
    exists r. split; [done|]. apply list_elem_of_filter. split; [|done].
    split; [done|]. by apply (rmap_Ok_elem _ _ _ _ Hkeys).
  - intros (r & -> & [[Hexp Hk] Hr]%list_elem_of_filter). right.
    exists r. split; [|done]. apply chunk_rows_elem; [done|].
    apply list_elem_of_filter. split; [|done].
    by apply (rmap_Ok_elem _ _ _ _ Hkeys).
Qed.

Lemma expired_keys_size_le MAX_VARS texts model now db keys found (E : gset (list N)) :
  (1 <= MAX_VARS)%nat ->
  rmap (fun t => _make_key t model) texts = Ok keys ->
  rfold (scan_row TTL_SECONDS (index_keys keys) now)
        (chunks MAX_VARS keys ≫= (fun c => Sql.select_in c db)) (∅, ∅)
  = Ok (found, E) ->
  (size E <= length (expired_in_batch TTL_SECONDS texts model now db))%nat.
Proof.
  intros HM Hkeys Hscan.
  rewrite (scan_expired_keys _ _ _ _ _ _ _ _ HM Hkeys Hscan).
  etrans; [apply size_list_to_set_le|]. by rewrite length_fmap.
Qed.

Lemma expired_keys_size MAX_VARS texts model now db keys found (E : gset (list N)) :
  (1 <= MAX_VARS)%nat -> table_wf db ->
  rmap (fun t => _make_key t model) texts = Ok keys ->
  rfold (scan_row TTL_SECONDS (index_keys keys) now)
        (chunks MAX_VARS keys ≫= (fun c => Sql.select_in c db)) (∅, ∅)
  = Ok (found, E) ->
  size E = length (expired_in_batch TTL_SECONDS texts model now db).
Proof.
  intros HM Hwf Hkeys Hscan.
  rewrite (scan_expired_keys _ _ _ _ _ _ _ _ HM Hkeys Hscan).
  rewrite size_list_to_set, length_fmap; [done|].
  by apply (table_wf_filter _ db).
Qed.

Lemma batch_with_total L MAX_VARS texts model now db :
  (1 <= MAX_VARS)%nat -> (MAX_VARS <= L)%nat ->
  blobs_ok db ->
  (∀ t, t ∈ texts -> ∃ k, _make_key t model = Ok k) ->
  (length (expired_in_batch TTL_SECONDS texts model now db) <= L)%nat ->
  ∃ found missing db',
    batch_get_embeddings_with TTL_SECONDS L MAX_VARS texts model now db
    = (Ok (found, missing), db').
Proof.
  intros HM HL Hblobs Hkeys Hfew.
  destruct (decide (texts = [])) as [->|Hne]; [by do 3 eexists|].
  destruct (rmap_Ok_total (fun t => _make_key t model) texts Hkeys) as [keys Hk].
  rewrite (batch_with_unfold _ _ _ _ _ _ _ keys) by done.
  destruct (scan_rows_total TTL_SECONDS now keys
              (chunks MAX_VARS keys ≫= (fun c => Sql.select_in c db)) (∅, ∅))
    as [[f E] Hscan].
  { intros r (c & [_ Hr]%list_elem_of_filter & _)%list_elem_of_bind _.
    unfold blobs_ok in Hblobs. rewrite Forall_forall in Hblobs. by apply Hblobs. }
  rewrite Hscan.
  pose proof (expired_keys_size_le _ _ _ _ _ _ _ _ HM Hk Hscan) as Hsize.
  destruct (batch_outcome_cases L (length texts) db f E)
    as [[HE ->]|[(HE & _ & ->)|(HE & Hbig & _)]]; [by do 3 eexists..|lia].
Qed.

(** The positions of the batch are split between [found] and
    [missing]. *)
Lemma batch_with_partition L MAX_VARS texts model now db found missing db' :
  (MAX_VARS <= L)%nat ->
  batch_get_embeddings_with TTL_SECONDS L MAX_VARS texts model now db
  = (Ok (found, missing), db') ->
  (∀ i, (i < length texts)%nat <-> is_Some (found !! i) ∨ i ∈ missing)
  ∧ (∀ i, i ∈ missing -> found !! i = None)
  ∧ StronglySorted lt missing.
Proof.
  intros HL Hrun.
  destruct (decide (texts = [])) as [->|Hne].
  { injection Hrun as <- <- <-. split; [|split].
    - intros i. cbn. rewrite lookup_empty. split; [lia|].
      intros [[? [=]]|?%elem_of_nil]; done.
    - by intros i ?%elem_of_nil.
    - constructor. }
  destruct (rmap (fun t => _make_key t model) texts) as [keys|e] eqn:Hkeys.
  2:{ destruct (batch_raise_keys TTL_SECONDS L MAX_VARS texts model now db e Hkeys)
        as [Hr _]. congruence. }
  destruct (batch_with_Ok_inv _ _ _ _ _ _ keys _ _ _ HL Hne Hkeys Hrun)
    as (expired_keys & Hscan & -> & _).
  split; [|split].
  - intros i. rewrite list_elem_of_filter, elem_of_seq. split.
    + intros Hi. destruct (found !! i) eqn:E; [left; by eexists|].
      right. split; [done|lia].
    + intros [[v Hv]|[_ ?]]; [|lia].
      destruct (scan_rows_sound _ _ _ _ _ _ _ _ Hscan Hv) as [Hemp|(r & _ & Hk & _)].
      * cbn [fst] in Hemp. by rewrite lookup_empty in Hemp.
      * apply lookup_lt_Some in Hk.
        by rewrite (rmap_Ok_length _ _ _ Hkeys) in Hk.
  - by intros i [? _]%list_elem_of_filter.
  - apply filter_seq_sorted.
Qed.

(** Two positions that carry the same text are both in [found] or both
    in [missing]. *)
Lemma batch_with_same_text L MAX_VARS texts model now db found missing db' i j t :
  (MAX_VARS <= L)%nat ->
  batch_get_embeddings_with TTL_SECONDS L MAX_VARS texts model now db
  = (Ok (found, missing), db') ->
  texts !! i = Some t -> texts !! j = Some t ->
  is_Some (found !! i) -> is_Some (found !! j).
Proof.
  intros HL Hrun Hi Hj [v Hv].
  assert (texts ≠ []) as Hne by (by intros ->).
  destruct (rmap (fun t => _make_key t model) texts) as [keys|e] eqn:Hkeys.
  2:{ destruct (batch_raise_keys TTL_SECONDS L MAX_VARS texts model now db e Hkeys)
        as [Hr _]. congruence. }
  destruct (batch_with_Ok_inv _ _ _ _ _ _ keys _ _ _ HL Hne Hkeys Hrun)
    as (expired_keys & Hscan & _ & _).
  destruct (rmap_Ok_lookup _ _ _ _ _ Hkeys Hi) as (ki & Hki & Hlki).
  destruct (rmap_Ok_lookup _ _ _ _ _ Hkeys Hj) as (kj & Hkj & Hlkj).
  assert (kj = ki) as -> by congruence.
  destruct (scan_rows_sound _ _ _ _ _ _ _ _ Hscan Hv) as [Hemp|(r & Hr & Hk & Hlive & _)].
  { cbn [fst] in Hemp. by rewrite lookup_empty in Hemp. }
  apply (scan_rows_complete _ _ _ _ _ _ j r Hscan Hr Hlive). congruence.
Qed.

End BatchResult.

(** C4. For every SQLite whose limit on bound variables is at least the
    chunk size [MAX_VARS] ([batch_get_embeddings] is the case of the
    limit 999): the batch on the empty list is [({}, [])] and the table
    is untouched.  Whenever the batch returns [(found, missing)], a
    position is below [len(texts)] exactly when it is a key of [found]
    or an element of [missing], never both; two positions with the same
    text fall on the same side, each with its own entry; and [missing]
    is strictly ascending.  The batch does return when every stored
    blob holds whole float32 elements, every text yields a key and the
    expired records under keys of the batch, which its one [DELETE]
    binds, are no more than the limit allows. *)
Theorem batch_partition (TTL_SECONDS : Z) (MAX_VARIABLE_NUMBER : nat)
    (texts : list (list N)) (model : list N) (now : Z) (db : list row) :
  (Config.MAX_VARS <= MAX_VARIABLE_NUMBER)%nat ->
  batch_get_embeddings_with TTL_SECONDS MAX_VARIABLE_NUMBER Config.MAX_VARS
    [] model now db = (Ok (∅, []), db)
  ∧ (blobs_ok db ->
     (∀ t, t ∈ texts -> ∃ k, _make_key t model = Ok k) ->
     (length (expired_in_batch TTL_SECONDS texts model now db)
      <= MAX_VARIABLE_NUMBER)%nat ->
     ∃ found missing db',
       batch_get_embeddings_with TTL_SECONDS MAX_VARIABLE_NUMBER Config.MAX_VARS
         texts model now db
       = (Ok (found, missing), db'))
  ∧ (∀ found missing db',
       batch_get_embeddings_with TTL_SECONDS MAX_VARIABLE_NUMBER Config.MAX_VARS
         texts model now db
       = (Ok (found, missing), db') ->
       (∀ i, (i < length texts)%nat <-> is_Some (found !! i) ∨ i ∈ missing)
       ∧ (∀ i, i ∈ missing -> found !! i = None)
       ∧ (∀ i j t, texts !! i = Some t -> texts !! j = Some t ->
                   (is_Some (found !! i) <-> is_Some (found !! j))
                   ∧ (i ∈ missing <-> j ∈ missing))
       ∧ StronglySorted lt missing).
Proof.
  intros HL. split; [done|]. split.
  { apply batch_with_total; [unfold Config.MAX_VARS; lia|done]. }
  intros found missing db' Hrun.
  destruct (batch_with_partition _ _ _ _ _ _ _ _ _ _ HL Hrun)
    as (Hpart & Hmiss & Hsorted).
  split; [done|]. split; [done|]. split; [|done].
  intros i j t Hi Hj.
  assert (is_Some (found !! i) <-> is_Some (found !! j)) as Hsame.
  { split; eapply batch_with_same_text; eauto. }
  split; [done|].
  pose proof (lookup_lt_Some _ _ _ Hi) as Hlti.
  pose proof (lookup_lt_Some _ _ _ Hj) as Hltj.
  apply Hpart in Hlti, Hltj. split.
  - intros Hin. destruct Hltj as [Hf|]; [|done].
    apply Hsame in Hf. apply Hmiss in Hin. rewrite Hin in Hf. by destruct Hf.
  - intros Hin. destruct Hlti as [Hf|]; [|done].
    apply Hsame in Hf. apply Hmiss in Hin. rewrite Hin in Hf. by destruct Hf.
Qed.

Lemma batch_partition_witness :
  batch_get_embeddings Config.TTL_SECONDS [] wit_model 2592001 wit_table
  = (Ok (∅, []), wit_table)
  ∧ (blobs_ok wit_table ->
     (∀ t, t ∈ wit_batch -> ∃ k, _make_key t wit_model = Ok k) ->
     (length (expired_in_batch Config.TTL_SECONDS wit_batch wit_model 2592001
                wit_table) <= Config.MAX_VARIABLE_NUMBER)%nat ->
     ∃ found missing db',
       batch_get_embeddings Config.TTL_SECONDS wit_batch wit_model 2592001 wit_table
       = (Ok (found, missing), db'))
  ∧ (∀ found missing db',
       batch_get_embeddings Config.TTL_SECONDS wit_batch wit_model 2592001 wit_table
       = (Ok (found, missing), db') ->
       (∀ i, (i < length wit_batch)%nat <-> is_Some (found !! i) ∨ i ∈ missing)
       ∧ (∀ i, i ∈ missing -> found !! i = None)
       ∧ (∀ i j t, wit_batch !! i = Some t -> wit_batch !! j = Some t ->
                   (is_Some (found !! i) <-> is_Some (found !! j))
                   ∧ (i ∈ missing <-> j ∈ missing))
       ∧ StronglySorted lt missing).
Proof.
  apply (batch_partition Config.TTL_SECONDS Config.MAX_VARIABLE_NUMBER wit_batch
           wit_model 2592001 wit_table).
  unfold Config.MAX_VARS, Config.MAX_VARIABLE_NUMBER. lia.
Defined.

(** The batch of the specification: "A", "B", "A", "C" with only "B"
    cached. *)
Example batch_example :
  batch_get_embeddings Config.TTL_SECONDS
    [of_string "A"; of_string "B"; of_string "A"; of_string "C"] wit_model 2000
    [Row key_B wit_model (of_string "B") (_serialize_emb wit_vec) 1000]
  = (Ok ({[1%nat := wit_vec32]}, [0; 2; 3]%nat),
     [Row key_B wit_model (of_string "B") (_serialize_emb wit_vec) 1000]).
Proof. vm_compute. reflexivity. Qed.

Section BatchExpiry.

Variable TTL_SECONDS : Z.

Implicit Types (db : list row) (keys : list (list N)) (texts : list (list N))
  (found : gmap nat (list spec_float)) (missing : list nat) (L MAX_VARS : nat)
  (now : Z) (model : list N).

(** Deleting by a duplicate-free list of stored keys removes one row
    for each key. *)
Lemma delete_in_length db (ks : list (list N)) :
  table_wf db -> NoDup ks -> (∀ k, k ∈ ks -> ∃ r, r ∈ db ∧ key r = k) ->
  Sql.count (Sql.delete_in ks db) = (Sql.count db - Z.of_nat (length ks))%Z.
Proof.
  intros Hwf Hnd Hstored. unfold Sql.count, Sql.delete_in.
  pose proof (filter_split_length (fun r => key r ∈ ks) db) as Hlen.
  assert (key <$> filter (fun r => key r ∈ ks) db ≡ₚ ks) as Hperm.
  { apply NoDup_Permutation; [by apply (table_wf_filter (fun r => key r ∈ ks))|done|].
    intros k. rewrite list_elem_of_fmap. split.
    - by intros (r & -> & [? _]%list_elem_of_filter).
    - intros Hk. destruct (Hstored k Hk) as (r & Hr & <-).
      exists r. split; [done|]. by apply list_elem_of_filter. }
  apply Permutation_length in Hperm. rewrite length_fmap in Hperm.
  lia.
Qed.

Lemma batch_with_expiry L MAX_VARS texts model now db found missing db' :
  (1 <= MAX_VARS)%nat -> (MAX_VARS <= L)%nat -> table_wf db ->
  batch_get_embeddings_with TTL_SECONDS L MAX_VARS texts model now db
  = (Ok (found, missing), db') ->
  (∀ r i t, r ∈ db -> is_expired TTL_SECONDS now (created_at r) = true ->
            texts !! i = Some t -> _make_key t model = Ok (key r) ->
            found !! i = None ∧ i ∈ missing)
  ∧ ∃ expired_keys : gset (list N),
      (∀ k, k ∈ expired_keys <->
            batch_key texts model k
            ∧ ∃ r, r ∈ db ∧ key r = k
                   ∧ is_expired TTL_SECONDS now (created_at r) = true)
      ∧ NoDup (elements expired_keys)
      ∧ db' = (if decide (expired_keys = ∅) then db
               else Sql.delete_in (elements expired_keys) db)
      ∧ (∀ r, r ∈ db' <->
              r ∈ db ∧ ¬ (batch_key texts model (key r)
                          ∧ is_expired TTL_SECONDS now (created_at r) = true))
      ∧ Sql.count db' = (Sql.count db - Z.of_nat (size expired_keys))%Z.
Proof.
  intros Hstep HL Hwf Hrun.
  destruct (decide (texts = [])) as [->|Hne].
  { injection Hrun as <- <- <-. split; [by intros r i t _ _ ?|].
    exists ∅. split; [|split; [|split; [|split]]].
    - intros k. split; [by intros ?%not_elem_of_empty|].
      by intros [(t & ?%elem_of_nil & _) _].
    - apply NoDup_elements.
    - done.
    - intros r. split; [|tauto]. intros Hr. split; [done|].
      by intros [(t & ?%elem_of_nil & _) _].
    - rewrite size_empty. lia. }
  destruct (rmap (fun t => _make_key t model) texts) as [keys|e] eqn:Hkeys.
  2:{ destruct (batch_raise_keys TTL_SECONDS L MAX_VARS texts model now db e Hkeys)
        as [Hr _]. congruence. }
  destruct (batch_with_Ok_inv _ _ _ _ _ _ _ keys _ _ _ HL Hne Hkeys Hrun)
    as (E & Hscan & -> & -> & _).
  assert (∀ k, k ∈ keys <-> batch_key texts model k) as Hbk
    by (intros k; by apply rmap_Ok_elem).
  assert (∀ r, r ∈ chunks MAX_VARS keys ≫= (fun c => Sql.select_in c db)
               <-> r ∈ db ∧ key r ∈ keys) as Hrows.
  { intros r. rewrite chunk_rows_elem by done. unfold Sql.select_in.
    rewrite list_elem_of_filter. tauto. }
  assert (∀ k, k ∈ E <->
            batch_key texts model k
            ∧ ∃ r, r ∈ db ∧ key r = k
                   ∧ is_expired TTL_SECONDS now (created_at r) = true) as HE.
  { intros k. rewrite (scan_rows_expired_keys _ _ _ _ _ _ k Hscan). cbn [snd].
    split.
    - intros [?%not_elem_of_empty|(r & [Hr Hk]%Hrows & Hexp & <-)]; [done|].
      split; [by apply Hbk|]. by exists r.
    - intros [Hk (r & Hr & <- & Hexp)]. right. exists r.
      split; [|done]. apply Hrows. split; [done|]. by apply Hbk. }
  assert (∀ r, r ∈ db -> key r ∈ E <->
            batch_key texts model (key r)
            ∧ is_expired TTL_SECONDS now (created_at r) = true) as HEr.
  { intros r Hr. rewrite HE. split.
    - intros [Hk (r' & Hr' & Hkey & Hexp)]. split; [done|].
      by rewrite <- (table_wf_key_inj db r' r Hwf Hr' Hr Hkey).
    - intros [Hk Hexp]. split; [done|]. by exists r. }
  split.
  - intros r i t Hr Hexp Hi Ht.
    destruct (rmap_Ok_lookup _ _ _ _ _ Hkeys Hi) as (k & Hk & Hki).
    assert (k = key r) as -> by congruence.
    assert (found !! i = None) as Hnone.
    { destruct (found !! i) as [v|] eqn:Hv; [|done]. exfalso.
      destruct (scan_rows_sound _ _ _ _ _ _ _ _ Hscan Hv)
        as [Hemp|(r' & [Hr' _]%Hrows & Hk' & Hlive & _)].
      - cbn [fst] in Hemp. by rewrite lookup_empty in Hemp.
      - assert (r' = r) as ->
          by (apply (table_wf_key_inj db); [done|done|done|congruence]).
        congruence. }
    split; [done|]. apply list_elem_of_filter. split; [done|].
    apply elem_of_seq. apply lookup_lt_Some in Hi. lia.
  - exists E. split; [done|]. split; [apply NoDup_elements|]. split; [done|].
    destruct (decide (E = ∅)) as [->|HneE].
    + split.
      * intros r. split; [|tauto]. intros Hr. split; [done|].
        intros Hbad. by apply (HEr r Hr) in Hbad.
      * rewrite size_empty. lia.
    + split.
      * intros r. unfold Sql.delete_in. rewrite list_elem_of_filter.
        rewrite elem_of_elements. split.
        -- intros [Hk Hr]. split; [done|]. by rewrite <- (HEr r Hr).
        -- intros [Hr Hk]. split; [|done]. by rewrite (HEr r Hr).
      * rewrite delete_in_length; [done|done|apply NoDup_elements|].
        intros k [_ (r & ? & ? & _)]%elem_of_elements%HE. by exists r.
Qed.

(** Above SQLite's limit the [DELETE] of the expired keys is refused:
    the batch raises and the table is as it was. *)
Lemma batch_with_over_limit L MAX_VARS texts model now db :
  (1 <= MAX_VARS)%nat -> (MAX_VARS <= L)%nat -> table_wf db ->
  (∀ t, t ∈ texts -> ∃ k, _make_key t model = Ok k) ->
  (∀ r, r ∈ db -> batch_key texts model (key r) ->
        is_expired TTL_SECONDS now (created_at r) = false ->
        (length (emb r) mod 4 = 0)%nat) ->
  (L < length (expired_in_batch TTL_SECONDS texts model now db))%nat ->
  batch_get_embeddings_with TTL_SECONDS L MAX_VARS texts model now db
  = (Raise OperationalError, db).
Proof.
  intros HM HL Hwf Hkeys Hblobs Hmany.
  destruct (decide (texts = [])) as [->|Hne].
  { exfalso.
    destruct (expired_in_batch TTL_SECONDS [] model now db) as [|r rs] eqn:Hx;
      [cbn in Hmany; lia|].
    assert (r ∈ expired_in_batch TTL_SECONDS [] model now db) as Hr
      by (rewrite Hx; by left).
    apply list_elem_of_filter in Hr as [[_ (t & ?%elem_of_nil & _)] _]. done. }
  destruct (rmap_Ok_total (fun t => _make_key t model) texts Hkeys) as [keys Hk].
  rewrite (batch_with_unfold _ _ _ _ _ _ _ keys) by done.
  destruct (scan_rows_total TTL_SECONDS now keys
              (chunks MAX_VARS keys ≫= (fun c => Sql.select_in c db)) (∅, ∅))
    as [[f E] Hscan].
  { intros r Hr%chunk_rows_elem Hlive; [|done].
    apply list_elem_of_filter in Hr as [Hkr Hr].
    apply Hblobs; [done| |done]. by apply (rmap_Ok_elem _ _ _ _ Hk). }
  rewrite Hscan.
  pose proof (expired_keys_size _ _ _ _ _ _ _ _ _ HM Hwf Hk Hscan) as Hsize.
  destruct (batch_outcome_cases L (length texts) db f E)
    as [[HE _]|[(_ & Hle & _)|(_ & _ & ->)]]; [| |done].
  - rewrite HE, size_empty in Hsize. lia.
  - lia.
Qed.

End BatchExpiry.

(** The batch "A", "B", "A", "C", "D", "D" at a time when the record of
    "D" is expired and the record of "B" is not: both positions of "D"
    are misses and the record of "D" is deleted. *)
Example batch_expiry_example :
  batch_get_embeddings Config.TTL_SECONDS (wit_batch ++ [of_string "D"]) wit_model
    2592001 wit_table
  = (Ok ({[1%nat := wit_vec32]}, [0; 2; 3; 4; 5]%nat),
     [Row key_B wit_model (of_string "B") (_serialize_emb wit_vec) 1000]).
Proof. vm_compute. reflexivity. Qed.

(** The same batch in chunks of 2 keys. *)
Example batch_small_chunks_example :
  batch_get_embeddings_with Config.TTL_SECONDS Config.MAX_VARIABLE_NUMBER 2
    (wit_batch ++ [of_string "D"]) wit_model 2592001 wit_table
  = (Ok ({[1%nat := wit_vec32]}, [0; 2; 3; 4; 5]%nat),
     [Row key_B wit_model (of_string "B") (_serialize_emb wit_vec) 1000]).
Proof. vm_compute. reflexivity. Qed.

(** The same batch on an SQLite that allows one bound variable: a
    [SELECT] over a chunk of 2 keys is refused, and so is, with chunks
    of one key, a [DELETE] of 2 expired keys. *)
Example batch_small_limit_example :
  batch_get_embeddings_with Config.TTL_SECONDS 1 2
    (wit_batch ++ [of_string "D"]) wit_model 2592001 wit_table
  = (Raise OperationalError, wit_table)
  ∧ batch_get_embeddings_with Config.TTL_SECONDS 1 1
      (wit_batch ++ [of_string "D"]) wit_model 2592002000 wit_table
    = (Raise OperationalError, wit_table).
Proof. split; vm_compute; reflexivity. Qed.

(** ** Key derivation *)

Ltac lia_div := zify; Z.to_euclidean_division_equations; lia.

Section NormalizeFacts.

Implicit Types (c : N) (w s t : list N) (ws : list (list N)).

Lemma make_key_unfold text model :
  _make_key text model
  = (data ← PyStr.encode_utf8 (prehash text model) ; Ok (SHA256.hexdigest data)).
Proof. reflexivity. Qed.

(** Two lists that agree up to their first separator agree before and
    after it. *)
Lemma cut_at (P : N -> bool) (u v ru rv : list N) :
  Forall (fun c => P c = false) u -> Forall (fun c => P c = false) v ->
  (∀ c r, ru = c :: r -> P c = true) -> (∀ c r, rv = c :: r -> P c = true) ->
  u ++ ru = v ++ rv -> u = v ∧ ru = rv.
Proof.
  revert v. induction u as [|c u IH]; intros v Hu Hv Hru Hrv Heq.
  - destruct v as [|d v]; [done|]. cbn in Heq.
    apply Forall_cons in Hv as [Hd _]. rewrite (Hru d _ Heq) in Hd. done.
  - apply Forall_cons in Hu as [Hc Hu]. destruct v as [|d v].
    + cbn in Heq. symmetry in Heq. rewrite (Hrv c _ Heq) in Hc. done.
    + apply Forall_cons in Hv as [Hd Hv]. injection Heq as -> Heq.
      destruct (IH v Hu Hv Hru Hrv Heq) as [-> ->]. done.
Qed.

Lemma split_from_words s w :
  Forall (fun c => PyStr.is_space c = false) w ->
  Forall word_ok (PyStr.split_from w s).
Proof.
  revert w. induction s as [|c s IH]; intros w Hw; cbn [PyStr.split_from].
  - destruct w; [constructor|]. constructor; [by split|constructor].
  - destruct (PyStr.is_space c) eqn:Hc.
    + destruct w; [by apply IH|]. constructor; [by split|by apply IH].
    + apply IH. apply Forall_app. split; [done|]. by constructor.
Qed.

Lemma split_words t : Forall word_ok (PyStr.split t).
Proof. apply split_from_words. constructor. Qed.

Lemma join_cons sep w ws :
  PyStr.join sep (w :: ws)
  = w ++ match ws with [] => [] | _ :: _ => sep ++ PyStr.join sep ws end.
Proof. destruct ws; [by rewrite app_nil_r|done]. Qed.

(** [" ".join] is injective on lists of words. *)
Lemma join_space_inj ws1 ws2 :
  Forall word_ok ws1 -> Forall word_ok ws2 ->
  PyStr.join [32] ws1 = PyStr.join [32] ws2 -> ws1 = ws2.
Proof.
  revert ws2. induction ws1 as [|w1 ws1 IH]; intros ws2 H1 H2.
  - destruct ws2 as [|w2 ws2]; [done|]. rewrite join_cons. cbn [PyStr.join].
    apply Forall_cons in H2 as [[Hne _] _]. intros Heq. symmetry in Heq.
    by apply app_eq_nil in Heq as [? _].
  - apply Forall_cons in H1 as [[Hne1 Hw1] H1]. destruct ws2 as [|w2 ws2].
    + rewrite join_cons. cbn [PyStr.join]. by intros [? _]%app_eq_nil.
    + apply Forall_cons in H2 as [[Hne2 Hw2] H2]. rewrite !join_cons.
      intros Heq. apply (cut_at PyStr.is_space) in Heq as [-> Htail];
        [|done|done|..].
      * f_equal. destruct ws1, ws2; try done.
        injection Htail as Htail. by apply IH.
      * intros c r. destruct ws1; [done|]. by intros [= <- _].
      * intros c r. destruct ws2; [done|]. by intros [= <- _].
Qed.

(** Two texts have the same normal form exactly when they have the same
    words. *)
Lemma normalize_eq_iff t1 t2 :
  normalize t1 = normalize t2 <-> PyStr.split t1 = PyStr.split t2.
Proof.
  unfold normalize. change (of_string " ") with [32]. split.
  - apply join_space_inj; apply split_words.
  - by intros ->.
Qed.

Lemma is_space_range c : PyStr.is_space c = true -> c <= 32 ∨ 133 <= c.
Proof.
  unfold PyStr.is_space.
  rewrite !orb_true_iff, !andb_true_iff, !N.leb_le, !N.eqb_eq. lia.
Qed.

Lemma ascii_lower_space c d :
  ascii_lower c = ascii_lower d ->
  PyStr.is_space c = PyStr.is_space d ∧ (PyStr.is_space c = true -> c = d).
Proof.
  intros Hlow.
  assert (∀ x y, ascii_lower x = ascii_lower y -> PyStr.is_space x = true -> x = y)
    as Hone.
  { intros x y. unfold ascii_lower. intros Hxy Hx%is_space_range.
    destruct (N.leb_spec 65 x), (N.leb_spec x 90), (N.leb_spec 65 y),
      (N.leb_spec y 90); cbn in Hxy; lia. }
  split; [|by apply Hone].
  destruct (PyStr.is_space c) eqn:Hc, (PyStr.is_space d) eqn:Hd; try done.
  - rewrite <- (Hone c d Hlow Hc) in Hd. congruence.
  - rewrite <- (Hone d c (eq_sym Hlow) Hd) in Hc. congruence.
Qed.

Lemma same_up_to_ascii_case_related t1 t2 :
  same_up_to_ascii_case t1 t2 ->
  Forall2 (fun c d => ascii_lower c = ascii_lower d) t1 t2.
Proof.
  unfold same_up_to_ascii_case. revert t2.
  induction t1 as [|c t1 IH]; intros [|d t2]; try done.
  intros [= Hcd Ht]. constructor; [done|by apply IH].
Qed.

Lemma split_from_nonspace u w s :
  Forall (fun c => PyStr.is_space c = false) u ->
  PyStr.split_from w (u ++ s) = PyStr.split_from (w ++ u) s.
Proof.
  intros Hu. revert w. induction Hu as [|c u Hc Hu IH]; intros w.
  - by rewrite app_nil_r.
  - cbn. rewrite Hc, IH. by rewrite <- app_assoc.
Qed.

(** Two texts made of matching pieces, read after words under
    construction that are both empty or both not, have the same words
    only if they are the same text. *)
Lemma split_from_pieces (pieces : list (list N * list N)) w1 w2 :
  Forall (fun p => p.1 = p.2 ∨ (word_ok p.1 ∧ word_ok p.2)) pieces ->
  (w1 = [] <-> w2 = []) ->
  PyStr.split_from w1 (concat (pieces.*1)) = PyStr.split_from w2 (concat (pieces.*2)) ->
  w1 ++ concat (pieces.*1) = w2 ++ concat (pieces.*2).
Proof.
  intros Hall. revert w1 w2.
  induction Hall as [|[u v] pieces Huv _ IH]; intros w1 w2 Hw.
  { cbn. rewrite !app_nil_r. destruct w1, w2; try done; [by intros [=]..|].
    by intros [= -> ->]. }
  cbn [fmap list_fmap fst snd concat] in *.
  destruct Huv as [<-|[[Hu1 Hu2] [Hv1 Hv2]]].
  - revert w1 w2 Hw. induction u as [|c u IHu]; intros w1 w2 Hw; [by apply IH|].
    cbn [app PyStr.split_from]. destruct (PyStr.is_space c) eqn:Hc.
    + destruct w1 as [|x w1], w2 as [|y w2].
      * intros Heq. cbn [app]. f_equal. by apply (IHu [] []).
      * by pose proof (proj1 Hw eq_refl).
      * by pose proof (proj2 Hw eq_refl).
      * intros [= -> -> Heq]. do 2 f_equal. by apply (IHu [] []).
    + intros Heq. apply IHu in Heq.
      * by rewrite <- !app_assoc in Heq.
      * split; by intros [_ [=]]%app_eq_nil.
  - rewrite !split_from_nonspace by done. intros Heq. apply IH in Heq.
    + by rewrite <- !app_assoc in Heq.
    + split; intros [_ ?]%app_eq_nil; congruence.
Qed.

(** Texts that differ only in letter case have different normal forms:
    nothing is lower-cased. *)
Lemma normalize_keeps_case t1 t2 :
  same_up_to_case t1 t2 -> t1 ≠ t2 -> normalize t1 ≠ normalize t2.
Proof.
  intros (pieces & -> & -> & Hall) Hne Heq%normalize_eq_iff. apply Hne.
  by apply (split_from_pieces pieces [] []).
Qed.

(** The relation holds between a text and the text a case mapping
    makes of it. *)
Lemma case_mapping_same_up_to_case (f : N -> list N) t :
  case_mapping f -> same_up_to_case t (concat (f <$> t)).
Proof.
  intros Hf. exists ((fun c => ([c], f c)) <$> t). split; [|split].
  - rewrite <- list_fmap_compose. induction t as [|c t IH]; [done|].
    cbn. by rewrite <- IH.
  - by rewrite <- list_fmap_compose.
  - apply Forall_fmap, Forall_forall. intros c _. cbn.
    destruct (Hf c) as [->|[Hc Hw]]; [by left|]. right. split; [|done].
    split; [done|]. by constructor.
Qed.

Lemma same_up_to_case_refl t : same_up_to_case t t.
Proof.
  exists [(t, t)]. cbn. rewrite app_nil_r. split; [done|]. split; [done|].
  constructor; [by left|constructor].
Qed.

Lemma same_up_to_case_sym t1 t2 : same_up_to_case t1 t2 -> same_up_to_case t2 t1.
Proof.
  intros (pieces & -> & -> & Hall). exists ((fun p => (p.2, p.1)) <$> pieces).
  rewrite <- !list_fmap_compose. split; [done|]. split; [done|].
  apply Forall_fmap. eapply Forall_impl; [exact Hall|].
  intros [u v]. cbn. intros [->|[? ?]]; [by left|by right].
Qed.

(** Texts equal up to the case of their ASCII letters differ only in
    letter case. *)
Lemma ascii_case_same_up_to_case t1 t2 :
  same_up_to_ascii_case t1 t2 -> same_up_to_case t1 t2.
Proof.
  intros Hrel%same_up_to_ascii_case_related.
  exists (zip_with (fun c d => ([c], [d])) t1 t2).
  induction Hrel as [|c d t1 t2 Hcd Hrel (IH1 & IH2 & IH3)]; [by repeat constructor|].
  cbn. split; [by rewrite <- IH1|]. split; [by rewrite <- IH2|].
  constructor; [|done]. cbn.
  destruct (decide (c = d)) as [->|Hne]; [by left|]. right.
  destruct (ascii_lower_space c d Hcd) as [Hsp Hsame].
  assert (PyStr.is_space c = false) as Hc.
  { destruct (PyStr.is_space c) eqn:E; [|done]. by destruct Hne, Hsame. }
  split; (split; [done|constructor; [congruence|constructor]]).
Qed.

End NormalizeFacts.

Section Utf8Facts.

Implicit Types (c : N) (s : list N) (bs : list N) (d : list byte).

Lemma byte_of_N_to_N n : n < 256 -> Byte.to_N (byte_of_N n) = n.
Proof.
  intros Hn. unfold byte_of_N. rewrite N.mod_small by done.
  destruct (Byte.of_N n) as [b|] eqn:Hb.
  - by apply Byte.to_of_N.
  - apply Byte.of_N_None_iff in Hb. lia.
Qed.

Lemma map_byte_of_N_inj bs1 bs2 :
  Forall (fun b => b < 256) bs1 -> Forall (fun b => b < 256) bs2 ->
  map byte_of_N bs1 = map byte_of_N bs2 -> bs1 = bs2.
Proof.
  intros H1. revert bs2. induction H1 as [|b1 bs1 Hb1 _ IH]; intros [|b2 bs2] H2;
    try done.
  apply Forall_cons in H2 as [Hb2 H2]. intros [= Hb Hbs].
  f_equal; [|by apply IH].
  by rewrite <- (byte_of_N_to_N b1), <- (byte_of_N_to_N b2), Hb.
Qed.

(** The bytes of one code point are bytes, announce their own number
    and carry the code point. *)
Lemma encode_cp_shape c bs :
  PyStr.encode_cp c = Some bs ->
  Forall (fun b => b < 256) bs
  ∧ (∃ b0 bs', bs = b0 :: bs' ∧ utf8_width b0 = length bs)
  ∧ utf8_value bs = c.
Proof.
  unfold PyStr.encode_cp.
  destruct (N.ltb_spec c 0x80); [|destruct (N.ltb_spec c 0x800);
    [|destruct (N.ltb_spec c 0x10000); [|destruct (N.ltb_spec c 0x110000)]]].
  - intros [= <-]. split; [repeat constructor; lia|]. split; [|done].
    eexists _, _. split; [done|]. unfold utf8_width.
    by destruct (N.ltb_spec c 0x80); [|lia].
  - intros [= <-]. split; [repeat constructor; lia_div|]. split.
    + eexists _, _. split; [done|]. unfold utf8_width.
      destruct (N.ltb_spec (0xC0 + c / 64) 0x80); [lia_div|].
      by destruct (N.ltb_spec (0xC0 + c / 64) 0xE0); [|lia_div].
    + unfold utf8_value. lia_div.
  - destruct ((0xD800 <=? c) && (c <=? 0xDFFF)); [done|].
    intros [= <-]. split; [repeat constructor; lia_div|]. split.
    + eexists _, _. split; [done|]. unfold utf8_width.
      destruct (N.ltb_spec (0xE0 + c / 4096) 0x80); [lia_div|].
      destruct (N.ltb_spec (0xE0 + c / 4096) 0xE0); [lia_div|].
      by destruct (N.ltb_spec (0xE0 + c / 4096) 0xF0); [|lia_div].
    + unfold utf8_value. lia_div.
  - intros [= <-]. split; [repeat constructor; lia_div|]. split.
    + eexists _, _. split; [done|]. unfold utf8_width.
      destruct (N.ltb_spec (0xF0 + c / 262144) 0x80); [lia_div|].
      destruct (N.ltb_spec (0xF0 + c / 262144) 0xE0); [lia_div|].
      by destruct (N.ltb_spec (0xF0 + c / 262144) 0xF0); [lia_div|].
    + unfold utf8_value. lia_div.
  - done.
Qed.

(** UTF-8 is prefix-free: the first code point of a byte string is
    determined. *)
Lemma encode_cp_prefix c1 c2 bs1 bs2 (r1 r2 : list byte) :
  PyStr.encode_cp c1 = Some bs1 -> PyStr.encode_cp c2 = Some bs2 ->
  map byte_of_N bs1 ++ r1 = map byte_of_N bs2 ++ r2 ->
  c1 = c2 ∧ r1 = r2.
Proof.
  intros (Hb1 & (a1 & t1 & -> & Hw1) & Hv1)%encode_cp_shape
         (Hb2 & (a2 & t2 & -> & Hw2) & Hv2)%encode_cp_shape Heq.
  assert (a1 = a2) as ->.
  { cbn in Heq. injection Heq as Ha _.
    apply Forall_cons in Hb1 as [? _], Hb2 as [? _].
    by rewrite <- (byte_of_N_to_N a1), <- (byte_of_N_to_N a2), Ha. }
  apply app_inj_1 in Heq as [Hbs ->];
    [|rewrite !length_map; congruence].
  apply map_byte_of_N_inj in Hbs; [|done|done].
  split; [|done]. congruence.
Qed.

(** [str.encode("utf-8")] is injective. *)
Lemma encode_utf8_inj s1 s2 d :
  PyStr.encode_utf8 s1 = Ok d -> PyStr.encode_utf8 s2 = Ok d -> s1 = s2.
Proof.
  revert s2 d. induction s1 as [|c1 s1 IH]; intros s2 d; cbn [PyStr.encode_utf8].
  - intros [= <-]. destruct s2 as [|c2 s2]; [done|]. cbn [PyStr.encode_utf8].
    destruct (PyStr.encode_cp c2) as [bs2|] eqn:H2; [|done].
    destruct (PyStr.encode_utf8 s2) as [rest2|]; [|done]. cbn.
    apply encode_cp_shape in H2 as (_ & (? & ? & -> & _) & _). done.
  - destruct (PyStr.encode_cp c1) as [bs1|] eqn:H1; [|done].
    destruct (PyStr.encode_utf8 s1) as [rest1|] eqn:Hr1; [|done]. cbn.
    intros [= <-]. destruct s2 as [|c2 s2]; cbn [PyStr.encode_utf8].
    + apply encode_cp_shape in H1 as (_ & (? & ? & -> & _) & _). done.
    + destruct (PyStr.encode_cp c2) as [bs2|] eqn:H2; [|done].
      destruct (PyStr.encode_utf8 s2) as [rest2|] eqn:Hr2; [|done]. cbn.
      intros [= Heq]. symmetry in Heq.
      destruct (encode_cp_prefix _ _ _ _ _ _ H1 H2 Heq) as [-> ->].
      f_equal. by eapply IH.
Qed.

Lemma encode_cp_scalar c :
  PyStr.is_scalar c = true -> ∃ bs, PyStr.encode_cp c = Some bs.
Proof.
  unfold PyStr.is_scalar, PyStr.encode_cp.
  rewrite orb_true_iff, andb_true_iff, !N.ltb_lt. intros Hc.
  destruct (N.ltb_spec c 0x80); [by eexists|].
  destruct (N.ltb_spec c 0x800); [by eexists|].
  destruct (N.ltb_spec c 0x10000).
  - destruct (N.leb_spec 0xD800 c), (N.leb_spec c 0xDFFF); cbn; try by eexists.
    lia.
  - destruct (N.ltb_spec c 0x110000); [by eexists|lia].
Qed.

(** Encoding never fails on a string of Unicode scalar values. *)
Lemma encode_utf8_total s :
  Forall (fun c => PyStr.is_scalar c = true) s -> ∃ d, PyStr.encode_utf8 s = Ok d.
Proof.
  induction 1 as [|c s Hc _ [d IH]]; cbn [PyStr.encode_utf8]; [by eexists|].
  destruct (encode_cp_scalar c Hc) as [bs ->]. rewrite IH. cbn. by eexists.
Qed.

End Utf8Facts.

Section KeyFacts.

Implicit Types (c : N) (t m : list N) (d : list byte).

Lemma encode_utf8_app s1 s2 :
  PyStr.encode_utf8 (s1 ++ s2)
  = (d1 ← PyStr.encode_utf8 s1 ; d2 ← PyStr.encode_utf8 s2 ; Ok (d1 ++ d2)).
Proof.
  induction s1 as [|c s1 IH]; cbn [app PyStr.encode_utf8].
  - cbn. by destruct (PyStr.encode_utf8 s2).
  - destruct (PyStr.encode_cp c) as [bs|]; [|done]. rewrite IH.
    destruct (PyStr.encode_utf8 s1) as [d1|]; [|done]. cbn.
    destruct (PyStr.encode_utf8 s2) as [d2|]; [|done]. cbn.
    by rewrite app_assoc.
Qed.

(** The hashed bytes: the bytes of the model, the byte of ["|"], the
    bytes of the normal form of the text. *)
Lemma prehash_bytes t m :
  PyStr.encode_utf8 (prehash t m)
  = (dm ← PyStr.encode_utf8 m ;
     dn ← PyStr.encode_utf8 (normalize t) ;
     Ok (dm ++ [x7c] ++ dn)).
Proof.
  unfold prehash. rewrite !encode_utf8_app.
  destruct (PyStr.encode_utf8 m) as [dm|]; [|done]. cbn.
  by destruct (PyStr.encode_utf8 (normalize t)).
Qed.

Lemma prehash_inj_same_model m t1 t2 :
  prehash t1 m = prehash t2 m -> normalize t1 = normalize t2.
Proof. unfold prehash. by intros ?%app_inv_head%app_inv_head. Qed.

Lemma prehash_inj_no_bar m1 m2 t1 t2 :
  124 ∉ m1 -> 124 ∉ m2 ->
  prehash t1 m1 = prehash t2 m2 -> m1 = m2 ∧ normalize t1 = normalize t2.
Proof.
  intros H1 H2. unfold prehash. change (of_string "|") with [124].
  intros Heq. apply (cut_at (fun c => c =? 124)) in Heq as [-> Heq].
  - split; [done|]. by injection Heq.
  - apply Forall_forall. intros c Hc. apply N.eqb_neq. by intros ->.
  - apply Forall_forall. intros c Hc. apply N.eqb_neq. by intros ->.
  - by intros c r [= <- _].
  - by intros c r [= <- _].
Qed.

(** Different strings are hashed as different bytes, so their keys
    differ unless SHA-256 collides on those bytes. *)
Lemma make_key_inputs_differ m1 m2 t1 t2 d1 d2 :
  prehash t1 m1 ≠ prehash t2 m2 ->
  PyStr.encode_utf8 (prehash t1 m1) = Ok d1 ->
  PyStr.encode_utf8 (prehash t2 m2) = Ok d2 ->
  d1 ≠ d2
  ∧ ∀ k, _make_key t1 m1 = Ok k -> _make_key t2 m2 = Ok k ->
         sha256_collision d1 d2.
Proof.
  intros Hne H1 H2.
  assert (d1 ≠ d2) as Hd.
  { intros ->. apply Hne. by eapply encode_utf8_inj. }
  split; [done|]. intros k. rewrite !make_key_unfold, H1, H2. cbn.
  intros [= <-] [= Hk]. by split.
Qed.

Lemma split_from_Forall (P : N -> Prop) s w :
  Forall P w -> Forall P s -> Forall (Forall P) (PyStr.split_from w s).
Proof.
  intros Hw Hs. revert w Hw.
  induction Hs as [|c s Hc Hs IH]; intros w Hw; cbn [PyStr.split_from].
  - destruct w; [constructor|]. constructor; [done|constructor].
  - destruct (PyStr.is_space c).
    + destruct w; [by apply IH|]. constructor; [done|by apply IH].
    + apply IH. apply Forall_app. split; [done|]. by constructor.
Qed.

Lemma join_Forall (P : N -> Prop) sep ws :
  Forall P sep -> Forall (Forall P) ws -> Forall P (PyStr.join sep ws).
Proof.
  intros Hsep. induction 1 as [|w ws Hw Hws IH]; [constructor|].
  rewrite join_cons. apply Forall_app. split; [done|].
  destruct ws; [constructor|]. apply Forall_app. by split.
Qed.

(** [_make_key] never fails on strings of Unicode scalar values. *)
Lemma make_key_total t m :
  Forall (fun c => PyStr.is_scalar c = true) t ->
  Forall (fun c => PyStr.is_scalar c = true) m ->
  ∃ k, _make_key t m = Ok k.
Proof.
  intros Ht Hm. rewrite make_key_unfold.
  destruct (encode_utf8_total (prehash t m)) as [d ->]; [|by eexists].
  unfold prehash, normalize. apply Forall_app. split; [done|].
  assert (Forall (fun c => PyStr.is_scalar c = true) [124]) as Hbar
    by (constructor; [done|constructor]).
  assert (Forall (fun c => PyStr.is_scalar c = true) [32]) as Hsp
    by (constructor; [done|constructor]).
  apply Forall_app. split; [exact Hbar|].
  apply join_Forall; [exact Hsp|].
  apply split_from_Forall; [constructor|done].
Qed.

End KeyFacts.

(** C1.  For every model, texts with the same whitespace-collapsed and
    trimmed form have the same key (or fail alike), and a key is
    derived for all strings of Unicode scalar values.  For texts that
    differ only in letter case nothing is lower-cased: their normal
    forms differ, the bytes given to SHA-256 differ, and so the keys
    are distinct unless SHA-256 collides on those two byte strings.
    Such are a text and the text any character-wise case mapping makes
    of it, whatever the alphabet and also where a letter becomes
    several. *)
Theorem make_key_normalizes (m t1 t2 : list N) :
  (normalize t1 = normalize t2 -> _make_key t1 m = _make_key t2 m)
  ∧ (Forall (fun c => PyStr.is_scalar c = true) t1 ->
     Forall (fun c => PyStr.is_scalar c = true) m ->
     ∃ k, _make_key t1 m = Ok k)
  ∧ (same_up_to_case t1 t2 -> t1 ≠ t2 ->
     normalize t1 ≠ normalize t2
     ∧ ∀ d1 d2,
         PyStr.encode_utf8 (prehash t1 m) = Ok d1 ->
         PyStr.encode_utf8 (prehash t2 m) = Ok d2 ->
         d1 ≠ d2
         ∧ ∀ k, _make_key t1 m = Ok k -> _make_key t2 m = Ok k ->
                sha256_collision d1 d2)
  ∧ (∀ f, case_mapping f -> same_up_to_case t1 (concat (f <$> t1))).
Proof.
  split; [|split; [|split]].
  - intros Heq. rewrite !make_key_unfold. unfold prehash. by rewrite Heq.
  - apply make_key_total.
  - intros Hcase Hne.
    pose proof (normalize_keeps_case t1 t2 Hcase Hne) as Hnorm.
    split; [done|]. intros d1 d2. apply make_key_inputs_differ.
    by intros ?%prehash_inj_same_model.
  - intros f. apply case_mapping_same_up_to_case.
Qed.

(** Pairs the relation holds for: ASCII letters, a letter outside ASCII
    (["É"] and ["é"]), a letter that is two letters in upper case
    (["straße"] and ["STRASSE"]); and a pair it does not hold for, a
    space against a letter. *)
Example same_up_to_case_examples :
  same_up_to_case (of_string "Hanoi museum") (of_string "hanoi MUSEUM")
  ∧ same_up_to_case [0xC9] [0xE9]
  ∧ same_up_to_case [115; 116; 114; 97; 0xDF; 101] (of_string "STRASSE")
  ∧ ¬ same_up_to_case (of_string "a b") (of_string "aXb").
Proof.
  split; [|split; [|split]].
  - by apply ascii_case_same_up_to_case.
  - exists [([0xC9], [0xE9])]. split; [done|]. split; [done|].
    constructor; [|constructor]. right.
    split; (split; [done|by repeat constructor]).
  - exists [(of_string "stra", of_string "STRA"); ([0xDF], of_string "SS");
            (of_string "e", of_string "E")].
    split; [done|]. split; [done|].
    repeat (apply Forall_cons_2;
              [right; split; (split; [done|by repeat constructor])|]).
    constructor.
  - intros Hrel.
    assert (normalize (of_string "a b") ≠ normalize (of_string "aXb")) as Hne
      by (by apply normalize_keeps_case).
    destruct Hrel as (pieces & H1 & H2 & Hall).
    assert (Forall (fun p => Forall (fun c => PyStr.is_space c = false) p.1
                             <-> Forall (fun c => PyStr.is_space c = false) p.2)
              pieces) as Hsp.
    { eapply Forall_impl; [exact Hall|]. intros [u v]. cbn.
      intros [->|[[_ ?] [_ ?]]]; tauto. }
    assert (Forall (fun c => PyStr.is_space c = false) (concat (pieces.*1))
            <-> Forall (fun c => PyStr.is_space c = false) (concat (pieces.*2)))
      as Hiff.
    { clear -Hsp. induction Hsp as [|[u v] pieces Huv _ IH]; [done|].
      cbn in *. rewrite !Forall_app. tauto. }
    rewrite <- H1, <- H2 in Hiff.
    assert (Forall (fun c => PyStr.is_space c = false) (of_string "aXb")) as HX
      by (by repeat constructor).
    apply Hiff in HX. apply Forall_cons_1 in HX as [_ HX].
    by apply Forall_cons_1 in HX as [Hs _].
Qed.

Example make_key_whitespace_example :
  _make_key (of_string "Hanoi  museum") (of_string "m1")
  = _make_key (of_string " Hanoi museum ") (of_string "m1").
Proof. vm_compute. reflexivity. Qed.

Example make_key_model_example :
  _make_key (of_string "Hanoi museum") (of_string "m1")
  ≠ _make_key (of_string "Hanoi museum") (of_string "m2").
Proof. vm_compute. discriminate. Qed.

Example make_key_case_example :
  _make_key (of_string "Hanoi museum") (of_string "m1")
  ≠ _make_key (of_string "hanoi museum") (of_string "m1").
Proof. vm_compute. discriminate. Qed.

(** C6, for models without ["|"] (or equal models).  The bytes given to
    SHA-256 are the UTF-8 bytes of the model, the byte of ["|"] and the
    UTF-8 bytes of the normal form of the text.  When the two models are
    equal, or neither contains ["|"], two pairs with different (model,
    normal form) are hashed as different byte strings, and their keys
    can only be equal if SHA-256 collides on those byte strings. *)
Theorem make_key_distinct (m1 m2 t1 t2 : list N) :
  m1 = m2 ∨ ((124 ∉ m1) ∧ (124 ∉ m2)) ->
  (m1, normalize t1) ≠ (m2, normalize t2) ->
  PyStr.encode_utf8 (prehash t1 m1)
  = (dm ← PyStr.encode_utf8 m1 ;
     dn ← PyStr.encode_utf8 (normalize t1) ;
     Ok (dm ++ [x7c] ++ dn))
  ∧ prehash t1 m1 ≠ prehash t2 m2
  ∧ ∀ d1 d2,
      PyStr.encode_utf8 (prehash t1 m1) = Ok d1 ->
      PyStr.encode_utf8 (prehash t2 m2) = Ok d2 ->
      d1 ≠ d2
      ∧ ∀ k, _make_key t1 m1 = Ok k -> _make_key t2 m2 = Ok k ->
             sha256_collision d1 d2.
Proof.
  intros Hm Hne. split; [apply prehash_bytes|].
  assert (prehash t1 m1 ≠ prehash t2 m2) as Hpre.
  { intros Heq. apply Hne. destruct Hm as [->|[H1 H2]].
    - f_equal. by eapply prehash_inj_same_model.
    - by destruct (prehash_inj_no_bar _ _ _ _ H1 H2 Heq) as [-> ->]. }
  split; [done|]. intros d1 d2. by apply make_key_inputs_differ.
Qed.

Lemma make_key_distinct_witness :
  PyStr.encode_utf8 (prehash wit_text2 (of_string "m1"))
  = (dm ← PyStr.encode_utf8 (of_string "m1") ;
     dn ← PyStr.encode_utf8 (normalize wit_text2) ;
     Ok (dm ++ [x7c] ++ dn))
  ∧ prehash wit_text2 (of_string "m1") ≠ prehash wit_text2 (of_string "m2")
  ∧ ∀ d1 d2,
      PyStr.encode_utf8 (prehash wit_text2 (of_string "m1")) = Ok d1 ->
      PyStr.encode_utf8 (prehash wit_text2 (of_string "m2")) = Ok d2 ->
      d1 ≠ d2
      ∧ ∀ k, _make_key wit_text2 (of_string "m1") = Ok k ->
             _make_key wit_text2 (of_string "m2") = Ok k ->
             sha256_collision d1 d2.
Proof.
  apply (make_key_distinct (of_string "m1") (of_string "m2") wit_text2 wit_text2).
  - right. split; apply (bool_decide_unpack _); vm_compute; exact I.
  - vm_compute. discriminate.
Defined.

(** C6 as stated fails: ["|"] may occur in the model and in the text, so
    the pairs ("a|b", "c") and ("a", "b|c") are hashed as the same
    bytes and get the same key. *)
Lemma make_key_separator_clash :
  ¬ (∀ m1 m2 t1 t2 : list N,
       (m1, normalize t1) ≠ (m2, normalize t2) ->
       prehash t1 m1 ≠ prehash t2 m2
       ∧ _make_key t1 m1 ≠ _make_key t2 m2).
Proof.
  intros H.
  destruct (H (of_string "a|b") (of_string "a") (of_string "c") (of_string "b|c"))
    as [Hpre _].
  - vm_compute. discriminate.
  - apply Hpre. vm_compute. reflexivity.
Qed.

Example make_key_separator_example :
  _make_key (of_string "c") (of_string "a|b")
  = _make_key (of_string "b|c") (of_string "a")
  ∧ ∃ k, _make_key (of_string "c") (of_string "a|b") = Ok k.
Proof. split; [vm_compute; reflexivity|]. eexists. vm_compute. reflexivity. Qed.

(** ** The shape of a digest *)

Section DigestShape.

Implicit Types (ws st h : list N).

#[local] Abbreviation word_bounded := (fun w : N => w < 4294967296).

Lemma round_length st kw : length st = 8%nat -> length (SHA256.round st kw) = 8%nat.
Proof.
  intros Hlen. do 9 (destruct st as [|? st]; try done).
Qed.

Lemma rounds_length (kws : list (N * N)) st :
  length st = 8%nat -> length (fold_left SHA256.round kws st) = 8%nat.
Proof.
  revert st. induction kws as [|kw kws IH]; intros st Hlen; [done|].
  cbn [fold_left]. by apply IH, round_length.
Qed.

Lemma zip_add32_bounded h st : Forall word_bounded (zip_with SHA256.add32 h st).
Proof.
  revert st. induction h as [|a h IH]; intros [|b st]; cbn; try constructor.
  - unfold SHA256.add32, SHA256.w32. by apply N.mod_lt.
  - apply IH.
Qed.

Lemma compress_shape h blk :
  length h = 8%nat ->
  length (SHA256.compress h blk) = 8%nat
  ∧ Forall word_bounded (SHA256.compress h blk).
Proof.
  intros Hlen. unfold SHA256.compress. split; [|apply zip_add32_bounded].
  rewrite length_zip_with, rounds_length by done. lia.
Qed.

(** A digest is eight 32-bit words. *)
Lemma digest_words_shape (msg : list N) :
  length (SHA256.digest_words msg) = 8%nat
  ∧ Forall word_bounded (SHA256.digest_words msg).
Proof.
  unfold SHA256.digest_words.
  generalize (groups (length (SHA256.pad msg)) 64 (SHA256.pad msg)).
  assert (length SHA256.H0 = 8%nat ∧ Forall word_bounded SHA256.H0) as Hinit.
  { split; [done|]. apply (bool_decide_unpack _). vm_compute. exact I. }
  revert Hinit. generalize SHA256.H0.
  intros h Hh blocks. revert h Hh.
  induction blocks as [|blk blocks IH]; intros h Hh; [done|].
  cbn [fold_left]. apply IH. apply compress_shape. tauto.
Qed.

End DigestShape.

Lemma make_key_words text model :
  _make_key text model
  = (ws ← key_words text model ; Ok (flat_map (SHA256.hex_of 8) ws)).
Proof.
  rewrite make_key_unfold. unfold key_words.
  by destruct (PyStr.encode_utf8 (prehash text model)).
Qed.

(** ** Rounding to float32 *)

Section RoundingFacts.

Local Open Scope Z_scope.

Implicit Types (m p : positive) (z e k n q r t : Z).

Lemma digits2_bounds p :
  2 ^ (Z.pos (digits2_pos p) - 1) <= Z.pos p < 2 ^ Z.pos (digits2_pos p).
Proof.
  induction p as [p IH|p IH|]; cbn [digits2_pos].
  - rewrite Pos2Z.inj_succ. replace (Z.succ (Z.pos (digits2_pos p)) - 1)
      with (Z.succ (Z.pos (digits2_pos p) - 1)) by lia.
    rewrite !Z.pow_succ_r by lia. lia.
  - rewrite Pos2Z.inj_succ. replace (Z.succ (Z.pos (digits2_pos p)) - 1)
      with (Z.succ (Z.pos (digits2_pos p) - 1)) by lia.
    rewrite !Z.pow_succ_r by lia. lia.
  - cbn. lia.
Qed.

Lemma pow2_lt_inv a b : 0 <= b -> 2 ^ a < 2 ^ b -> a < b.
Proof.
  intros Hb Hlt. destruct (Z.lt_ge_cases a b) as [|Hge]; [done|].
  pose proof (Z.pow_le_mono_r 2 b a ltac:(lia) Hge). lia.
Qed.

(** The number of binary digits is the [k] with
    [2 ^ (k - 1) <= z < 2 ^ k]. *)
Lemma digits2_unique z k :
  0 < k -> 2 ^ (k - 1) <= z < 2 ^ k -> Zdigits2 z = k.
Proof.
  intros Hk [Hlo Hhi].
  assert (0 < z) as Hz by (pose proof (Z.pow_pos_nonneg 2 (k - 1)); lia).
  destruct z as [|p|p]; try lia. cbn [Zdigits2].
  pose proof (digits2_bounds p) as [Hlo' Hhi'].
  assert (k - 1 < Z.pos (digits2_pos p)) by (apply pow2_lt_inv; lia).
  assert (Z.pos (digits2_pos p) - 1 < k) by (apply pow2_lt_inv; lia).
  lia.
Qed.

Lemma digits2_shift p k :
  0 <= k -> Zdigits2 (Z.pos p * 2 ^ k) = Z.pos (digits2_pos p) + k.
Proof.
  intros Hk. pose proof (digits2_bounds p) as [Hlo Hhi].
  apply digits2_unique; [lia|].
  replace (Z.pos (digits2_pos p) + k - 1) with (Z.pos (digits2_pos p) - 1 + k) by lia.
  rewrite !Z.pow_add_r by lia.
  pose proof (Z.pow_pos_nonneg 2 k). split; [nia|nia].
Qed.

Lemma iter_xO_value m (j : positive) :
  Z.pos (Pos.iter xO m j) = Z.pos m * 2 ^ Z.pos j.
Proof.
  induction j as [|j IH] using Pos.peano_ind.
  - cbn. lia.
  - rewrite Pos.iter_succ, Pos2Z.inj_succ, Z.pow_succ_r by lia.
    rewrite Pos2Z.inj_xO, IH. lia.
Qed.

Lemma iter_pos_nat {A} (f : A -> A) p (x : A) :
  SpecFloat.iter_pos f p x = Nat.iter (Pos.to_nat p) f x.
Proof.
  revert x. induction p as [p IH|p IH|]; intros x; cbn [SpecFloat.iter_pos].
  - rewrite !IH, Pos2Nat.inj_xI, Nat.iter_succ_r.
    replace (2 * Pos.to_nat p)%nat with (Pos.to_nat p + Pos.to_nat p)%nat by lia.
    by rewrite Nat.iter_add.
  - rewrite !IH, Pos2Nat.inj_xO.
    replace (2 * Pos.to_nat p)%nat with (Pos.to_nat p + Pos.to_nat p)%nat by lia.
    by rewrite Nat.iter_add.
  - done.
Qed.

Lemma shr_1_spec q (rb sb : bool) :
  0 <= q ->
  shr_1 (Build_shr_record q rb sb)
  = Build_shr_record (q / 2) (Z.odd q) (rb || sb).
Proof.
  intros Hq. rewrite <- Z.div2_div.
  by destruct q as [|[p|p|]|p].
Qed.

(** After [k + 1] one-bit shifts of [z]: the quotient, the bit just
    shifted out, and whether anything nonzero was shifted out before. *)
Lemma shr_steps z (k : nat) :
  0 <= z ->
  let st := Nat.iter (S k) shr_1 (Build_shr_record z false false) in
  0 <= shr_m st
  ∧ ∃ t, 0 <= t < 2 ^ Z.of_nat k
         ∧ z = shr_m st * 2 ^ Z.of_nat (S k)
               + (if shr_r st then 2 ^ Z.of_nat k else 0) + t
         ∧ (shr_s st = true <-> 0 < t).
Proof.
  intros Hz. induction k as [|k IH].
  - cbn [Nat.iter]. rewrite shr_1_spec by done. cbn [shr_m shr_r shr_s].
    split; [apply Z.div_pos; lia|]. exists 0. cbn.
    pose proof (Z.div_mod z 2 ltac:(lia)) as Hdm.
    rewrite Zmod_odd in Hdm. destruct (Z.odd z); split; try lia; split; try lia; done.
  - cbn zeta in IH. remember (Nat.iter (S k) shr_1 _) as st eqn:Hst.
    destruct IH as (Hq & t & Ht & Hval & Hs).
    change (Nat.iter (S (S k)) shr_1 ?x) with (shr_1 (Nat.iter (S k) shr_1 x)).
    cbn zeta. rewrite <- Hst. destruct st as [q rb sb].
    cbn [shr_m shr_r shr_s] in *. rewrite shr_1_spec by done.
    cbn [shr_m shr_r shr_s].
    split; [apply Z.div_pos; lia|].
    exists ((if rb then 2 ^ Z.of_nat k else 0) + t).
    pose proof (Z.div_mod q 2 ltac:(lia)) as Hdm. rewrite Zmod_odd in Hdm.
    rewrite !Nat2Z.inj_succ, !Z.pow_succ_r in * by lia.
    pose proof (Z.pow_pos_nonneg 2 (Z.of_nat k)).
    split; [destruct rb; lia|]. split.
    + destruct (Z.odd q), rb; nia.
    + destruct rb; cbn [orb]; [split; [lia|done]|]. rewrite Hs. lia.
Qed.

Section Format.

Variables prec emax : Z.
Hypothesis prec_pos : 0 < prec.

Lemma fexp_ge_emin k : 3 - emax - prec <= fexp prec emax k.
Proof. unfold fexp, emin. lia. Qed.

(** No shift is needed: the rounding step returns its input. *)
Lemma round_aux_exact (s : bool) z E :
  fexp prec emax (Zdigits2 z + E) <= E ->
  binary_round_aux prec emax s z E loc_Exact = round_pack prec emax s z E.
Proof.
  intros Hexp. unfold binary_round_aux, shr_fexp, shr.
  destruct (fexp prec emax (Zdigits2 z + E) - E) as [|p|p] eqn:Hn; try lia;
    cbn [shr_record_of_loc shr_m loc_of_shr_record round_nearest_even];
    rewrite Hn; by destruct z.
Qed.

Lemma digits2_le z : 0 < z -> z < 2 ^ prec -> 0 < Zdigits2 z <= prec.
Proof.
  intros Hz Hlt. destruct z as [|p|p]; try lia. cbn [Zdigits2].
  pose proof (digits2_bounds p) as [Hlo _]. split; [lia|].
  assert (Z.pos (digits2_pos p) - 1 < prec) by (apply pow2_lt_inv; lia). lia.
Qed.

(** The second shift of the rounding step: a quotient below
    [2 ^ prec] stays, the quotient [2 ^ prec] moves to the next
    exponent. *)
Lemma round_aux_finish (s : bool) q' E :
  3 - emax - prec <= E -> 0 <= q' <= 2 ^ prec ->
  (let '(mrs, e'') := shr_fexp prec emax q' E loc_Exact in
   match shr_m mrs with
   | Z0 => S754_zero s
   | Zpos m => if e'' <=? emax - prec then S754_finite s m e'' else S754_infinity s
   | Zneg _ => S754_nan
   end)
  = if q' =? 2 ^ prec then round_pack prec emax s (2 ^ (prec - 1)) (E + 1)
    else round_pack prec emax s q' E.
Proof.
  intros HE Hq. unfold shr_fexp, shr.
  destruct (Z.eqb_spec q' (2 ^ prec)) as [->|Hne].
  - assert (Zdigits2 (2 ^ prec) = prec + 1) as ->.
    { apply digits2_unique; [lia|]. replace (prec + 1 - 1) with prec by lia.
      rewrite Z.pow_add_r by lia. pose proof (Z.pow_pos_nonneg 2 prec). lia. }
    assert (fexp prec emax (prec + 1 + E) - E = 1) as ->
      by (unfold fexp, emin; lia).
    cbn [shr_record_of_loc SpecFloat.iter_pos].
    rewrite shr_1_spec by (pose proof (Z.pow_pos_nonneg 2 prec); lia).
    cbn [shr_m]. replace prec with (Z.succ (prec - 1)) at 1 by lia.
    rewrite Z.pow_succ_r by lia.
    replace (2 * 2 ^ (prec - 1) / 2) with (2 ^ (prec - 1))
      by (rewrite Z.mul_comm, Z.div_mul; lia).
    done.
  - assert (fexp prec emax (Zdigits2 q' + E) - E <= 0) as Hn.
    { destruct (Z.eq_dec q' 0) as [->|]; [unfold fexp, emin; cbn; lia|].
      pose proof (digits2_le q' ltac:(lia) ltac:(lia)).
      unfold fexp, emin. lia. }
    destruct (fexp prec emax (Zdigits2 q' + E) - E) as [|p|p]; try lia;
      cbn [shr_record_of_loc shr_m]; by destruct q'.
Qed.

(** A shift by [n > 0] bits is needed: the quotient is rounded to
    nearest, ties to even. *)
Lemma round_aux_shift (s : bool) m e n :
  n = fexp prec emax (Z.pos (digits2_pos m) + e) - e -> 0 < n ->
  binary_round_aux prec emax s (Z.pos m) e loc_Exact
  = let q := Z.pos m / 2 ^ n in
    let r := Z.pos m mod 2 ^ n in
    let q' := if round_up n q r then q + 1 else q in
    if q' =? 2 ^ prec then round_pack prec emax s (2 ^ (prec - 1)) (e + n + 1)
    else round_pack prec emax s q' (e + n).
Proof.
  intros Hn Hpos. cbn zeta. unfold binary_round_aux.
  unfold shr_fexp at 1. unfold shr. cbn [Zdigits2]. rewrite <- Hn.
  destruct n as [|p|p]; try lia. cbn [shr_record_of_loc].
  rewrite iter_pos_nat.
  destruct (Pos2Nat.is_succ p) as [k Hk]. rewrite Hk.
  destruct (shr_steps (Z.pos m) k ltac:(lia)) as (Hq & t & Ht & Hval & Hs).
  remember (Nat.iter (S k) shr_1 _) as st eqn:Hst. destruct st as [q rb sb].
  cbn [shr_m shr_r shr_s] in *.
  assert (Z.of_nat (S k) = Z.pos p) as HkZ by lia.
  rewrite HkZ in Hval.
  assert (Z.of_nat k = Z.pos p - 1) as Hk1 by lia. rewrite Hk1 in *.
  pose proof (Z.pow_pos_nonneg 2 (Z.pos p - 1) ltac:(lia) ltac:(lia)) as Hpow1.
  assert (2 ^ Z.pos p = 2 * 2 ^ (Z.pos p - 1)) as Hpow.
  { replace (Z.pos p) with (Z.succ (Z.pos p - 1)) at 1 by lia.
    by rewrite Z.pow_succ_r by lia. }
  set (rem := (if rb then 2 ^ (Z.pos p - 1) else 0) + t) in *.
  assert (0 <= rem < 2 ^ Z.pos p) as Hrem by (unfold rem; destruct rb; lia).
  assert (Z.pos m / 2 ^ Z.pos p = q) as Hdiv.
  { symmetry. apply (Z.div_unique _ _ q rem); [lia|]. unfold rem. lia. }
  assert (Z.pos m mod 2 ^ Z.pos p = rem) as Hmod.
  { symmetry. apply (Z.mod_unique _ _ q rem); [lia|]. unfold rem. lia. }
  rewrite Hdiv, Hmod.
  assert (round_nearest_even q
            (loc_of_shr_record (Build_shr_record q rb sb))
          = if round_up (Z.pos p) q rem then q + 1 else q) as ->.
  { unfold round_up, rem. rewrite Hpow.
    destruct rb, sb; cbn [loc_of_shr_record round_nearest_even].
    - assert (0 < t) by (by apply Hs).
      destruct (Z.ltb_spec (2 * 2 ^ (Z.pos p - 1)) (2 * (2 ^ (Z.pos p - 1) + t)));
        [done|lia].
    - assert (t = 0) as -> by (destruct (Z.eq_dec t 0); [done|];
        assert (false = true) by (apply Hs; lia); done).
      destruct (Z.ltb_spec (2 * 2 ^ (Z.pos p - 1)) (2 * (2 ^ (Z.pos p - 1) + 0)));
        [lia|].
      destruct (Z.eqb_spec (2 * 2 ^ (Z.pos p - 1)) (2 * (2 ^ (Z.pos p - 1) + 0)));
        [|lia].
      cbn [orb andb]. rewrite <- Z.negb_even. by destruct (Z.even q).
    - assert (0 < t) by (by apply Hs).
      destruct (Z.ltb_spec (2 * 2 ^ (Z.pos p - 1)) (2 * (0 + t))); [lia|].
      destruct (Z.eqb_spec (2 * 2 ^ (Z.pos p - 1)) (2 * (0 + t))); [lia|done].
    - assert (t = 0) as -> by (destruct (Z.eq_dec t 0); [done|];
        assert (false = true) by (apply Hs; lia); done).
      destruct (Z.ltb_spec (2 * 2 ^ (Z.pos p - 1)) (2 * (0 + 0))); [lia|].
      destruct (Z.eqb_spec (2 * 2 ^ (Z.pos p - 1)) (2 * (0 + 0))); [lia|done]. }
  set (q' := if round_up (Z.pos p) q rem then q + 1 else q).
  assert (q < 2 ^ prec) as Hqlt.
  { rewrite <- Hdiv. apply Z.div_lt_upper_bound; [lia|].
    pose proof (digits2_bounds m) as [_ Hhi].
    eapply Z.lt_le_trans; [exact Hhi|]. rewrite <- Z.pow_add_r by lia.
    apply Z.pow_le_mono_r; [lia|]. unfold fexp in Hn. lia. }
  apply round_aux_finish.
  - pose proof (fexp_ge_emin (Z.pos (digits2_pos m) + e)). lia.
  - unfold q'. destruct (round_up _ _ _); lia.
Qed.

(** [binary_round] is rounding to nearest even in closed form. *)
Lemma binary_round_model (s : bool) m e :
  binary_round prec emax s m e = round_model prec emax s m e.
Proof.
  unfold binary_round, round_model, shl_align.
  change (Z.max (Z.pos (digits2_pos m) + e - prec) (3 - emax - prec))
    with (fexp prec emax (Z.pos (digits2_pos m) + e)).
  set (E := fexp prec emax (Z.pos (digits2_pos m) + e)).
  destruct (Z.leb_spec E e) as [Hle|Hgt].
  - destruct (E - e) as [|p|p] eqn:Hd; try lia.
    + assert (E = e) as HE by lia. rewrite HE, Z.sub_diag, Z.pow_0_r, Z.mul_1_r.
      apply round_aux_exact. cbn [Zdigits2]. fold E. lia.
    + rewrite round_aux_exact.
      * rewrite iter_xO_value. by replace (e - E) with (Z.pos p) by lia.
      * rewrite iter_xO_value, digits2_shift by lia.
        replace (Z.pos (digits2_pos m) + Z.pos p + E)
          with (Z.pos (digits2_pos m) + e) by lia. fold E. lia.
  - destruct (E - e) as [|p|p] eqn:Hd; try lia.
    rewrite (round_aux_shift s m e (Z.pos p)) by (fold E; lia).
    cbn zeta. replace (e + Z.pos p) with E by lia. done.
Qed.

Lemma round_pack_valid (s : bool) z E :
  (0 < z -> fexp prec emax (Zdigits2 z + E) = E) ->
  valid_binary prec emax (round_pack prec emax s z E) = true.
Proof.
  intros Hcanon. unfold round_pack. destruct z as [|p|p]; try done.
  destruct (Z.leb_spec E (emax - prec)) as [Hle|]; [|done].
  cbn [valid_binary]. unfold bounded, canonical_mantissa.
  apply andb_true_iff. split; [|by apply Z.leb_le].
  apply Z.eqb_eq. apply (Hcanon ltac:(lia)).
Qed.

(** Rounding always gives a number of the format. *)
Lemma round_model_valid (s : bool) m e :
  valid_binary prec emax (round_model prec emax s m e) = true.
Proof.
  unfold round_model.
  change (Z.max (Z.pos (digits2_pos m) + e - prec) (3 - emax - prec))
    with (fexp prec emax (Z.pos (digits2_pos m) + e)).
  set (d := Z.pos (digits2_pos m)).
  set (E := fexp prec emax (d + e)).
  pose proof (digits2_bounds m) as [Hlo Hhi]. fold d in Hlo, Hhi.
  assert (3 - emax - prec <= E) as Hemin by apply fexp_ge_emin.
  assert (d + e - prec <= E) as HE by (unfold E, fexp; lia).
  destruct (Z.leb_spec E e) as [Hle|Hgt].
  - apply round_pack_valid. intros _. rewrite digits2_shift by lia.
    fold d. replace (d + (e - E) + E) with (d + e) by lia. done.
  - set (n := E - e). set (q := Z.pos m / 2 ^ n). set (r := Z.pos m mod 2 ^ n).
    set (q' := if round_up n q r then q + 1 else q).
    assert (0 < 2 ^ n) as Hpn by (apply Z.pow_pos_nonneg; lia).
    assert (0 <= q < 2 ^ prec) as Hq.
    { split; [apply Z.div_pos; lia|]. apply Z.div_lt_upper_bound; [lia|].
      eapply Z.lt_le_trans; [exact Hhi|]. rewrite <- Z.pow_add_r by lia.
      apply Z.pow_le_mono_r; lia. }
    destruct (Z.eqb_spec q' (2 ^ prec)) as [Heq|Hne].
    + apply round_pack_valid. intros _.
      assert (Zdigits2 (2 ^ (prec - 1)) = prec) as ->.
      { apply digits2_unique; [lia|]. split; [lia|].
        apply Z.pow_lt_mono_r; lia. }
      unfold fexp, emin. lia.
    + apply round_pack_valid. intros Hpos.
      assert (q' < 2 ^ prec) as Hlt by (unfold q' in *; destruct (round_up n q r); lia).
      pose proof (digits2_le q' Hpos Hlt) as Hd'.
      destruct (Z.eq_dec E (3 - emax - prec)) as [Hsub|Hnorm].
      * unfold fexp, emin. lia.
      * assert (E = d + e - prec) as HEn by (unfold E, fexp, emin in *; lia).
        assert (2 ^ (prec - 1) <= q) as Hqlo.
        { apply Z.div_le_lower_bound; [lia|]. rewrite <- Z.pow_add_r by lia.
          replace (n + (prec - 1)) with (d - 1) by lia. done. }
        assert (Zdigits2 q' = prec) as ->.
        { apply digits2_unique; [lia|]. unfold q' in *.
          destruct (round_up n q r); lia. }
        unfold fexp, emin. lia.
Qed.

End Format.

Lemma binary32_canonical m e :
  bounded 24 128 m e = true ->
  -149 <= e <= 104
  ∧ Z.pos (digits2_pos m) <= 24
  ∧ (Z.pos (digits2_pos m) < 24 -> e = -149).
Proof.
  unfold bounded, canonical_mantissa, fexp, emin.
  rewrite andb_true_iff, Z.eqb_eq, Z.leb_le. lia.
Qed.

(** Widening a float32 is exact: the mantissa is shifted to 53 bits. *)
Lemma to_float_finite (s : bool) m e :
  bounded 24 128 m e = true ->
  ∃ m', F32.to_float (S754_finite s m e)
        = S754_finite s m' (Z.pos (digits2_pos m) + e - 53)
        ∧ Z.pos m' = Z.pos m * 2 ^ (53 - Z.pos (digits2_pos m))
        ∧ Z.pos (digits2_pos m') = 53.
Proof.
  intros (He & Hd & _)%binary32_canonical.
  cbn [F32.to_float]. unfold F64.prec, F64.emax.
  rewrite binary_round_model by lia. unfold round_model.
  set (d := Z.pos (digits2_pos m)) in *.
  replace (Z.max (d + e - 53) (3 - 1024 - 53)) with (d + e - 53) by lia.
  destruct (Z.leb_spec (d + e - 53) e); [|lia].
  replace (e - (d + e - 53)) with (53 - d) by lia.
  pose proof (Z.pow_pos_nonneg 2 (53 - d) ltac:(lia) ltac:(lia)).
  destruct (Z.pos m * 2 ^ (53 - d)) as [|m'|m'] eqn:Hm'; try lia.
  unfold round_pack. destruct (Z.leb_spec (d + e - 53) (1024 - 53)); [|lia].
  exists m'. split; [done|]. split; [done|].
  change (Z.pos (digits2_pos m')) with (Zdigits2 (Z.pos m')).
  rewrite <- Hm', digits2_shift by lia. fold d. lia.
Qed.

(** Narrowing the widening of a float32 gives the float32 back. *)
Lemma of_float_to_float y :
  valid_binary 24 128 y = true -> F32.of_float (F32.to_float y) = y.
Proof.
  destruct y as [s|s| |s m e]; try done. cbn [valid_binary]. intros Hb.
  destruct (to_float_finite s m e Hb) as (m' & -> & Hm' & Hd').
  apply binary32_canonical in Hb as (He & Hd & Hsub).
  cbn [F32.of_float]. unfold F32.prec, F32.emax.
  rewrite binary_round_model by lia. unfold round_model. rewrite Hd'.
  set (d := Z.pos (digits2_pos m)) in *.
  replace (Z.max (53 + (d + e - 53) - 24) (3 - 128 - 24)) with e by lia.
  destruct (Z.leb_spec e (d + e - 53)); [lia|].
  replace (e - (d + e - 53)) with (53 - d) by lia.
  pose proof (Z.pow_pos_nonneg 2 (53 - d) ltac:(lia) ltac:(lia)) as Hp.
  rewrite Hm', Z.div_mul, Z_mod_mult by lia.
  assert (round_up (53 - d) (Z.pos m) 0 = false) as ->.
  { unfold round_up.
    destruct (Z.ltb_spec (2 ^ (53 - d)) (2 * 0)); [lia|].
    destruct (Z.eqb_spec (2 ^ (53 - d)) (2 * 0)); [lia|done]. }
  pose proof (digits2_bounds m) as [_ Hhi]. fold d in Hhi.
  assert (Z.pos m < 2 ^ 24)
    by (eapply Z.lt_le_trans; [exact Hhi|apply Z.pow_le_mono_r; lia]).
  destruct (Z.eqb_spec (Z.pos m) (2 ^ 24)); [lia|].
  unfold round_pack. by destruct (Z.leb_spec e (128 - 24)); [|lia].
Qed.

Lemma of_float_valid x : valid_binary 24 128 (F32.of_float x) = true.
Proof.
  destruct x as [s|s| |s m e]; try done. cbn [F32.of_float].
  unfold F32.prec, F32.emax. rewrite binary_round_model by lia.
  apply round_model_valid. lia.
Qed.

End RoundingFacts.

(** ** The float32 encoding *)

Section BitsFacts.

Implicit Types (w b f : N) (s : bool) (y : spec_float).

Lemma byte_of_N_mod n : Byte.to_N (byte_of_N n) = n mod 256.
Proof.
  unfold byte_of_N.
  assert (n mod 256 < 256) as Hlt by (apply N.mod_lt; lia).
  destruct (Byte.of_N (n mod 256)) as [x|] eqn:Hx.
  - by apply Byte.to_of_N.
  - apply Byte.of_N_None_iff in Hx. lia.
Qed.

Lemma le_word_bytes w : w < 4294967296 -> F32.le_word (F32.le_bytes w) = w.
Proof.
  intros Hw. unfold F32.le_word, F32.le_bytes. rewrite !byte_of_N_mod. lia_div.
Qed.

Lemma le_bytes_length w : length (F32.le_bytes w) = 4%nat.
Proof. done. Qed.

(** The three fields of a word put together from them. *)
Lemma of_bits_fields s b f :
  b < 256 -> f < 8388608 ->
  let w := F32.sign_bit s + b * 8388608 + f in
  (2147483648 <=? w) = s ∧ (w / 8388608) mod 256 = b ∧ w mod 8388608 = f.
Proof.
  intros Hb Hf w. unfold w, F32.sign_bit. split; [|split].
  - destruct s; [apply N.leb_le|apply N.leb_gt]; lia.
  - destruct s; lia_div.
  - destruct s; lia_div.
Qed.

Lemma to_bits_fields y :
  valid_binary 24 128 y = true ->
  ∃ s b f, F32.to_bits y = F32.sign_bit s + b * 8388608 + f
           ∧ b < 256 ∧ f < 8388608
           ∧ match y with
             | S754_zero s' => s' = s ∧ b = 0 ∧ f = 0
             | S754_infinity s' => s' = s ∧ b = 255 ∧ f = 0
             | S754_nan => b = 255 ∧ f ≠ 0
             | S754_finite s' m e =>
                 s' = s
                 ∧ ((b = 0 ∧ f = N.pos m ∧ e = (-149)%Z)
                    ∨ (0 < b < 255 ∧ f + 8388608 = N.pos m
                       ∧ e = (Z.of_N b - 150)%Z))
             end.
Proof.
  destruct y as [s|s| |s m e]; cbn [valid_binary F32.to_bits].
  - intros _. exists s, 0, 0. repeat split; lia.
  - intros _. exists s, 255, 0. repeat split; lia.
  - intros _. exists false, 255, 4194304. repeat split; try done; lia.
  - intros Hb. pose proof (binary32_canonical m e Hb) as (He & Hd & Hsub).
    pose proof (digits2_bounds m) as [Hlo Hhi].
    unfold F32.prec. destruct (Z.eqb_spec (Z.pos (digits2_pos m)) 24) as [Heq|Hne].
    + rewrite Heq in Hlo, Hhi. change (2 ^ (24 - 1))%Z with 8388608%Z in Hlo.
      change (2 ^ 24)%Z with 16777216%Z in Hhi.
      exists s, (Z.to_N (e + 150)), (N.pos m - 8388608).
      split; [done|]. split; [lia|]. split; [lia|]. split; [done|].
      right. split; [lia|]. split; lia.
    + assert (Z.pos (digits2_pos m) - 1 < 23)%Z as Hd1 by lia.
      assert (2 ^ Z.pos (digits2_pos m) <= 2 ^ 23)%Z as Hp
        by (apply Z.pow_le_mono_r; lia).
      change (2 ^ 23)%Z with 8388608%Z in Hp.
      exists s, 0, (N.pos m). split; [lia|]. split; [lia|]. split; [lia|].
      split; [done|]. left. split; [done|]. split; [done|]. apply Hsub. lia.
Qed.

Lemma to_bits_bound y :
  valid_binary 24 128 y = true -> F32.to_bits y < 4294967296.
Proof.
  intros (s & b & f & -> & Hb & Hf & _)%to_bits_fields.
  unfold F32.sign_bit. destruct s; lia.
Qed.

(** Decoding the bits of a float32 gives the float32 back. *)
Lemma of_bits_to_bits y :
  valid_binary 24 128 y = true -> F32.of_bits (F32.to_bits y) = y.
Proof.
  intros (s & b & f & -> & Hb & Hf & Hy)%to_bits_fields.
  destruct (of_bits_fields s b f Hb Hf) as (Hs & He & Hfr).
  unfold F32.of_bits. rewrite Hs, He, Hfr.
  destruct y as [s'|s'| |s' m e].
  - by destruct Hy as (-> & -> & ->).
  - by destruct Hy as (-> & -> & ->).
  - destruct Hy as (-> & Hne). cbn. by destruct (N.eqb_spec f 0).
  - destruct Hy as (-> & [(-> & -> & ->)|(Hbr & Hm & ->)]); [done|].
    destruct (N.eqb_spec b 0); [lia|]. destruct (N.eqb_spec b 255); [lia|].
    by rewrite Hm.
Qed.

End BitsFacts.

Section CodecFacts.

Implicit Types (v : list spec_float) (x : spec_float).

Lemma groups_flat_map {A B} (f : A -> list B) (n : nat) (l : list A) fuel :
  (∀ a, length (f a) = S n) ->
  (length (flat_map f l) <= fuel)%nat ->
  groups fuel (S n) (flat_map f l) = map f l.
Proof.
  intros Hf. revert fuel. induction l as [|a l IH]; intros fuel Hfuel.
  - by destruct fuel.
  - cbn [flat_map map] in *. rewrite length_app, Hf in Hfuel.
    destruct fuel as [|fuel]; [lia|].
    destruct (f a) as [|y ys] eqn:Hfx; [by specialize (Hf a); rewrite Hfx in Hf|].
    cbn [groups app]. rewrite <- Hfx.
    change (y :: ys ++ flat_map f l) with ((y :: ys) ++ flat_map f l).
    rewrite <- Hfx.
    rewrite take_app_length' by (symmetry; apply Hf).
    rewrite drop_app_length' by (symmetry; apply Hf).
    f_equal. apply IH. lia.
Qed.

Lemma serialize_length v : length (_serialize_emb v) = (4 * length v)%nat.
Proof.
  unfold _serialize_emb. induction v as [|x v IH]; [done|].
  cbn [flat_map]. rewrite length_app, IH, le_bytes_length. cbn [length]. lia.
Qed.

(** Decoding an encoded vector gives each component rounded to float32
    and widened back. *)
Lemma deserialize_serialize v :
  _deserialize_emb (_serialize_emb v)
  = Ok (map (fun x => F32.to_float (F32.of_float x)) v).
Proof.
  unfold _deserialize_emb. rewrite serialize_length.
  replace (4 * length v mod 4)%nat with 0%nat
    by (symmetry; rewrite Nat.mul_comm; apply Nat.Div0.mod_mul).
  cbn [Nat.eqb]. f_equal. unfold _serialize_emb.
  rewrite (groups_flat_map _ 3) by (done || by rewrite <- serialize_length).
  rewrite map_map. apply map_ext. intros x.
  rewrite le_word_bytes by apply to_bits_bound, of_float_valid.
  by rewrite of_bits_to_bits by apply of_float_valid.
Qed.

End CodecFacts.


(** ** Precision of the round trip *)

Section PrecisionFacts.

Local Open Scope Z_scope.

Implicit Types (m p : positive) (z e E : Z) (s : bool) (x : spec_float).

Lemma binary64_canonical m e :
  bounded 53 1024 m e = true -> -1074 <= e ∧ Z.pos (digits2_pos m) <= 53.
Proof.
  unfold bounded, canonical_mantissa, fexp, emin.
  rewrite andb_true_iff, Z.eqb_eq, Z.leb_le. lia.
Qed.

(** The scaled value of a rounded number after widening. *)
Lemma scaled_to_float_pack s z E :
  valid_binary 24 128 (round_pack 24 128 s z E) = true ->
  0 <= z -> (0 < z -> E <= 104) ->
  f64_scaled (F32.to_float (round_pack 24 128 s z E))
  = Some (cond_Zopp s (z * 2 ^ (E + 1074))).
Proof.
  intros Hvalid Hz HE. unfold round_pack in *.
  destruct z as [|p|p]; try lia.
  - cbn. by destruct s.
  - specialize (HE ltac:(lia)).
    destruct (Z.leb_spec E (128 - 24)); [|lia]. cbn [valid_binary] in Hvalid.
    destruct (to_float_finite s p E Hvalid) as (p' & -> & Hp' & _).
    apply binary32_canonical in Hvalid as (HEr & Hd & _).
    cbn [f64_scaled]. do 2 f_equal. rewrite Hp', <- Z.mul_assoc.
    rewrite <- Z.pow_add_r by lia. do 2 f_equal. lia.
Qed.

(** Rounding a quotient down when the remainder is at most half the
    divisor, and up when it is at least half, moves the number by at
    most half the divisor. *)
Lemma half_unit_error A S N2 q r :
  0 < S -> 0 < N2 -> A = q * N2 + r -> 0 <= r < N2 ->
  (2 * r <= N2 -> 2 * Z.abs (A * S - q * (N2 * S)) <= N2 * S)
  ∧ (N2 <= 2 * r -> 2 * Z.abs (A * S - (q + 1) * (N2 * S)) <= N2 * S).
Proof.
  intros HS HN -> Hr. split; intros Hhalf.
  - replace ((q * N2 + r) * S - q * (N2 * S)) with (r * S) by ring.
    rewrite Z.abs_eq by (apply Z.mul_nonneg_nonneg; lia).
    rewrite Z.mul_assoc. apply Z.mul_le_mono_nonneg_r; lia.
  - replace ((q * N2 + r) * S - (q + 1) * (N2 * S)) with (- ((N2 - r) * S)) by ring.
    rewrite Z.abs_opp, Z.abs_eq by (apply Z.mul_nonneg_nonneg; lia).
    rewrite Z.mul_assoc. apply Z.mul_le_mono_nonneg_r; lia.
Qed.

(** Rounding a float of float32 range to float32 moves it by at most
    half a unit in the last place. *)
Lemma round_model_precision s m e :
  -1074 <= e ->
  Z.pos m * 2 ^ (e + 1074) <= (2 ^ 24 - 1) * 2 ^ 1178 ->
  ∃ b, f64_scaled (F32.to_float (round_model 24 128 s m e))
       = Some (cond_Zopp s b)
       ∧ 0 <= b
       ∧ 2 ^ 24 * Z.abs (Z.pos m * 2 ^ (e + 1074) - b)
         <= Z.max (Z.pos m * 2 ^ (e + 1074)) (2 ^ 948).
Proof.
  intros He Hrange.
  pose proof (round_model_valid 24 128 ltac:(lia) s m e) as Hvalid.
  unfold round_model in *.
  pose proof (digits2_bounds m) as [Hlo Hhi].
  set (d := Z.pos (digits2_pos m)) in *.
  set (E := Z.max (d + e - 24) (3 - 128 - 24)) in *.
  set (A := Z.pos m) in *. set (S := 2 ^ (e + 1074)) in *.
  assert (0 < d) as Hd by (unfold d; lia).
  assert (0 < A) as HApos by (unfold A; lia).
  assert (E = Z.max (d + e - 24) (-149)) as HEdef by (unfold E; lia).
  clearbody E d A.
  assert (0 < S) as HS by (apply Z.pow_pos_nonneg; lia).
  assert (0 < 2 ^ (d - 1)) as HD by (apply Z.pow_pos_nonneg; lia).
  assert (2 ^ (E + 1074) * 2 ^ 23 <= Z.max (A * S) (2 ^ 948)) as Hulp.
  { destruct (Z.eq_dec E (-149)) as [->|Hn]; [cbn; lia|].
    assert (E = d + e - 24) as -> by lia.
    rewrite <- Z.pow_add_r by lia.
    replace (d + e - 24 + 1074 + 23) with (d - 1 + (e + 1074)) by lia.
    rewrite Z.pow_add_r by lia. fold S.
    etrans; [|apply Z.le_max_l]. apply Z.mul_le_mono_nonneg_r; lia. }
  assert (105 <= E -> False) as Hbig.
  { intros HE. assert (E = d + e - 24) as HEd by lia.
    assert (2 ^ 1202 <= 2 ^ (d - 1 + (e + 1074))) as Hp
      by (apply Z.pow_le_mono_r; lia).
    rewrite Z.pow_add_r in Hp by lia. fold S in Hp.
    assert (2 ^ (d - 1) * S <= A * S)
      by (apply Z.mul_le_mono_nonneg_r; lia).
    change (2 ^ 1202) with (2 ^ 24 * 2 ^ 1178) in Hp.
    pose proof (Z.pow_pos_nonneg 2 1178 ltac:(lia) ltac:(lia)). lia. }
  destruct (Z.leb_spec E e) as [Hle|Hgt].
  - exists (A * S).
    assert (0 <= A * S) as HAS by (apply Z.mul_nonneg_nonneg; lia).
    assert (0 <= A * 2 ^ (e - E))
      by (apply Z.mul_nonneg_nonneg; [lia|apply Z.pow_nonneg; lia]).
    rewrite scaled_to_float_pack; [|done|done|lia].
    split; [|split; [done|]].
    + do 2 f_equal. rewrite <- Z.mul_assoc, <- Z.pow_add_r by lia.
      unfold S. do 2 f_equal. lia.
    + rewrite Z.sub_diag. cbn [Z.abs]. lia.
  - set (n := E - e) in *. set (q := A / 2 ^ n) in *. set (r := A mod 2 ^ n) in *.
    set (q' := if round_up n q r then q + 1 else q) in *.
    set (T := 2 ^ (E + 1074)) in *.
    assert (0 < 2 ^ n) as HN by (apply Z.pow_pos_nonneg; lia).
    assert (T = 2 ^ n * S) as HT.
    { unfold T, S. rewrite <- Z.pow_add_r by lia. f_equal. lia. }
    assert (A = q * 2 ^ n + r ∧ 0 <= r < 2 ^ n) as [HA Hr].
    { unfold q, r. pose proof (Z.div_mod A (2 ^ n) ltac:(lia)).
      pose proof (Z.mod_pos_bound A (2 ^ n) HN). lia. }
    assert (0 <= q) as Hq by (apply Z.div_pos; lia).
    destruct (half_unit_error A S (2 ^ n) q r HS HN HA Hr) as [Hdown Hup].
    rewrite <- HT in Hdown, Hup.
    assert (0 <= q' ∧ 2 * Z.abs (A * S - q' * T) <= T) as [Hq' Herr].
    { unfold q', round_up.
      destruct (Z.ltb_spec (2 ^ n) (2 * r)) as [H1|H1]; cbn [orb].
      - split; [lia|]. apply Hup. lia.
      - destruct (Z.eqb_spec (2 ^ n) (2 * r)) as [H2|H2]; cbn [andb].
        + destruct (Z.odd q); (split; [lia|]); [apply Hup|apply Hdown]; lia.
        + split; [lia|]. apply Hdown. lia. }
    assert (0 < T) as HTpos by (apply Z.pow_pos_nonneg; lia).
    assert (0 <= q' * T) as Hb by (apply Z.mul_nonneg_nonneg; lia).
    assert (2 ^ 24 * Z.abs (A * S - q' * T) <= Z.max (A * S) (2 ^ 948)) as Hgoal.
    { eapply Z.le_trans; [|exact Hulp]. fold T.
      change (2 ^ 24) with (2 * 2 ^ 23).
      replace (2 * 2 ^ 23 * Z.abs (A * S - q' * T))
        with (2 * Z.abs (A * S - q' * T) * 2 ^ 23) by ring.
      apply Z.mul_le_mono_nonneg_r; lia. }
    destruct (Z.eqb_spec q' (2 ^ 24)) as [Heq|Hne].
    + exists (q' * T).
      rewrite scaled_to_float_pack; [|done|lia|].
      * split; [|split; [done|done]]. do 2 f_equal. rewrite Heq.
        change (2 ^ (24 - 1)) with (2 ^ 23).
        replace (E + 1 + 1074) with (1 + (E + 1074)) by lia.
        rewrite Z.pow_add_r by lia. fold T. lia.
      * intros _. destruct (Z.le_gt_cases 104 E) as [HE|]; [|lia]. exfalso.
        assert (2 ^ 1178 <= T) as HTlo by (apply Z.pow_le_mono_r; lia).
        rewrite Heq in Herr.
        pose proof (Z.pow_pos_nonneg 2 1178 ltac:(lia) ltac:(lia)).
        change (2 ^ 24) with 16777216 in *. lia.
    + exists (q' * T).
      rewrite scaled_to_float_pack; [|done|lia|].
      * split; [done|]. split; [done|done].
      * intros _. destruct (Z.le_gt_cases 105 E) as [HE|]; [|lia].
        by destruct (Hbig HE).
Qed.


(** A Python float of float32 range comes back within float32
    precision. *)
Lemma round_trip_precision x :
  is_python_float x -> f32_in_range x ->
  within_f32_precision x (F32.to_float (F32.of_float x)).
Proof.
  unfold is_python_float, f32_in_range, within_f32_precision.
  destruct x as [s|s| |s m e]; try done.
  cbn [valid_binary f64_scaled F32.of_float]. intros [He _]%binary64_canonical.
  unfold F32.prec, F32.emax. rewrite binary_round_model by lia.
  assert (0 < Z.pos m * 2 ^ (e + 1074)) as Hpos
    by (apply Z.mul_pos_pos; [lia|apply Z.pow_pos_nonneg; lia]).
  intros Hrange.
  destruct (round_model_precision s m e He) as (b & -> & Hb & Hclose).
  { destruct s; cbn [cond_Zopp] in Hrange; lia. }
  destruct s; cbn [cond_Zopp] in *; lia.
Qed.

(** A float32-representable Python float comes back unchanged. *)
Lemma round_trip_exact x :
  f32_representable x -> F32.to_float (F32.of_float x) = x.
Proof. intros (y & Hy & <-). by rewrite of_float_to_float. Qed.

End PrecisionFacts.

(** C5, for components of float32 range.  For every vector [v] of
    Python floats, decoding the encoded vector succeeds and gives a
    vector of the same length whose components are those of [v] rounded
    to the nearest float32 (ties to even; beyond the largest float32
    this is an infinity).  A component of magnitude at most the largest
    float32 comes back within float32 precision,
    [|x - y| <= max (|x| * 2 ^ -24) (2 ^ -150)], and a component that is
    the value of a float32 comes back unchanged.  The empty vector
    comes back empty. *)
Theorem codec_round_trip (v : list spec_float) :
  Forall is_python_float v ->
  (∃ v', _deserialize_emb (_serialize_emb v) = Ok v'
         ∧ length v' = length v
         ∧ Forall2 (fun x y =>
                      y = F32.to_float (F32.of_float x)
                      ∧ (f32_in_range x -> within_f32_precision x y)
                      ∧ (f32_representable x -> y = x)) v v')
  ∧ _deserialize_emb (_serialize_emb []) = Ok [].
Proof.
  intros Hv. split; [|done].
  exists (map (fun x => F32.to_float (F32.of_float x)) v).
  split; [apply deserialize_serialize|]. split; [apply length_map|].
  induction Hv as [|x v Hx _ IH]; [constructor|].
  cbn [map]. constructor; [|exact IH].
  split; [done|]. split.
  - by apply round_trip_precision.
  - apply round_trip_exact.
Qed.

Lemma codec_round_trip_witness :
  (∃ v', _deserialize_emb (_serialize_emb wit_vec) = Ok v'
         ∧ length v' = length wit_vec
         ∧ Forall2 (fun x y =>
                      y = F32.to_float (F32.of_float x)
                      ∧ (f32_in_range x -> within_f32_precision x y)
                      ∧ (f32_representable x -> y = x)) wit_vec v')
  ∧ _deserialize_emb (_serialize_emb []) = Ok [].
Proof.
  apply (codec_round_trip wit_vec).
  repeat constructor.
Defined.

Example codec_example : _deserialize_emb (_serialize_emb wit_vec) = Ok wit_vec32.
Proof. vm_compute. reflexivity. Qed.

Example codec_overflow_example :
  _deserialize_emb (_serialize_emb [huge_float]) = Ok [S754_infinity false].
Proof. vm_compute. reflexivity. Qed.

(** C5 as stated fails beyond the float32 range: the Python float
    [1e300] comes back as an infinity, which is not within float32
    precision of it. *)
Lemma codec_overflow_not_close :
  ¬ (∀ v : list spec_float,
       Forall is_python_float v ->
       ∃ v', _deserialize_emb (_serialize_emb v) = Ok v'
             ∧ length v' = length v
             ∧ Forall2 within_f32_precision v v').
Proof.
  intros H. destruct (H [huge_float]) as (v' & Hv' & _ & Hclose).
  - by repeat constructor.
  - rewrite codec_overflow_example in Hv'. injection Hv' as <-.
    apply Forall2_cons in Hclose as [Hbad _]. exact Hbad.
Qed.

(** ** Invariants of the table *)

Section Invariants.

Variables MAX_ENTRIES TTL_SECONDS : Z.

Implicit Types (db : list row) (text model : list N).

Lemma table_ok_filter (P : row -> Prop) `{!∀ r, Decision (P r)} db :
  table_ok db -> table_ok (filter P db).
Proof.
  intros [Hwf Hblobs]. split; [by apply table_wf_filter|].
  unfold blobs_ok in *. rewrite Forall_forall in *.
  intros r [_ Hr]%list_elem_of_filter. by apply Hblobs.
Qed.

Lemma table_ok_insert text model k vec now db :
  table_ok db ->
  table_ok (Sql.insert_or_replace (new_row text model k vec now) db).
Proof.
  intros [Hwf Hblobs]. split; [by apply insert_or_replace_wf|].
  unfold blobs_ok in *. rewrite Forall_forall in *.
  intros r [->|[Hr _]]%insert_or_replace_elem; [|by apply Hblobs].
  cbn [emb new_row]. rewrite serialize_length, Nat.mul_comm.
  apply Nat.Div0.mod_mul.
Qed.

Lemma table_ok_empty : table_ok [].
Proof. split; [apply NoDup_nil_2|constructor]. Qed.

(** Every operation keeps the invariants, so every table the cache
    builds from the empty one has them. *)
Lemma put_table_ok text model vec now db :
  table_ok db ->
  table_ok (put_embedding_in_cache MAX_ENTRIES text model vec now db).2.
Proof.
  intros Hok. unfold put_embedding_in_cache.
  destruct (_make_key text model) as [k|e]; [|done].
  fold (new_row text model k vec now).
  pose proof (table_ok_insert text model k vec now db Hok) as Hins.
  destruct (_ <? _)%Z; [|done].
  destruct (eviction_cutoff MAX_ENTRIES); [|done].
  by apply table_ok_filter.
Qed.

Lemma get_table_ok text model now db :
  table_ok db ->
  table_ok (get_embedding_from_cache TTL_SECONDS text model now db).2.
Proof.
  intros Hok. unfold get_embedding_from_cache.
  destruct (_make_key text model) as [k|e]; [|done].
  destruct (Sql.select_by_key k db) as [r|]; [|done].
  destruct (is_expired _ _ _); [|done]. by apply table_ok_filter.
Qed.

Lemma batch_table_ok texts model now db :
  table_ok db ->
  table_ok (batch_get_embeddings TTL_SECONDS texts model now db).2.
Proof.
  intros Hok. unfold batch_get_embeddings, batch_get_embeddings_with.
  destruct texts as [|t texts]; [done|].
  destruct (rmap _ _) as [keys|e]; [|done].
  destruct (rfold _ _ _) as [[found expired_keys]|e]; [|done].
  destruct (decide (expired_keys = ∅)); [done|].
  destruct (Sql.bindable _ _); [|done]. by apply table_ok_filter.
Qed.

End Invariants.

(** The cache hit of the specification: after
    [put("Ha Long Bay", "m1", [0.1, 0.2, 0.3])] the lookup with the
    same model gives the vector back as float32 values, and the lookup
    with another model gives nothing. *)
Example cache_hit_example :
  let db := (put_embedding_in_cache Config.MAX_ENTRIES wit_text wit_model wit_vec
               1000 []).2 in
  get_embedding_from_cache Config.TTL_SECONDS wit_text wit_model 2000 db
  = (Ok (Some wit_vec32), db)
  ∧ get_embedding_from_cache Config.TTL_SECONDS wit_text (of_string "m2") 2000 db
    = (Ok None, db).
Proof. vm_compute. split; reflexivity. Qed.

(** * Further properties of the cache

    Properties of [emb_cache.py] beyond the ones above: how the
    operations compose, how they fail, and what every table they build
    satisfies. *)

(** ** The eviction cutoff [int(MAX_ENTRIES * 0.9)] for any cap *)

Section Cutoff.

Local Open Scope Z_scope.

Implicit Types (p m : positive) (M a q R P d g n : Z).

(** The arithmetic of the product: [P = M * a * c] with
    [10 * c = 9 * T + 2], divided by [N2], rounded to [q'] and then
    divided by [G], is [floor (9 * M / 10)] when the error terms stay
    below [a * T = N2 * G]. *)
Lemma cutoff_arith M a c T N2 G P q q' R :
  0 <= M -> 0 < a -> 0 < T -> 0 < N2 -> 0 < G ->
  P = M * a * c -> 10 * c = 9 * T + 2 -> N2 * G = a * T ->
  q * N2 <= P < (q + 1) * N2 ->
  q <= q' <= q + 1 ->
  R * G <= q' < (R + 1) * G ->
  2 * (M * a) + 10 * N2 < a * T ->
  R = M * 9 / 10.
Proof.
  intros HM Ha HT HN HG HP Hc HNG [Hq1 Hq2] [Hq3 Hq4] [HR1 HR2] Hsmall.
  set (Y := a * T) in *. set (X := M * a) in *.
  assert (0 <= X) as HX by (apply Z.mul_nonneg_nonneg; lia).
  assert (0 < Y) as HY by (apply Z.mul_pos_pos; lia).
  assert (10 * P = 9 * M * Y + 2 * X) as HP10.
  { subst P X Y.
    replace (10 * (M * a * c)) with (M * a * (10 * c)) by ring.
    rewrite Hc. ring. }
  assert (P < (R + 1) * Y) as Hup.
  { eapply Z.lt_le_trans; [exact Hq2|].
    replace ((R + 1) * Y) with ((R + 1) * G * N2) by (rewrite <- HNG; ring).
    apply Z.mul_le_mono_nonneg_r; lia. }
  assert (R * Y <= P + N2) as Hlo.
  { replace (R * Y) with (R * G * N2) by (rewrite <- HNG; ring).
    transitivity ((q + 1) * N2); [apply Z.mul_le_mono_nonneg_r; lia|lia]. }
  assert (9 * M < 10 * (R + 1)) as H1.
  { apply (Z.mul_lt_mono_pos_r Y); [done|].
    replace (9 * M * Y) with (10 * P - 2 * X) by lia.
    replace (10 * (R + 1) * Y) with (10 * ((R + 1) * Y)) by ring. lia. }
  assert (10 * R < 9 * M + 1) as H2.
  { apply (Z.mul_lt_mono_pos_r Y); [done|].
    replace (10 * R * Y) with (10 * (R * Y)) by ring.
    replace ((9 * M + 1) * Y) with (9 * M * Y + Y) by ring. lia. }
  apply (Z.div_unique_pos _ _ _ (M * 9 - 10 * R)); lia.
Qed.

Lemma to_int_pack z E :
  0 < z -> E < 0 ->
  F64.to_int (round_pack 53 1024 false z E) = Ok (z / 2 ^ (- E)).
Proof.
  intros Hz HE. destruct z as [|p|p]; try lia. unfold round_pack.
  destruct (Z.leb_spec E (1024 - 53)); [|lia]. cbn [F64.to_int cond_Zopp].
  by destruct (Z.leb_spec 0 E); [lia|].
Qed.

Lemma of_int_small p :
  Z.pos p < 2 ^ 53 ->
  ∃ m, F64.of_int (Z.pos p)
       = Ok (S754_finite false m (Z.pos (digits2_pos p) - 53))
       ∧ Z.pos m = Z.pos p * 2 ^ (53 - Z.pos (digits2_pos p))
       ∧ 2 ^ 52 <= Z.pos m < 2 ^ 53.
Proof.
  intros Hp. unfold F64.of_int, binary_normalize, F64.prec, F64.emax.
  rewrite binary_round_model by lia. unfold round_model.
  pose proof (digits2_bounds p) as [Hlo Hhi].
  set (d := Z.pos (digits2_pos p)) in *.
  assert (d <= 53) as Hd.
  { assert (d - 1 < 53); [|lia]. apply pow2_lt_inv; lia. }
  replace (Z.max (d + 0 - 53) (3 - 1024 - 53)) with (d - 53) by lia.
  destruct (Z.leb_spec (d - 53) 0); [|lia].
  replace (0 - (d - 53)) with (53 - d) by lia.
  pose proof (Z.pow_pos_nonneg 2 (53 - d) ltac:(lia) ltac:(lia)).
  assert (2 ^ 52 <= Z.pos p * 2 ^ (53 - d) < 2 ^ 53) as Hb.
  { replace (2 ^ 52) with (2 ^ (d - 1) * 2 ^ (53 - d))
      by (rewrite <- Z.pow_add_r by lia; f_equal; lia).
    replace (2 ^ 53) with (2 ^ d * 2 ^ (53 - d))
      by (rewrite <- Z.pow_add_r by lia; f_equal; lia).
    split; [apply Z.mul_le_mono_nonneg_r; lia|apply Z.mul_lt_mono_pos_r; lia]. }
  destruct (Z.pos p * 2 ^ (53 - d)) as [|m|m] eqn:Hm; try lia.
  unfold round_pack. destruct (Z.leb_spec (d - 53) (1024 - 53)); [|lia].
  by exists m.
Qed.

Lemma cutoff_pos p :
  Z.pos p < 2 ^ 48 -> eviction_cutoff (Z.pos p) = Ok (Z.pos p * 9 / 10).
Proof.
  intros Hp. unfold eviction_cutoff.
  destruct (of_int_small p) as (m & -> & Hm & Hmb); [lia|].
  cbn [mbind result_bind]. unfold F64.mul, F64.lit_0_9, SFmul, F64.prec, F64.emax.
  cbn [xorb].
  pose proof (digits2_bounds p) as [Hlo Hhi].
  set (d := Z.pos (digits2_pos p)) in *.
  assert (1 <= d <= 48) as Hd.
  { split; [subst d; lia|]. assert (d - 1 < 48); [|lia]. apply pow2_lt_inv; lia. }
  set (c := 8106479329266893%positive).
  pose (P := Z.pos (m * c)).
  assert (P = Z.pos m * Z.pos c) as HP by (subst P; lia).
  assert (2 ^ 104 <= P < 2 ^ 106) as HPb by (subst c; lia).
  assert (∃ dP, 105 <= dP <= 106 ∧ Zdigits2 P = dP ∧ 2 ^ (dP - 1) <= P < 2 ^ dP)
    as (dP & HdP & HdigP & HPd).
  { destruct (Z.lt_ge_cases P (2 ^ 105)).
    - exists 105. split; [lia|]. split; [|lia]. apply digits2_unique; lia.
    - exists 106. split; [lia|]. split; [|lia]. apply digits2_unique; lia. }
  set (n := dP - 53). set (g := 159 - d - dP).
  rewrite (round_aux_shift 53 1024 ltac:(lia) false (m * c) (d - 53 + -53) n).
  2:{ change (Z.pos (digits2_pos (m * c))) with (Zdigits2 P). rewrite HdigP.
      unfold fexp, emin. subst n. lia. }
  2:{ subst n. lia. }
  cbv zeta. fold P.
  set (q := P / 2 ^ n). set (r := P mod 2 ^ n).
  set (q' := if round_up n q r then q + 1 else q).
  pose proof (Z.pow_pos_nonneg 2 n ltac:(lia) ltac:(subst n; lia)) as HN2.
  pose proof (Z.pow_pos_nonneg 2 g ltac:(lia) ltac:(subst g; lia)) as HG.
  assert (q * 2 ^ n <= P < (q + 1) * 2 ^ n) as Hq.
  { subst q. pose proof (Z.mul_div_le P (2 ^ n) HN2).
    pose proof (Z.mul_succ_div_gt P (2 ^ n) HN2). lia. }
  assert (q <= q' <= q + 1) as Hq' by (subst q'; destruct (round_up n q r); lia).
  assert (2 ^ 52 <= q) as Hqlo.
  { subst q. apply Z.div_le_lower_bound; [lia|].
    rewrite <- Z.pow_add_r by (subst n; lia).
    replace (n + 52) with (dP - 1) by (subst n; lia). lia. }
  assert (F64.to_int
            (if q' =? 2 ^ 53
             then round_pack 53 1024 false (2 ^ (53 - 1)) (d - 53 + -53 + n + 1)
             else round_pack 53 1024 false q' (d - 53 + -53 + n))
          = Ok (q' / 2 ^ g)) as ->.
  { destruct (Z.eqb_spec q' (2 ^ 53)) as [Hcarry|_].
    - rewrite to_int_pack by (subst n; lia). f_equal.
      replace (- (d - 53 + -53 + n + 1)) with (g - 1) by (subst n g; lia).
      rewrite Hcarry.
      replace (2 ^ 53) with (2 ^ (53 - 1) * 2) by done.
      assert (2 ^ g = 2 ^ (g - 1) * 2) as ->.
      { replace (2 ^ g) with (2 ^ (g - 1 + 1)) by (f_equal; lia).
        rewrite Z.pow_add_r by (subst g; lia). done. }
      rewrite Z.div_mul_cancel_r; [done| |lia].
      apply Z.pow_nonzero; subst g; lia.
    - rewrite to_int_pack by (subst n; lia). f_equal. f_equal. f_equal.
      subst n g. lia. }
  f_equal.
  apply (cutoff_arith (Z.pos p) (2 ^ (53 - d)) (Z.pos c) (2 ^ 53) (2 ^ n) (2 ^ g)
           P q q').
  - lia.
  - apply Z.pow_pos_nonneg; lia.
  - lia.
  - done.
  - done.
  - rewrite HP, Hm. ring.
  - done.
  - rewrite <- !Z.pow_add_r by (subst n g; lia). f_equal. subst n g. lia.
  - done.
  - done.
  - pose proof (Z.mul_div_le q' (2 ^ g) HG).
    pose proof (Z.mul_succ_div_gt q' (2 ^ g) HG). lia.
  - rewrite <- Hm.
    assert (2 ^ n <= 2 ^ 53) by (apply Z.pow_le_mono_r; subst n; lia).
    assert (2 ^ 5 <= 2 ^ (53 - d)) by (apply Z.pow_le_mono_r; lia).
    assert (2 ^ 5 * 2 ^ 53 <= 2 ^ (53 - d) * 2 ^ 53)
      by (apply Z.mul_le_mono_nonneg_r; lia).
    lia.
Qed.

Lemma cutoff_any M :
  0 <= M < 2 ^ 48 -> eviction_cutoff M = Ok (M * 9 / 10).
Proof.
  intros [H0 H1]. destruct M as [|p|p]; [done|by apply cutoff_pos|lia].
Qed.

End Cutoff.

(** X6. The eviction cutoff for any cap.  For every [MAX_ENTRIES] from
    0 up to [2 ^ 48] the float computation [int(MAX_ENTRIES * 0.9)]
    gives exactly [floor(9 * MAX_ENTRIES / 10)], a number between 0 and
    the cap; so a write fails only when its key cannot be derived,
    whatever the size of the table. *)
Theorem eviction_cutoff_any_cap (MAX_ENTRIES : Z) :
  (0 <= MAX_ENTRIES < 2 ^ 48)%Z ->
  eviction_cutoff MAX_ENTRIES = Ok (MAX_ENTRIES * 9 / 10)%Z
  ∧ (0 <= MAX_ENTRIES * 9 / 10 <= MAX_ENTRIES)%Z
  ∧ ∀ text model vec now db,
      (put_embedding_in_cache MAX_ENTRIES text model vec now db).1
      = (_ ← _make_key text model ; Ok ()).
Proof.
  intros Hcap. pose proof (cutoff_any MAX_ENTRIES Hcap) as Hcut.
  split; [done|]. split; [lia_div|].
  intros text model vec now db. unfold put_embedding_in_cache. rewrite Hcut.
  destruct (_make_key text model); [|done]. cbn.
  by destruct (_ <? _)%Z.
Qed.

Lemma eviction_cutoff_any_cap_witness :
  eviction_cutoff 1000003 = Ok (1000003 * 9 / 10)%Z
  ∧ (0 <= 1000003 * 9 / 10 <= 1000003)%Z
  ∧ ∀ text model vec now db,
      (put_embedding_in_cache 1000003 text model vec now db).1
      = (_ ← _make_key text model ; Ok ()).
Proof. apply (eviction_cutoff_any_cap 1000003). lia. Defined.

(** Beyond the range: at this cap above [2 ^ 50] the product is
    rounded up to the next integer, one more than
    [floor(9 * MAX_ENTRIES / 10)]. *)
Example cutoff_beyond_range :
  eviction_cutoff 1250999896491811 = Ok 1125899906842630%Z
  ∧ (1250999896491811 * 9 / 10 = 1125899906842629)%Z.
Proof. vm_compute. split; reflexivity. Qed.

(** ** Writes *)

Section CacheCompose.

Implicit Types (db : list row) (r : row) (k text model : list N).

Lemma make_key_normal_form t1 t2 m :
  normalize t1 = normalize t2 -> _make_key t1 m = _make_key t2 m.
Proof. intros Heq. rewrite !make_key_unfold. unfold prehash. by rewrite Heq. Qed.

Lemma insert_or_replace_count r db :
  (Sql.count (Sql.insert_or_replace r db) <= Sql.count db + 1)%Z.
Proof.
  unfold Sql.count, Sql.insert_or_replace. rewrite length_app. simpl.
  pose proof (length_filter (fun r' => key r' ≠ key r) db). lia.
Qed.

Lemma insert_or_replace_twice r1 r2 db :
  key r1 = key r2 ->
  Sql.insert_or_replace r2 (Sql.insert_or_replace r1 db)
  = Sql.insert_or_replace r2 db.
Proof.
  intros Hk. unfold Sql.insert_or_replace. rewrite filter_app, Hk.
  rewrite list_filter_filter_r by done.
  rewrite filter_cons_False, filter_nil by (by intros []).
  by rewrite app_nil_r.
Qed.

Lemma is_expired_fresh TTL_SECONDS now now' :
  (now' - now <= TTL_SECONDS)%Z -> is_expired TTL_SECONDS now' now = false.
Proof.
  intros H. unfold is_expired. apply andb_false_iff. right.
  apply Z.ltb_ge. lia.
Qed.

Lemma table_wf_sublist db db' : db' `sublist_of` db -> table_wf db -> table_wf db'.
Proof.
  unfold table_wf. intros Hs Hn.
  eapply sublist_NoDup; [done|by apply fmap_sublist].
Qed.

End CacheCompose.

Section PutMore.

Implicit Types (db : list row) (r : row) (k : list N).

Lemma select_other_key r db k :
  key r ≠ k ->
  Sql.select_by_key k (Sql.insert_or_replace r db) = Sql.select_by_key k db.
Proof.
  intros Hne. unfold Sql.select_by_key, Sql.insert_or_replace.
  rewrite filter_app, filter_cons_False, filter_nil, app_nil_r by done.
  rewrite list_filter_filter. f_equal. apply list_filter_iff.
  intros r'. split; [by intros [? _]|]. intros Hk. split; [done|]. congruence.
Qed.

End PutMore.

(** X1. A vector written by [put_embedding_in_cache] is read back by
    [get_embedding_from_cache] for the same model and any text with the
    same whitespace-normal form, as long as the record is not older
    than [TTL_SECONDS]: the lookup returns the vector rounded to
    float32 and leaves the table as the write left it.  The write must
    not evict its own record, which holds when the table was below the
    cap or every other record is older. *)
Theorem put_then_get (text text' model k : list N) (vec : list spec_float)
    (now now' : Z) (db : list row) :
  table_wf db ->
  _make_key text model = Ok k ->
  normalize text' = normalize text ->
  (Sql.count db < Config.MAX_ENTRIES)%Z
  ∨ (∀ r, r ∈ db -> key r ≠ k -> (created_at r < now)%Z) ->
  (now' - now <= Config.TTL_SECONDS)%Z ->
  ∃ db1,
    put_embedding_in_cache Config.MAX_ENTRIES text model vec now db = (Ok (), db1)
    ∧ get_embedding_from_cache Config.TTL_SECONDS text' model now' db1
      = (Ok (Some (map (fun x => F32.to_float (F32.of_float x)) vec)), db1).
Proof.
  intros Hwf Hk Hnorm Hroom Hfresh.
  set (new := new_row text model k vec now).
  assert (∃ db1, put_embedding_in_cache Config.MAX_ENTRIES text model vec now db
                 = (Ok (), db1) ∧ new ∈ db1 ∧ table_wf db1)
    as (db1 & Hput & Hnew & Hwf1).
  { destruct Hroom as [Hlt|Hold].
    - exists (Sql.insert_or_replace new db). split; [|split].
      + apply put_no_eviction; [done|].
        pose proof (insert_or_replace_count new db). fold new. lia.
      + apply insert_or_replace_elem. by left.
      + by apply insert_or_replace_wf.
    - destruct (put_keeps_new Config.MAX_ENTRIES text model k vec now db _
                  Hwf Hk config_cutoff) as (db1 & Hput & Hin & Hsub & _);
        [by vm_compute|done|].
      exists db1. split; [done|]. split; [done|].
      eapply table_wf_sublist; [done|]. by apply insert_or_replace_wf. }
  exists db1. split; [done|].
  rewrite (get_live Config.TTL_SECONDS text' model k now' db1 new); try done.
  - unfold new, new_row. cbn [emb]. by rewrite deserialize_serialize.
  - by rewrite (make_key_normal_form text' text).
  - by apply is_expired_fresh.
Qed.

Lemma put_then_get_witness :
  ∃ db1,
    put_embedding_in_cache Config.MAX_ENTRIES wit_text2 wit_model wit_vec 1000 []
    = (Ok (), db1)
    ∧ get_embedding_from_cache Config.TTL_SECONDS wit_text3 wit_model 2000 db1
      = (Ok (Some (map (fun x => F32.to_float (F32.of_float x)) wit_vec)), db1).
Proof.
  apply (put_then_get wit_text2 wit_text3 wit_model wit_key2 wit_vec 1000 2000 []).
  - apply NoDup_nil_2.
  - vm_compute. reflexivity.
  - vm_compute. reflexivity.
  - left. vm_compute. reflexivity.
  - unfold Config.TTL_SECONDS. lia.
Defined.

(** X2. Last write wins: below the cap, a second write for the same
    model and a text of the same normal form replaces the record of the
    first, so the two writes in a row leave the table (and return the
    value) that the second write alone gives. *)
Theorem put_last_write_wins (MAX_ENTRIES : Z) (text text' model k : list N)
    (vec vec' : list spec_float) (now now' : Z) (db : list row) :
  _make_key text model = Ok k ->
  normalize text' = normalize text ->
  (Sql.count db < MAX_ENTRIES)%Z ->
  put_embedding_in_cache MAX_ENTRIES text' model vec' now'
    (put_embedding_in_cache MAX_ENTRIES text model vec now db).2
  = put_embedding_in_cache MAX_ENTRIES text' model vec' now' db.
Proof.
  intros Hk Hnorm Hroom.
  rewrite (put_no_eviction MAX_ENTRIES text model k vec now db Hk).
  2:{ pose proof (insert_or_replace_count (new_row text model k vec now) db). lia. }
  cbn [snd]. unfold put_embedding_in_cache.
  rewrite (make_key_normal_form text' text model Hnorm), Hk.
  cbv zeta. fold (new_row text model k vec now).
  by rewrite insert_or_replace_twice.
Qed.

Lemma put_last_write_wins_witness :
  put_embedding_in_cache Config.MAX_ENTRIES wit_text3 wit_model wit_vec32 2000
    (put_embedding_in_cache Config.MAX_ENTRIES wit_text2 wit_model wit_vec 1000 []).2
  = put_embedding_in_cache Config.MAX_ENTRIES wit_text3 wit_model wit_vec32 2000 [].
Proof.
  apply (put_last_write_wins Config.MAX_ENTRIES wit_text2 wit_text3 wit_model
           wit_key2).
  - vm_compute. reflexivity.
  - vm_compute. reflexivity.
  - vm_compute. reflexivity.
Defined.

(** X3. Refreshing a record never evicts.  A write under a key the
    table already holds replaces that record (new vector, new text
    snippet, new time) and leaves the number of records as it was, so
    on a table within the cap, even exactly at the cap, nothing else
    is deleted. *)
Theorem put_refresh_never_evicts (MAX_ENTRIES : Z) (text model k : list N)
    (vec : list spec_float) (now : Z) (db : list row) (r0 : row) :
  table_wf db ->
  _make_key text model = Ok k ->
  r0 ∈ db -> key r0 = k ->
  (Sql.count db <= MAX_ENTRIES)%Z ->
  let new := new_row text model k vec now in
  ∃ db', put_embedding_in_cache MAX_ENTRIES text model vec now db = (Ok (), db')
    ∧ Sql.count db' = Sql.count db
    ∧ (∀ r, r ∈ db' <-> r = new ∨ (r ∈ db ∧ r ≠ r0)).
Proof.
  intros Hwf Hk Hr0 Hkey Hcap new.
  set (db1 := Sql.insert_or_replace new db).
  assert (Sql.count db1 = Sql.count db) as Hcount.
  { pose proof (delete_by_key_length db r0 Hwf Hr0) as Hdel.
    unfold db1, Sql.insert_or_replace, Sql.count, Sql.delete_by_key in *.
    rewrite length_app. cbn [length key new new_row]. rewrite Hkey in Hdel. lia. }
  exists db1. split; [|split; [done|]].
  - apply put_no_eviction; [done|]. fold new db1. lia.
  - intros r. unfold db1. rewrite insert_or_replace_elem.
    cbn [key new new_row]. split.
    + intros [->|[Hr Hne]]; [by left|]. right. split; [done|]. congruence.
    + intros [->|[Hr Hne]]; [by left|]. right. split; [done|].
      intros Heq. apply Hne. apply (table_wf_key_inj db); [done..|]. congruence.
Qed.

Lemma put_refresh_never_evicts_witness :
  let new := new_row wit_text wit_model wit_key wit_vec32 5000 in
  ∃ db', put_embedding_in_cache 1 wit_text wit_model wit_vec32 5000 [wit_row]
         = (Ok (), db')
    ∧ Sql.count db' = Sql.count [wit_row]
    ∧ (∀ r, r ∈ db' <-> r = new ∨ (r ∈ [wit_row] ∧ r ≠ wit_row)).
Proof.
  apply (put_refresh_never_evicts 1 wit_text wit_model wit_key wit_vec32 5000
           [wit_row] wit_row).
  - unfold table_wf. apply (bool_decide_unpack _). vm_compute. exact I.
  - vm_compute. reflexivity.
  - apply list_elem_of_singleton. reflexivity.
  - reflexivity.
  - vm_compute. intros H. discriminate H.
Defined.

(** X4. Writes do not disturb other keys.  Below the cap, a write
    under one key leaves the answer of a lookup under any other key
    what it was before the write. *)
Theorem put_preserves_other_lookups (MAX_ENTRIES TTL_SECONDS : Z)
    (text text' model model' k k' : list N) (vec : list spec_float)
    (now now' : Z) (db : list row) :
  _make_key text model = Ok k ->
  _make_key text' model' = Ok k' ->
  k ≠ k' ->
  (Sql.count db < MAX_ENTRIES)%Z ->
  (get_embedding_from_cache TTL_SECONDS text' model' now'
     (put_embedding_in_cache MAX_ENTRIES text model vec now db).2).1
  = (get_embedding_from_cache TTL_SECONDS text' model' now' db).1.
Proof.
  intros Hk Hk' Hne Hroom.
  rewrite (put_no_eviction MAX_ENTRIES text model k vec now db Hk).
  2:{ pose proof (insert_or_replace_count (new_row text model k vec now) db). lia. }
  cbn [snd]. unfold get_embedding_from_cache. rewrite Hk'.
  rewrite select_other_key by done.
  destruct (Sql.select_by_key k' db) as [r|]; [|done].
  by destruct (is_expired _ _ _).
Qed.

Lemma put_preserves_other_lookups_witness :
  (get_embedding_from_cache Config.TTL_SECONDS wit_text wit_model 2000
     (put_embedding_in_cache Config.MAX_ENTRIES wit_text2 wit_model wit_vec 1500
        [wit_row]).2).1
  = (get_embedding_from_cache Config.TTL_SECONDS wit_text wit_model 2000
       [wit_row]).1.
Proof.
  apply (put_preserves_other_lookups Config.MAX_ENTRIES Config.TTL_SECONDS
           wit_text2 wit_text wit_model wit_model wit_key2 wit_key).
  - vm_compute. reflexivity.
  - vm_compute. reflexivity.
  - vm_compute. intros H. discriminate H.
  - vm_compute. reflexivity.
Defined.

(** X5. The eviction contract for any cap.  For every [MAX_ENTRIES]
    from 0 up to [2 ^ 48] a write that derives its key returns
    normally; it leaves the inserted table alone when the count [n]
    after the insertion is at most the cap, and otherwise keeps exactly
    [floor(9 * MAX_ENTRIES / 10)] records, deleting oldest first.  With
    a cap of 0 or 1 such a pass empties the table, the record just
    written included; with a cap of 2 or more a record that is strictly
    the newest always survives its own write. *)
Theorem put_any_cap (MAX_ENTRIES : Z) (text model k : list N)
    (vec : list spec_float) (now : Z) (db : list row) :
  (0 <= MAX_ENTRIES < 2 ^ 48)%Z ->
  table_wf db ->
  _make_key text model = Ok k ->
  let new := new_row text model k vec now in
  let db1 := Sql.insert_or_replace new db in
  let n := Sql.count db1 in
  ∃ db', put_embedding_in_cache MAX_ENTRIES text model vec now db = (Ok (), db')
    ∧ table_wf db'
    ∧ (Sql.count db' <= MAX_ENTRIES)%Z
    ∧ ((n <= MAX_ENTRIES)%Z -> db' = db1)
    ∧ ((n > MAX_ENTRIES)%Z ->
         db' `sublist_of` db1
         ∧ Sql.count db' = (MAX_ENTRIES * 9 / 10)%Z
         ∧ (∀ d s, d ∈ db1 -> d ∉ db' -> s ∈ db' ->
                   (created_at d <= created_at s)%Z)
         ∧ ((MAX_ENTRIES <= 1)%Z -> db' = []))
    ∧ ((2 <= MAX_ENTRIES)%Z ->
       (∀ r, r ∈ db -> key r ≠ k -> (created_at r < now)%Z) -> new ∈ db').
Proof.
  intros Hcap Hwf Hk new db1 n.
  pose proof (cutoff_any MAX_ENTRIES Hcap) as Hcut.
  assert (0 <= MAX_ENTRIES * 9 / 10 <= MAX_ENTRIES)%Z as Hrange by lia_div.
  destruct (put_spec MAX_ENTRIES text model k vec now db _ Hwf Hk Hcut Hrange)
    as (db' & Hput & Hwf' & Hsame & Hevict & Hle).
  exists db'. split; [done|]. split; [done|]. split; [done|].
  split; [done|]. split.
  - intros Hn. destruct (Hevict Hn) as (Hsub & Hcount & Hold).
    split; [done|]. split; [done|]. split; [done|].
    intros Hsmall. apply length_zero_iff_nil.
    unfold Sql.count in Hcount. lia_div.
  - intros Hbig Hnewest.
    destruct (put_keeps_new MAX_ENTRIES text model k vec now db _ Hwf Hk Hcut)
      as (db'' & Hput' & Hin & _); [lia_div|done|].
    rewrite Hput in Hput'. by injection Hput' as <-.
Qed.

Lemma put_any_cap_witness :
  let new := new_row wit_text2 wit_model wit_key2 wit_vec 5 in
  let db1 := Sql.insert_or_replace new small_table in
  let n := Sql.count db1 in
  ∃ db', put_embedding_in_cache 3 wit_text2 wit_model wit_vec 5 small_table
         = (Ok (), db')
    ∧ table_wf db'
    ∧ (Sql.count db' <= 3)%Z
    ∧ ((n <= 3)%Z -> db' = db1)
    ∧ ((n > 3)%Z ->
         db' `sublist_of` db1
         ∧ Sql.count db' = (3 * 9 / 10)%Z
         ∧ (∀ d s, d ∈ db1 -> d ∉ db' -> s ∈ db' ->
                   (created_at d <= created_at s)%Z)
         ∧ ((3 <= 1)%Z -> db' = []))
    ∧ ((2 <= 3)%Z ->
       (∀ r, r ∈ small_table -> key r ≠ wit_key2 -> (created_at r < 5)%Z) ->
       new ∈ db').
Proof.
  apply (put_any_cap 3 wit_text2 wit_model wit_key2 wit_vec 5 small_table).
  - lia.
  - unfold table_wf. apply (bool_decide_unpack _). vm_compute. exact I.
  - vm_compute. reflexivity.
Defined.

(** ** Lookups *)

(** X7. A lookup never adds or changes a record and removes at most
    one: the table after [get_embedding_from_cache] is a sub-list of
    the table before, a record that is gone is the expired record of
    the key looked up (and the answer is then "absent"), and a second
    lookup at the same time gives the same answer and changes nothing
    more. *)
Theorem get_frame (TTL_SECONDS : Z) (text model : list N) (now : Z)
    (db db' : list row) (res : result (option (list spec_float))) :
  table_wf db ->
  get_embedding_from_cache TTL_SECONDS text model now db = (res, db') ->
  db' `sublist_of` db
  ∧ (∀ r, r ∈ db -> r ∉ db' ->
       _make_key text model = Ok (key r)
       ∧ is_expired TTL_SECONDS now (created_at r) = true
       ∧ res = Ok None)
  ∧ (Sql.count db - 1 <= Sql.count db')%Z
  ∧ get_embedding_from_cache TTL_SECONDS text model now db' = (res, db').
Proof.
  intros Hwf Hget.
  assert (db' = db ->
          db' `sublist_of` db
          ∧ (∀ r, r ∈ db -> r ∉ db' ->
               _make_key text model = Ok (key r)
               ∧ is_expired TTL_SECONDS now (created_at r) = true
               ∧ res = Ok None)
          ∧ (Sql.count db - 1 <= Sql.count db')%Z
          ∧ get_embedding_from_cache TTL_SECONDS text model now db' = (res, db'))
    as Hsame.
  { intros ->. repeat split; [done|done..|lia|done]. }
  pose proof Hget as Hget0. unfold get_embedding_from_cache in Hget.
  destruct (_make_key text model) as [k|e] eqn:Hk; [|apply Hsame; congruence].
  destruct (Sql.select_by_key k db) as [r|] eqn:Hsel; [|apply Hsame; congruence].
  destruct (is_expired TTL_SECONDS now (created_at r)) eqn:Hexp;
    [|apply Hsame; congruence].
  injection Hget as <- <-.
  apply select_by_key_Some in Hsel as [Hr <-].
  split; [apply sublist_filter|]. split; [|split].
  - intros r0 Hr0 Hgone.
    assert (key r0 = key r) as Hkey.
    { destruct (decide (key r0 = key r)) as [|Hne]; [done|].
      exfalso. apply Hgone. unfold Sql.delete_by_key.
      by apply list_elem_of_filter. }
    assert (r0 = r) as -> by by apply (table_wf_key_inj db).
    done.
  - rewrite delete_by_key_length by done. lia.
  - apply (get_absent TTL_SECONDS text model (key r)); [done|].
    intros r0. unfold Sql.delete_by_key. by intros [? ?]%list_elem_of_filter.
Qed.

Lemma get_frame_witness :
  [] `sublist_of` [wit_row]
  ∧ (∀ r, r ∈ [wit_row] -> r ∉ [] ->
       _make_key wit_text wit_model = Ok (key r)
       ∧ is_expired Config.TTL_SECONDS 2592001 (created_at r) = true
       ∧ @Ok (option (list spec_float)) None = Ok None)
  ∧ (Sql.count [wit_row] - 1 <= Sql.count [])%Z
  ∧ get_embedding_from_cache Config.TTL_SECONDS wit_text wit_model 2592001 []
    = (Ok None, []).
Proof.
  apply (get_frame Config.TTL_SECONDS wit_text wit_model 2592001 [wit_row] []
           (Ok None)).
  - unfold table_wf. apply (bool_decide_unpack _). vm_compute. exact I.
  - vm_compute. reflexivity.
Defined.

(** ** Batch lookups *)

Section BatchMore.

Variable TTL_SECONDS : Z.

Implicit Types (db : list row) (keys texts : list (list N)) (r : row)
  (L MAX_VARS : nat).

Lemma batch_with_keys L MAX_VARS texts model now db found missing db' :
  texts ≠ [] ->
  batch_get_embeddings_with TTL_SECONDS L MAX_VARS texts model now db
  = (Ok (found, missing), db') ->
  ∃ keys, rmap (fun t => _make_key t model) texts = Ok keys.
Proof.
  intros Hne Hb.
  destruct (rmap (fun t => _make_key t model) texts) as [keys|e] eqn:Hkeys;
    [by exists keys|].
  apply (batch_raise_keys TTL_SECONDS L MAX_VARS texts model now db) in Hkeys
    as [Hr _].
  congruence.
Qed.

Lemma batch_with_found L MAX_VARS texts model now db found missing db' :
  (1 <= MAX_VARS)%nat -> (MAX_VARS <= L)%nat -> table_wf db ->
  batch_get_embeddings_with TTL_SECONDS L MAX_VARS texts model now db
  = (Ok (found, missing), db') ->
  ∀ i v, found !! i = Some v
         <-> ∃ t r, texts !! i = Some t ∧ _make_key t model = Ok (key r)
                    ∧ r ∈ db
                    ∧ is_expired TTL_SECONDS now (created_at r) = false
                    ∧ _deserialize_emb (emb r) = Ok v.
Proof.
  intros HM HL Hwf Hb i v.
  destruct (decide (texts = [])) as [->|Hne].
  { cbn in Hb. injection Hb as <- <- <-. rewrite lookup_empty.
    split; [done|]. by intros (t & r & Ht & _). }
  destruct (batch_with_keys _ _ _ _ _ _ _ _ _ Hne Hb) as [keys Hkeys].
  destruct (batch_with_Ok_inv TTL_SECONDS L MAX_VARS texts model now db keys
              found missing db' HL Hne Hkeys Hb) as (E & Hscan & _ & _).
  assert (∀ r v', r ∈ chunks MAX_VARS keys ≫= (fun c => Sql.select_in c db) ->
                  hit TTL_SECONDS now keys i r v' ->
                  ∃ t, texts !! i = Some t ∧ _make_key t model = Ok (key r)
                       ∧ r ∈ db) as Hhit.
  { intros r v' Hr (Hki & _ & _).
    apply chunk_rows_elem in Hr; [|done].
    apply list_elem_of_filter in Hr as [_ Hr].
    assert (i < length texts)%nat as Hi.
    { rewrite <- (rmap_Ok_length _ _ _ Hkeys). by eapply lookup_lt_Some. }
    apply lookup_lt_is_Some in Hi as [t Ht]. exists t. split; [done|].
    destruct (rmap_Ok_lookup _ _ _ _ _ Hkeys Ht) as (y & Hy & Hy').
    split; [congruence|done]. }
  split.
  - intros Hf.
    destruct (scan_rows_sound TTL_SECONDS now keys _ _ _ i v Hscan Hf)
      as [Hf0|(r & Hr & Hh)]; [cbn [fst] in Hf0; by rewrite lookup_empty in Hf0|].
    destruct (Hhit r v Hr Hh) as (t & Ht & Hk & Hdb).
    exists t, r. destruct Hh as (_ & Hlive & Hdec). done.
  - intros (t & r & Ht & Hk & Hr & Hlive & Hdec).
    destruct (rmap_Ok_lookup _ _ _ _ _ Hkeys Ht) as (y & Hy & Hy').
    assert (y = key r) as -> by congruence.
    assert (r ∈ chunks MAX_VARS keys ≫= (fun c => Sql.select_in c db)) as Hrs.
    { apply chunk_rows_elem; [done|]. apply list_elem_of_filter.
      split; [|done]. by eapply list_elem_of_lookup_2. }
    destruct (scan_rows_complete TTL_SECONDS now keys _ _ _ i r Hscan Hrs Hlive Hy')
      as [v' Hv'].
    pose proof Hv' as Hv0. cbn [fst] in Hv0.
    destruct (scan_rows_sound TTL_SECONDS now keys _ _ _ i v' Hscan Hv')
      as [Hf0|(r' & Hr' & Hh)]; [cbn [fst] in Hf0; by rewrite lookup_empty in Hf0|].
    destruct (Hhit r' v' Hr' Hh) as (t' & Ht' & Hk' & Hdb').
    assert (r' = r) as ->.
    { apply (table_wf_key_inj db); [done..|]. congruence. }
    destruct Hh as (_ & _ & Hdec'). congruence.
Qed.

End BatchMore.

Section BatchErrors.

Variable TTL_SECONDS : Z.

Implicit Types (db : list row) (keys texts : list (list N)) (r : row).

Lemma rmap_Raise {A B} (f : A -> result B) (l : list A) e :
  rmap f l = Raise e -> ∃ x, x ∈ l ∧ f x = Raise e.
Proof.
  induction l as [|x l IH]; [done|]. cbn.
  destruct (f x) as [y|e'] eqn:Hx; cbn.
  - destruct (rmap f l) as [ys|e'] eqn:Hl; cbn; [done|].
    intros [= ->]. destruct IH as (x' & ? & ?); [done|].
    exists x'. split; [by right|done].
  - intros [= ->]. exists x. split; [by left|done].
Qed.

Lemma rmap_Ok_all {A B} (f : A -> result B) (l : list A) l' x :
  rmap f l = Ok l' -> x ∈ l -> ∃ y, f x = Ok y ∧ y ∈ l'.
Proof.
  intros Hl [i Hi]%list_elem_of_lookup_1.
  destruct (rmap_Ok_lookup _ _ _ _ _ Hl Hi) as (y & ? & ?).
  exists y. split; [done|]. by eapply list_elem_of_lookup_2.
Qed.

Lemma encode_utf8_raise s e :
  PyStr.encode_utf8 s = Raise e -> e = UnicodeEncodeError.
Proof.
  induction s as [|c s IH]; [done|]. cbn.
  destruct (PyStr.encode_cp c); [|congruence].
  destruct (PyStr.encode_utf8 s); cbn; [done|]. intros [= ->]. by apply IH.
Qed.

Lemma make_key_raise t m e : _make_key t m = Raise e -> e = UnicodeEncodeError.
Proof.
  rewrite make_key_unfold.
  destruct (PyStr.encode_utf8 (prehash t m)) eqn:He; cbn; [done|].
  intros [= ->]. by eapply encode_utf8_raise.
Qed.

(** The four ways a batch lookup ends. *)
Lemma batch_with_cases L MAX_VARS texts model now db :
  (1 <= MAX_VARS)%nat -> (MAX_VARS <= L)%nat ->
  (∃ found missing db',
     batch_get_embeddings_with TTL_SECONDS L MAX_VARS texts model now db
     = (Ok (found, missing), db')
     ∧ (∀ t, t ∈ texts -> ∃ k, _make_key t model = Ok k)
     ∧ ∀ r, r ∈ db -> batch_key texts model (key r) ->
            is_expired TTL_SECONDS now (created_at r) = false ->
            (length (emb r) mod 4 = 0)%nat)
  ∨ (batch_get_embeddings_with TTL_SECONDS L MAX_VARS texts model now db
     = (Raise UnicodeEncodeError, db)
     ∧ ∃ t, t ∈ texts ∧ _make_key t model = Raise UnicodeEncodeError)
  ∨ (batch_get_embeddings_with TTL_SECONDS L MAX_VARS texts model now db
     = (Raise ValueError, db)
     ∧ (∀ t, t ∈ texts -> ∃ k, _make_key t model = Ok k)
     ∧ ∃ r, r ∈ db ∧ batch_key texts model (key r)
            ∧ is_expired TTL_SECONDS now (created_at r) = false
            ∧ (length (emb r) mod 4 ≠ 0)%nat)
  ∨ (batch_get_embeddings_with TTL_SECONDS L MAX_VARS texts model now db
     = (Raise OperationalError, db)
     ∧ (∀ t, t ∈ texts -> ∃ k, _make_key t model = Ok k)
     ∧ (∀ r, r ∈ db -> batch_key texts model (key r) ->
             is_expired TTL_SECONDS now (created_at r) = false ->
             (length (emb r) mod 4 = 0)%nat)
     ∧ (L < length (expired_in_batch TTL_SECONDS texts model now db))%nat).
Proof.
  intros HM HL.
  destruct (decide (texts = [])) as [->|Hne].
  { left. exists ∅, [], db. split; [done|]. split.
    - by intros t ?%elem_of_nil.
    - intros r _ (t & ?%elem_of_nil & _). done. }
  destruct (rmap (fun t => _make_key t model) texts) as [keys|e] eqn:Hkeys.
  - assert (∀ t, t ∈ texts -> ∃ k, _make_key t model = Ok k) as Hall.
    { intros t Ht. destruct (rmap_Ok_all _ _ _ _ Hkeys Ht) as (y & ? & _).
      by exists y. }
    assert (∀ r, r ∈ chunks MAX_VARS keys ≫= (fun c => Sql.select_in c db)
                 <-> r ∈ db ∧ batch_key texts model (key r)) as Hrs.
    { intros r. rewrite chunk_rows_elem by done. unfold Sql.select_in.
      rewrite list_elem_of_filter, (rmap_Ok_elem _ _ _ _ Hkeys).
      unfold batch_key. tauto. }
    rewrite (batch_with_unfold _ _ _ _ _ _ _ keys HL Hne Hkeys).
    destruct (rfold _ _ _) as [[found E]|e] eqn:Hscan.
    + assert (∀ r, r ∈ db -> batch_key texts model (key r) ->
                   is_expired TTL_SECONDS now (created_at r) = false ->
                   (length (emb r) mod 4 = 0)%nat) as Hgood.
      { intros r Hr Hk Hlive.
        destruct (decide (length (emb r) mod 4 = 0)%nat) as [|Hbad]; [done|].
        exfalso.
        rewrite (scan_rows_malformed TTL_SECONDS now keys _ _ r) in Hscan;
          [done|by apply Hrs|done..]. }
      pose proof (expired_keys_size_le _ _ _ _ _ _ _ _ _ HM Hkeys Hscan) as Hsize.
      destruct (batch_outcome_cases L (length texts) db found E)
        as [[HE ->]|[(HE & _ & ->)|(HE & Hbig & ->)]].
      * left. by eexists _, _, _.
      * left. by eexists _, _, _.
      * right. right. right. split; [done|]. split; [done|]. split; [done|]. lia.
    + right. right. left.
      apply scan_rows_raise in Hscan as (-> & r & Hr & Hlive & Hbad).
      split; [done|]. split; [done|]. apply Hrs in Hr as [? ?].
      by exists r.
  - right. left.
    destruct (rmap_Raise _ _ _ Hkeys) as (t & Ht & Hraise).
    pose proof (make_key_raise _ _ _ Hraise) as ->.
    split; [|by exists t].
    by apply (batch_raise_keys TTL_SECONDS L MAX_VARS texts model now db).
Qed.

End BatchErrors.

Section TtlZero.

Implicit Types (db : list row) (r : row).

Lemma is_expired_zero now created : is_expired 0 now created = false.
Proof. done. Qed.

Lemma scan_rows_zero keys now (rs : list row) st st' :
  rfold (scan_row 0 (index_keys keys) now) rs st = Ok st' -> st'.2 = st.2.
Proof.
  revert st. induction rs as [|r rs IH]; intros st; cbn [rfold].
  - by intros [= ->].
  - destruct (scan_row 0 (index_keys keys) now st r) as [st1|e] eqn:Hrow;
      cbn [mbind result_bind]; [|done].
    unfold scan_row in Hrow. rewrite is_expired_zero in Hrow.
    destruct (_deserialize_emb (emb r)) as [v|e]; [|done].
    cbn in Hrow. injection Hrow as <-.
    intros Hst'. by rewrite (IH _ Hst').
Qed.

End TtlZero.

(** X8. A TTL of zero turns expiry off ([if TTL_SECONDS and ...]):
    no lookup and no batch lookup ever deletes a record, and a stored
    record is served however old it is. *)
Theorem ttl_zero_never_expires (text model : list N) (texts : list (list N))
    (now : Z) (db : list row) :
  (get_embedding_from_cache 0 text model now db).2 = db
  ∧ (batch_get_embeddings 0 texts model now db).2 = db
  ∧ (∀ r, table_wf db -> r ∈ db -> _make_key text model = Ok (key r) ->
          (get_embedding_from_cache 0 text model now db).1
          = (v ← _deserialize_emb (emb r) ; Ok (Some v))).
Proof.
  split; [|split].
  - unfold get_embedding_from_cache.
    destruct (_make_key text model) as [k|e]; [|done].
    destruct (Sql.select_by_key k db) as [r|]; [|done].
    by rewrite is_expired_zero.
  - unfold batch_get_embeddings.
    destruct (batch_with_cases 0 Config.MAX_VARIABLE_NUMBER Config.MAX_VARS
                texts model now db)
      as [(found & missing & db' & Hb & _)|[[-> _]|[[-> _]|[-> _]]]];
      [vm_compute; lia..| |done|done|done].
    rewrite Hb. cbn [snd].
    destruct (decide (texts = [])) as [->|Hne]; [cbn in Hb; congruence|].
    destruct (batch_with_keys 0 _ _ _ _ _ _ _ _ _ Hne Hb) as [keys Hkeys].
    destruct (batch_with_Ok_inv 0 Config.MAX_VARIABLE_NUMBER Config.MAX_VARS
                texts model now db keys found missing db'
                ltac:(vm_compute; lia) Hne Hkeys Hb)
      as (E & Hscan & _ & -> & _).
    apply scan_rows_zero in Hscan. cbn [snd] in Hscan. subst E.
    by rewrite decide_True.
  - intros r Hwf Hr Hk.
    by rewrite (get_live 0 text model (key r) now db r).
Qed.

(** X9. The vectors a batch lookup returns: [found] maps position [i]
    to [v] exactly when the table holds a record under the key of
    [texts[i]] that is not expired and whose blob decodes to [v]; the
    positions in [missing] are the positions of the batch without such
    a record. *)
Theorem batch_found_values (TTL_SECONDS : Z) (texts : list (list N))
    (model : list N) (now : Z) (db db' : list row)
    (found : gmap nat (list spec_float)) (missing : list nat) :
  table_wf db ->
  batch_get_embeddings TTL_SECONDS texts model now db
  = (Ok (found, missing), db') ->
  (∀ i v, found !! i = Some v
          <-> ∃ t r, texts !! i = Some t ∧ _make_key t model = Ok (key r)
                     ∧ r ∈ db
                     ∧ is_expired TTL_SECONDS now (created_at r) = false
                     ∧ _deserialize_emb (emb r) = Ok v)
  ∧ (∀ i, i ∈ missing
          <-> (i < length texts)%nat
              ∧ ¬ ∃ t r, texts !! i = Some t ∧ _make_key t model = Ok (key r)
                         ∧ r ∈ db
                         ∧ is_expired TTL_SECONDS now (created_at r) = false).
Proof.
  intros Hwf Hb. unfold batch_get_embeddings in Hb.
  assert (1 <= Config.MAX_VARS)%nat as HM by (vm_compute; lia).
  assert (Config.MAX_VARS <= Config.MAX_VARIABLE_NUMBER)%nat as HL
    by (vm_compute; lia).
  pose proof (batch_with_found TTL_SECONDS _ _ _ _ _ _ _ _ _ HM HL Hwf Hb)
    as Hfound.
  destruct (batch_with_partition TTL_SECONDS _ _ _ _ _ _ _ _ _ HL Hb)
    as (Hpart & Hmiss & _).
  split; [done|]. intros i. split.
  - intros Hi. split; [apply Hpart; by right|].
    intros (t & r & Ht & Hk & Hr & Hlive).
    specialize (Hmiss i Hi).
    (* the row is live, so the scan decoded it *)
    destruct (decide (texts = [])) as [->|Hne]; [done|].
    destruct (batch_with_keys TTL_SECONDS _ _ _ _ _ _ _ _ _ Hne Hb)
      as [keys Hkeys].
    destruct (batch_with_Ok_inv TTL_SECONDS _ _ texts model now db keys
                found missing db' HL Hne Hkeys Hb) as (E & Hscan & _ & _).
    destruct (rmap_Ok_lookup _ _ _ _ _ Hkeys Ht) as (y & Hy & Hy').
    assert (y = key r) as -> by congruence.
    assert (r ∈ chunks Config.MAX_VARS keys ≫= (fun c => Sql.select_in c db))
      as Hrs.
    { apply chunk_rows_elem; [done|]. apply list_elem_of_filter.
      split; [|done]. by eapply list_elem_of_lookup_2. }
    destruct (scan_rows_complete TTL_SECONDS now keys _ _ _ i r Hscan Hrs Hlive Hy')
      as [v' Hv'].
    cbn [fst] in Hv'. congruence.
  - intros [Hi Hno]. destruct (proj1 (Hpart i) Hi) as [[v Hv]|]; [|done].
    exfalso. apply Hno. apply Hfound in Hv as (t & r & ? & ? & ? & ? & ?).
    by exists t, r.
Qed.

Lemma batch_found_values_witness :
  (∀ i v, ({[1%nat := wit_vec32]} : gmap nat (list spec_float)) !! i = Some v
          <-> ∃ t r, wit_batch4 !! i = Some t
                     ∧ _make_key t wit_model = Ok (key r)
                     ∧ r ∈ wit_table_B
                     ∧ is_expired Config.TTL_SECONDS 2000 (created_at r) = false
                     ∧ _deserialize_emb (emb r) = Ok v)
  ∧ (∀ i, i ∈ [0; 2; 3]%nat
          <-> (i < length wit_batch4)%nat
              ∧ ¬ ∃ t r, wit_batch4 !! i = Some t
                         ∧ _make_key t wit_model = Ok (key r)
                         ∧ r ∈ wit_table_B
                         ∧ is_expired Config.TTL_SECONDS 2000 (created_at r)
                           = false).
Proof.
  apply (batch_found_values Config.TTL_SECONDS wit_batch4 wit_model 2000
           wit_table_B wit_table_B).
  - unfold table_wf. apply (bool_decide_unpack _). vm_compute. exact I.
  - vm_compute. reflexivity.
Defined.

(** X10. A batch lookup answers each position as the single lookup
    does: when the batch returns, [found.get(i)] is what
    [get_embedding_from_cache(texts[i], model)] returns on the same
    table at the same time, a vector or nothing. *)
Theorem batch_agrees_with_get (TTL_SECONDS : Z) (texts : list (list N))
    (model : list N) (now : Z) (db db' : list row)
    (found : gmap nat (list spec_float)) (missing : list nat) :
  table_wf db ->
  batch_get_embeddings TTL_SECONDS texts model now db
  = (Ok (found, missing), db') ->
  ∀ i t, texts !! i = Some t ->
         (get_embedding_from_cache TTL_SECONDS t model now db).1 = Ok (found !! i).
Proof.
  intros Hwf Hb i t Ht. unfold batch_get_embeddings in Hb.
  assert (1 <= Config.MAX_VARS)%nat as HM by (vm_compute; lia).
  assert (Config.MAX_VARS <= Config.MAX_VARIABLE_NUMBER)%nat as HL
    by (vm_compute; lia).
  pose proof (batch_with_found TTL_SECONDS _ _ _ _ _ _ _ _ _ HM HL Hwf Hb) as Hf.
  destruct (batch_with_cases TTL_SECONDS _ _ texts model now db HM HL)
    as [(f1 & m1 & d1 & Hb1 & Hall & Hgood)|[[Hb1 _]|[[Hb1 _]|[Hb1 _]]]];
    [|congruence..].
  clear f1 m1 d1 Hb1.
  destruct (Hall t) as [k Hk]; [by eapply list_elem_of_lookup_2|].
  unfold get_embedding_from_cache. rewrite Hk.
  assert (∀ v, found !! i = Some v ->
               ∃ r, r ∈ db ∧ key r = k
                    ∧ is_expired TTL_SECONDS now (created_at r) = false
                    ∧ _deserialize_emb (emb r) = Ok v) as Hsome.
  { intros v (t' & r & Ht' & Hk' & Hr & Hlive & Hdec)%Hf.
    exists r. repeat split; try done. congruence. }
  destruct (Sql.select_by_key k db) as [r|] eqn:Hsel.
  - apply select_by_key_Some in Hsel as [Hr <-].
    destruct (is_expired TTL_SECONDS now (created_at r)) eqn:Hexp; cbn [fst].
    + destruct (found !! i) as [v|] eqn:Hfi; [|done].
      destruct (Hsome v eq_refl) as (r' & Hr' & Hkey & Hlive & _).
      assert (r' = r) as -> by by apply (table_wf_key_inj db).
      congruence.
    + assert (length (emb r) mod 4 = 0)%nat as Hblob.
      { apply Hgood; [done| |done]. exists t. split; [|done].
        by eapply list_elem_of_lookup_2. }
      apply deserialize_ok_iff in Hblob as [v Hv]. rewrite Hv. cbn.
      f_equal. symmetry. apply Hf. by exists t, r.
  - cbn [fst]. destruct (found !! i) as [v|] eqn:Hfi; [|done].
    destruct (Hsome v eq_refl) as (r' & Hr' & Hkey & _).
    rewrite select_by_key_None in Hsel. by destruct (Hsel r' Hr').
Qed.

Lemma batch_agrees_with_get_witness :
  (get_embedding_from_cache Config.TTL_SECONDS (of_string "B") wit_model 2000
     wit_table_B).1
  = Ok (({[1%nat := wit_vec32]} : gmap nat (list spec_float)) !! 1%nat).
Proof.
  apply (batch_agrees_with_get Config.TTL_SECONDS wit_batch4 wit_model 2000
           wit_table_B wit_table_B {[1%nat := wit_vec32]} [0; 2; 3]%nat).
  - unfold table_wf. apply (bool_decide_unpack _). vm_compute. exact I.
  - vm_compute. reflexivity.
  - reflexivity.
Defined.

(** X11. A batch of one text is a single lookup: on a table with unique
    keys [batch_get_embeddings([text], model)] finds, misses, fails
    and deletes exactly as [get_embedding_from_cache(text, model)]
    does at the same time. *)
Theorem batch_single_is_get (TTL_SECONDS : Z) (text model : list N) (now : Z)
    (db : list row) :
  table_wf db ->
  batch_get_embeddings TTL_SECONDS [text] model now db
  = match get_embedding_from_cache TTL_SECONDS text model now db with
    | (Ok (Some v), db') => (Ok ({[0%nat := v]}, []), db')
    | (Ok None, db') => (Ok (∅, [0%nat]), db')
    | (Raise e, db') => (Raise e, db')
    end.
Proof.
  intros Hwf. unfold batch_get_embeddings.
  rewrite batch_chunking_any by (done || vm_compute; lia).
  unfold get_embedding_from_cache.
  destruct (_make_key text model) as [k|e] eqn:Hk.
  2:{ unfold batch_get_embeddings_unchunked_with. cbn. by rewrite Hk. }
  rewrite (batch_unchunked_unfold TTL_SECONDS _ [text] model now db [k]);
    [|done|cbn; by rewrite Hk].
  assert (Sql.select_in [k] db = filter (fun r => key r = k) db) as ->.
  { unfold Sql.select_in. apply list_filter_iff. intros r.
    by rewrite list_elem_of_singleton. }
  destruct (Sql.select_by_key k db) as [r|] eqn:Hsel.
  - apply select_by_key_Some in Hsel as [Hr <-].
    rewrite (filter_key_eq db r Hwf Hr). cbn [rfold]. unfold scan_row at 1.
    destruct (is_expired TTL_SECONDS now (created_at r)) eqn:Hexp.
    + cbn [mbind result_bind rfold fst snd].
      destruct (batch_outcome_cases Config.MAX_VARIABLE_NUMBER (length [text]) db
                  ∅ ({[key r]} ∪ ∅))
        as [[HE _]|[(_ & _ & ->)|(_ & Hbig & _)]].
      * exfalso. apply (not_elem_of_empty (C := gset (list N)) (key r)).
        rewrite <- HE. set_solver.
      * f_equal. unfold Sql.delete_in, Sql.delete_by_key.
        apply list_filter_iff. intros r'.
        rewrite elem_of_elements. split.
        -- intros Hno Heq. apply Hno. apply elem_of_union. left.
           by apply elem_of_singleton.
        -- intros Hne [Hin|Hin]%elem_of_union; [by apply elem_of_singleton in Hin|].
           by apply not_elem_of_empty in Hin.
      * exfalso. rewrite (right_id_L ∅ (∪)), size_singleton in Hbig.
        unfold Config.MAX_VARIABLE_NUMBER in Hbig. lia.
    + destruct (_deserialize_emb (emb r)) as [v|e] eqn:Hdec; [|done].
      cbn. rewrite lookup_empty, lookup_insert_eq. cbn.
      rewrite insert_empty, lookup_singleton_eq.
      rewrite decide_True by done. by rewrite decide_False.
  - rewrite select_by_key_None in Hsel.
    rewrite filter_key_absent.
    2:{ intros (r & -> & Hr)%list_elem_of_fmap. by apply (Hsel r). }
    cbn. by rewrite decide_True.
Qed.

Lemma batch_single_is_get_witness :
  batch_get_embeddings Config.TTL_SECONDS [wit_text] wit_model 100 [wit_row]
  = match get_embedding_from_cache Config.TTL_SECONDS wit_text wit_model 100
            [wit_row] with
    | (Ok (Some v), db') => (Ok ({[0%nat := v]}, []), db')
    | (Ok None, db') => (Ok (∅, [0%nat]), db')
    | (Raise e, db') => (Raise e, db')
    end.
Proof.
  apply (batch_single_is_get Config.TTL_SECONDS wit_text wit_model 100 [wit_row]).
  unfold table_wf. apply (bool_decide_unpack _). vm_compute. exact I.
Defined.

(** X12. How a batch lookup fails.  It raises [UnicodeEncodeError]
    exactly when the key of some text cannot be derived, and
    [ValueError] exactly when all keys are derived and a record of the
    batch that is not expired holds a blob that is no whole number of
    float32 elements; it never raises [OverflowError]; and a failing
    call leaves the table as it was: expired records it met are not
    deleted.  The one other exception is the [OperationalError] of a
    refused [DELETE]: all keys are derived then, and the expired
    records under keys of the batch are more than the 999 variables the
    statement may bind. *)
Theorem batch_failure (TTL_SECONDS : Z) (texts : list (list N)) (model : list N)
    (now : Z) (db : list row) :
  let out := batch_get_embeddings TTL_SECONDS texts model now db in
  (out.1 = Raise UnicodeEncodeError
   <-> ∃ t, t ∈ texts ∧ _make_key t model = Raise UnicodeEncodeError)
  ∧ (out.1 = Raise ValueError
     <-> (∀ t, t ∈ texts -> ∃ k, _make_key t model = Ok k)
         ∧ ∃ r, r ∈ db ∧ batch_key texts model (key r)
                ∧ is_expired TTL_SECONDS now (created_at r) = false
                ∧ (length (emb r) mod 4 ≠ 0)%nat)
  ∧ out.1 ≠ Raise OverflowError
  ∧ (∀ e, out.1 = Raise e -> out.2 = db)
  ∧ (out.1 = Raise OperationalError ->
     (∀ t, t ∈ texts -> ∃ k, _make_key t model = Ok k)
     ∧ (Config.MAX_VARIABLE_NUMBER
        < length (expired_in_batch TTL_SECONDS texts model now db))%nat).
Proof.
  intros out. subst out. unfold batch_get_embeddings.
  assert (1 <= Config.MAX_VARS)%nat as HM by (vm_compute; lia).
  assert (Config.MAX_VARS <= Config.MAX_VARIABLE_NUMBER)%nat as HL
    by (vm_compute; lia).
  destruct (batch_with_cases TTL_SECONDS _ _ texts model now db HM HL)
    as [(found & missing & db' & -> & Hall & Hgood)
       |[[-> (t & Ht & Hraise)]
        |[[-> (Hall & r & Hr & Hk & Hlive & Hbad)]|[-> (Hall & Hgood & Hmany)]]]];
    cbn [fst snd].
  - split; [|split; [|split; [|split]]]; try done.
    + split; [done|]. intros (t & Ht & Hraise).
      destruct (Hall t Ht) as [k Hk]. congruence.
    + split; [done|]. intros (_ & r & Hr & Hk & Hlive & Hbad).
      destruct Hbad. by apply Hgood.
  - split; [|split; [|split; [|split]]]; try done.
    + split; [|done]. intros _. by exists t.
    + split; [done|]. intros (Hall & _).
      destruct (Hall t Ht) as [k Hk]. congruence.
  - split; [|split; [|split; [|split]]]; try done.
    + split; [done|]. intros (t & Ht & Hraise).
      destruct (Hall t Ht) as [k' Hk']. congruence.
    + split; [|done]. intros _. split; [done|]. by exists r.
  - split; [|split; [|split; [|split]]]; try done.
    + split; [done|]. intros (t & Ht & Hraise).
      destruct (Hall t Ht) as [k Hk]. congruence.
    + split; [done|]. intros (_ & r & Hr & Hk & Hlive & Hbad).
      destruct Hbad. by apply Hgood.
Qed.

(** X13. A batch lookup is idempotent: repeated at the same time on the
    table it left, it returns the same [found] and [missing] and
    changes nothing more. *)
Theorem batch_idempotent (TTL_SECONDS : Z) (texts : list (list N))
    (model : list N) (now : Z) (db db' : list row)
    (found : gmap nat (list spec_float)) (missing : list nat) :
  table_wf db ->
  batch_get_embeddings TTL_SECONDS texts model now db
  = (Ok (found, missing), db') ->
  batch_get_embeddings TTL_SECONDS texts model now db'
  = (Ok (found, missing), db').
Proof.
  intros Hwf Hb. unfold batch_get_embeddings in *.
  assert (1 <= Config.MAX_VARS)%nat as HM by (vm_compute; lia).
  assert (Config.MAX_VARS <= Config.MAX_VARIABLE_NUMBER)%nat as HL
    by (vm_compute; lia).
  destruct (batch_with_expiry TTL_SECONDS _ _ _ _ _ _ _ _ _ HM HL Hwf Hb)
    as (_ & E & _ & _ & HdbE & Hdb' & _).
  assert (table_wf db') as Hwf'.
  { destruct (decide (E = ∅)); subst db'; [done|]. by apply table_wf_filter. }
  destruct (batch_with_cases TTL_SECONDS _ _ texts model now db HM HL)
    as [(f1 & m1 & d1 & Hb1 & Hall & Hgood)|[[Hb1 _]|[[Hb1 _]|[Hb1 _]]]];
    [|congruence..].
  clear f1 m1 d1 Hb1.
  destruct (batch_with_cases TTL_SECONDS _ _ texts model now db' HM HL)
    as [(found2 & missing2 & db2 & Hb2 & _)
       |[[_ (t & Ht & Hraise)]
        |[[_ (_ & r & Hr & Hk & Hlive & Hbad)]|[_ (_ & _ & Hmany)]]]].
  2:{ destruct (Hall t Ht) as [k Hk]. congruence. }
  2:{ destruct Hbad. apply Hgood; [by apply Hdb' in Hr as [? _]|done..]. }
  2:{ exfalso.
      destruct (expired_in_batch TTL_SECONDS texts model now db') as [|r rs] eqn:Hx;
        [cbn in Hmany; lia|].
      assert (r ∈ expired_in_batch TTL_SECONDS texts model now db') as Hr
        by (rewrite Hx; by left).
      apply list_elem_of_filter in Hr as [[Hexp Hk] Hr].
      apply Hdb' in Hr as [_ Hno]. by apply Hno. }
  rewrite Hb2.
  pose proof (batch_with_found TTL_SECONDS _ _ _ _ _ _ _ _ _ HM HL Hwf Hb) as Hf.
  pose proof (batch_with_found TTL_SECONDS _ _ _ _ _ _ _ _ _ HM HL Hwf' Hb2)
    as Hf2.
  assert (found2 = found) as ->.
  { apply map_eq. intros i. apply option_eq. intros v.
    rewrite Hf, Hf2. split.
    - intros (t & r & Ht & Hk & Hr & Hlive & Hdec).
      exists t, r. by apply Hdb' in Hr as [? _].
    - intros (t & r & Ht & Hk & Hr & Hlive & Hdec).
      exists t, r. repeat split; try done.
      apply Hdb'. split; [done|]. intros [_ Hexp]. congruence. }
  destruct (decide (texts = [])) as [->|Hne].
  { cbn in Hb, Hb2. congruence. }
  destruct (batch_with_keys TTL_SECONDS _ _ _ _ _ _ _ _ _ Hne Hb) as [keys Hkeys].
  destruct (batch_with_Ok_inv TTL_SECONDS _ _ texts model now db keys
              found missing db' HL Hne Hkeys Hb) as (E1 & _ & -> & _).
  destruct (batch_with_Ok_inv TTL_SECONDS _ _ texts model now db' keys
              found missing2 db2 HL Hne Hkeys Hb2) as (E2' & _ & -> & _).
  destruct (batch_with_expiry TTL_SECONDS _ _ _ _ _ _ _ _ _ HM HL Hwf' Hb2)
    as (_ & E2 & HE2 & _ & -> & _).
  assert (E2 = ∅) as ->.
  { apply elem_of_equiv_empty_L. intros k (Hk & r & Hr & <- & Hexp)%HE2.
    apply Hdb' in Hr as [_ Hno]. by apply Hno. }
  by rewrite decide_True.
Qed.

Lemma batch_idempotent_witness :
  batch_get_embeddings Config.TTL_SECONDS wit_batch wit_model 2592001 wit_table_B
  = (Ok ({[1%nat := wit_vec32]}, [0; 2; 3; 4]%nat), wit_table_B).
Proof.
  apply (batch_idempotent Config.TTL_SECONDS wit_batch wit_model 2592001
           wit_table).
  - unfold table_wf. apply (bool_decide_unpack _). vm_compute. exact I.
  - vm_compute. reflexivity.
Defined.

(** X29. Expiry in a batch, for every SQLite whose limit on bound
    variables is at least the chunk size and with the source's
    [TTL_SECONDS].  Whenever the batch returns: a stored record with
    [now - created_at > TTL_SECONDS] is a miss for every position whose
    text has its key (the position is outside [found] and inside
    [missing]); [expired_keys] holds exactly the keys of the batch that
    have such a record, no more of them than the limit; the one
    [DELETE] gets each of them once, so the records removed are exactly
    the expired records whose key is in the batch and the count drops
    by the number of distinct expired keys, however many positions
    share them.  The batch does return when every stored blob holds
    whole float32 elements, every text yields a key and no more expired
    records than the limit are under keys of the batch; with more of
    them the [DELETE] is refused: the batch raises
    [OperationalError] and removes nothing. *)
Theorem batch_expiry_within_limit (MAX_VARIABLE_NUMBER : nat)
    (texts : list (list N)) (model : list N) (now : Z) (db : list row) :
  (Config.MAX_VARS <= MAX_VARIABLE_NUMBER)%nat ->
  table_wf db ->
  (blobs_ok db ->
   (∀ t, t ∈ texts -> ∃ k, _make_key t model = Ok k) ->
   if decide (length (expired_in_batch Config.TTL_SECONDS texts model now db)
              <= MAX_VARIABLE_NUMBER)%nat
   then ∃ found missing db',
          batch_get_embeddings_with Config.TTL_SECONDS MAX_VARIABLE_NUMBER
            Config.MAX_VARS texts model now db
          = (Ok (found, missing), db')
   else batch_get_embeddings_with Config.TTL_SECONDS MAX_VARIABLE_NUMBER
          Config.MAX_VARS texts model now db
        = (Raise OperationalError, db))
  ∧ ∀ found missing db',
      batch_get_embeddings_with Config.TTL_SECONDS MAX_VARIABLE_NUMBER
        Config.MAX_VARS texts model now db
      = (Ok (found, missing), db') ->
      (∀ r i t, r ∈ db -> (now - created_at r > Config.TTL_SECONDS)%Z ->
                texts !! i = Some t -> _make_key t model = Ok (key r) ->
                found !! i = None ∧ i ∈ missing)
      ∧ ∃ expired_keys : gset (list N),
          (∀ k, k ∈ expired_keys <->
                batch_key texts model k
                ∧ ∃ r, r ∈ db ∧ key r = k
                       ∧ (now - created_at r > Config.TTL_SECONDS)%Z)
          ∧ (size expired_keys <= MAX_VARIABLE_NUMBER)%nat
          ∧ NoDup (elements expired_keys)
          ∧ db' = (if decide (expired_keys = ∅) then db
                   else Sql.delete_in (elements expired_keys) db)
          ∧ (∀ r, r ∈ db' <->
                  r ∈ db ∧ ¬ (batch_key texts model (key r)
                              ∧ (now - created_at r > Config.TTL_SECONDS)%Z))
          ∧ Sql.count db' = (Sql.count db - Z.of_nat (size expired_keys))%Z.
Proof.
  intros HL Hwf.
  assert (1 <= Config.MAX_VARS)%nat as HM by (unfold Config.MAX_VARS; lia).
  split.
  { intros Hblobs Hkeys. destruct (decide _) as [Hfew|Hmany].
    - by apply batch_with_total.
    - apply batch_with_over_limit; [done..| |lia].
      intros r Hr _ _. unfold blobs_ok in Hblobs.
      rewrite Forall_forall in Hblobs. by apply Hblobs. }
  intros found missing db' Hrun.
  assert (∀ c, is_expired Config.TTL_SECONDS now c = true
               <-> (now - c > Config.TTL_SECONDS)%Z) as Hexp
    by (intros c; apply is_expired_spec, config_ttl_nonzero).
  destruct (batch_with_expiry Config.TTL_SECONDS MAX_VARIABLE_NUMBER
              Config.MAX_VARS texts model now
              db found missing db') as (Hmiss & E & HE & Hnd & Hdb & Hrows & Hcount);
    [done..|].
  assert (size E <= MAX_VARIABLE_NUMBER)%nat as Hsize.
  { destruct (decide (texts = [])) as [->|Hne].
    - assert (E = ∅) as ->; [|rewrite size_empty; lia].
      apply set_eq. intros k. rewrite HE. split; [|by intros ?%not_elem_of_empty].
      by intros [(t & ?%elem_of_nil & _) _].
    - destruct (rmap (fun t => _make_key t model) texts) as [keys|e] eqn:Hkeys.
      2:{ destruct (batch_raise_keys Config.TTL_SECONDS MAX_VARIABLE_NUMBER
                      Config.MAX_VARS texts model now db e Hkeys) as [Hr _].
          congruence. }
      destruct (batch_with_Ok_inv _ _ _ _ _ _ _ keys _ _ _ HL Hne Hkeys Hrun)
        as (E' & Hscan & _ & _ & Hsize).
      assert (E = E') as ->; [|done].
      apply set_eq. intros k. rewrite HE.
      rewrite (scan_rows_expired_keys _ _ _ _ _ _ k Hscan). cbn [snd].
      split.
      + intros [Hk (r & Hr & <- & Hx)]. right. exists r. split; [|done].
        apply chunk_rows_elem; [done|]. apply list_elem_of_filter.
        split; [|done]. by apply (rmap_Ok_elem _ _ _ _ Hkeys).
      + intros [?%not_elem_of_empty|(r & Hr & Hx & <-)]; [done|].
        apply chunk_rows_elem in Hr; [|done].
        apply list_elem_of_filter in Hr as [Hk Hr].
        split; [by apply (rmap_Ok_elem _ _ _ _ Hkeys)|]. by exists r. }
  split.
  - intros r i t Hr Hgt. apply Hmiss; [done|]. by apply Hexp.
  - exists E. split; [|split; [done|split; [done|split; [done|split; [|done]]]]].
    + intros k. rewrite HE. by setoid_rewrite Hexp.
    + intros r. rewrite Hrows. by rewrite Hexp.
Qed.

Lemma batch_expiry_within_limit_witness :
  (blobs_ok wit_table ->
   (∀ t, t ∈ wit_batch -> ∃ k, _make_key t wit_model = Ok k) ->
   if decide (length (expired_in_batch Config.TTL_SECONDS wit_batch wit_model
                        2592001 wit_table) <= Config.MAX_VARIABLE_NUMBER)%nat
   then ∃ found missing db',
          batch_get_embeddings Config.TTL_SECONDS wit_batch wit_model 2592001
            wit_table
          = (Ok (found, missing), db')
   else batch_get_embeddings Config.TTL_SECONDS wit_batch wit_model 2592001
          wit_table
        = (Raise OperationalError, wit_table))
  ∧ ∀ found missing db',
      batch_get_embeddings Config.TTL_SECONDS wit_batch wit_model 2592001 wit_table
      = (Ok (found, missing), db') ->
      (∀ r i t, r ∈ wit_table -> (2592001 - created_at r > Config.TTL_SECONDS)%Z ->
                wit_batch !! i = Some t -> _make_key t wit_model = Ok (key r) ->
                found !! i = None ∧ i ∈ missing)
      ∧ ∃ expired_keys : gset (list N),
          (∀ k, k ∈ expired_keys <->
                batch_key wit_batch wit_model k
                ∧ ∃ r, r ∈ wit_table ∧ key r = k
                       ∧ (2592001 - created_at r > Config.TTL_SECONDS)%Z)
          ∧ (size expired_keys <= Config.MAX_VARIABLE_NUMBER)%nat
          ∧ NoDup (elements expired_keys)
          ∧ db' = (if decide (expired_keys = ∅) then wit_table
                   else Sql.delete_in (elements expired_keys) wit_table)
          ∧ (∀ r, r ∈ db' <->
                  r ∈ wit_table
                  ∧ ¬ (batch_key wit_batch wit_model (key r)
                       ∧ (2592001 - created_at r > Config.TTL_SECONDS)%Z))
          ∧ Sql.count db'
            = (Sql.count wit_table - Z.of_nat (size expired_keys))%Z.
Proof.
  apply (batch_expiry_within_limit Config.MAX_VARIABLE_NUMBER wit_batch wit_model
           2592001 wit_table).
  - unfold Config.MAX_VARS, Config.MAX_VARIABLE_NUMBER. lia.
  - unfold table_wf. apply (bool_decide_unpack _). vm_compute. exact I.
Defined.

(** ** Chunking *)

Section SliceFacts.

Context {A : Type}.
Implicit Types (l : list A) (n j : nat).

(** The slices [l[j*n : j*n+n]] for [j < c]. *)
Lemma slices_concat n l c :
  (length l <= c * n)%nat ->
  concat ((fun i => take n (drop i l)) <$> ((fun j => j * n)%nat <$> seq 0 c)) = l.
Proof.
  revert l. induction c as [|c IH]; intros l Hlen.
  - destruct l; [done|]. cbn in Hlen. lia.
  - cbn [seq fmap list_fmap concat]. rewrite <- fmap_S_seq.
    rewrite <- !list_fmap_compose. cbn [Nat.mul drop].
    transitivity (take n l ++ drop n l); [|apply take_drop]. f_equal.
    etransitivity; [|apply (IH (drop n l)); rewrite length_drop; lia].
    rewrite <- !list_fmap_compose.
    f_equal. apply list_fmap_ext. intros _ j _. cbn.
    by rewrite drop_drop.
Qed.

Lemma py_range_slices n l :
  (1 <= n)%nat ->
  let cs := (fun i => take n (drop i l)) <$> py_range (length l) n in
  concat cs = l
  ∧ Forall (fun c => 1 <= length c <= n)%nat cs
  ∧ (∀ j c, cs !! j = Some c -> (S j < length cs)%nat -> length c = n)
  ∧ length cs = ((length l + n - 1) / n)%nat.
Proof.
  intros Hn cs. subst cs. unfold py_range.
  set (c := ((length l + n - 1) / n)%nat).
  assert (length l <= c * n ∧ (c * n < length l + n))%nat as [Hc1 Hc2].
  { pose proof (Nat.div_mod_eq (length l + n - 1) n) as Hdm. fold c in Hdm.
    pose proof (Nat.mod_upper_bound (length l + n - 1) n). lia. }
  split; [by apply slices_concat|]. split; [|split].
  - apply Forall_forall. intros ch Hch.
    apply list_elem_of_fmap in Hch as (i & -> & Hi).
    apply list_elem_of_fmap in Hi as (j & -> & Hj).
    apply elem_of_seq in Hj. rewrite length_take, length_drop. nia.
  - intros j ch Hj Hlast. rewrite !length_fmap, length_seq in Hlast.
    rewrite !list_lookup_fmap in Hj.
    rewrite lookup_seq_lt in Hj by lia. cbn in Hj. injection Hj as <-.
    rewrite length_take, length_drop. nia.
  - by rewrite !length_fmap, length_seq.
Qed.

End SliceFacts.

(** X14. The chunking of the batch lookup covers the keys exactly once
    and in order: the chunks concatenated are the list of keys, no
    chunk is empty, every chunk but the last holds exactly 900 keys,
    and there are [ceil(len(keys) / 900)] of them. *)
Theorem batch_chunks_partition (keys : list (list N)) :
  let cs := chunks Config.MAX_VARS keys in
  concat cs = keys
  ∧ Forall (fun c => 1 <= length c <= 900)%nat cs
  ∧ (∀ j c, cs !! j = Some c -> (S j < length cs)%nat -> length c = 900%nat)
  ∧ length cs = ((length keys + 899) / 900)%nat.
Proof.
  intros cs. subst cs. unfold chunks.
  destruct (py_range_slices Config.MAX_VARS keys)
    as (Hcat & Hlen & Hfull & Hcount); [vm_compute; lia|].
  split; [done|]. split; [done|]. split; [done|].
  rewrite Hcount. f_equal. unfold Config.MAX_VARS. lia.
Qed.

(** ** The codec and the keys *)

Section CodecMore.

Implicit Types (w : N) (v : list spec_float) (b : list byte).

(** Every 32-bit pattern decodes to a float32. *)
Lemma of_bits_valid w : valid_binary 24 128 (F32.of_bits w) = true.
Proof.
  unfold F32.of_bits.
  set (e := (w / 8388608) mod 256). set (f := w mod 8388608).
  assert (f < 8388608) as Hf by (subst f; lia_div).
  assert (e < 256) as He by (subst e; lia_div).
  destruct (N.eqb_spec e 0) as [He0|He0].
  - destruct f as [|m] eqn:Hm; [done|]. cbn [valid_binary].
    unfold bounded, canonical_mantissa. apply andb_true_iff. split; [|done].
    apply Z.eqb_eq. unfold fexp, emin.
    pose proof (digits2_bounds m) as [Hlo _].
    assert (Z.pos (digits2_pos m) - 1 < 23)%Z.
    { apply pow2_lt_inv; [lia|]. eapply Z.le_lt_trans; [exact Hlo|]. lia. }
    lia.
  - destruct (N.eqb_spec e 255) as [He1|He1].
    + by destruct (f =? 0).
    + destruct (f + 8388608) as [|m] eqn:Hm; [done|]. cbn [valid_binary].
      unfold bounded, canonical_mantissa. apply andb_true_iff. split.
      * apply Z.eqb_eq. unfold fexp, emin.
        change (Z.pos (digits2_pos m)) with (Zdigits2 (Z.pos m)).
        rewrite (digits2_unique (Z.pos m) 24) by lia. lia.
      * apply Z.leb_le. lia.
Qed.

End CodecMore.

(** X15. Storing again what was read is lossless: a vector decoded
    from any blob is encoded by [_serialize_emb] to a blob that decodes
    to the same vector, element for element. *)
Theorem deserialize_reserialize (b : list byte) (v : list spec_float) :
  _deserialize_emb b = Ok v ->
  _deserialize_emb (_serialize_emb v) = Ok v.
Proof.
  intros Hdec. rewrite deserialize_serialize. f_equal.
  unfold _deserialize_emb in Hdec.
  destruct (_ =? _)%nat; [|done]. injection Hdec as <-.
  rewrite map_map. apply map_ext. intros g.
  by rewrite of_float_to_float by apply of_bits_valid.
Qed.

Lemma deserialize_reserialize_witness :
  _deserialize_emb (_serialize_emb wit_vec32) = Ok wit_vec32.
Proof.
  apply (deserialize_reserialize (_serialize_emb wit_vec) wit_vec32).
  vm_compute. reflexivity.
Defined.

Section Overflow.

Local Open Scope Z_scope.

Implicit Types (m p : positive) (z e E : Z) (s : bool) (x : spec_float).

Lemma round_pack_finite s z E :
  0 <= z -> E <= 104 ->
  match round_pack 24 128 s z E with
  | S754_zero _ | S754_finite _ _ _ => True
  | _ => False
  end.
Proof.
  intros Hz HE. unfold round_pack. destruct z as [|p|p]; [done| |lia].
  by destruct (Z.leb_spec E (128 - 24)); [|lia].
Qed.

Lemma round_pack_overflow s z E :
  0 < z -> 105 <= E -> round_pack 24 128 s z E = S754_infinity s.
Proof.
  intros Hz HE. unfold round_pack. destruct z as [|p|p]; try lia.
  by destruct (Z.leb_spec E (128 - 24)); [lia|].
Qed.

(** Where rounding to float32 overflows: at [2 ^ 128 - 2 ^ 103], the
    midpoint between the largest float32 and [2 ^ 128]. *)
Lemma round_model_overflow s m e :
  -1074 <= e ->
  let A := Z.pos m * 2 ^ (e + 1074) in
  ((2 ^ 25 - 1) * 2 ^ 1177 <= A -> round_model 24 128 s m e = S754_infinity s)
  ∧ (A < (2 ^ 25 - 1) * 2 ^ 1177 ->
     match round_model 24 128 s m e with
     | S754_zero _ | S754_finite _ _ _ => True
     | _ => False
     end).
Proof.
  intros He A. unfold round_model.
  pose proof (digits2_bounds m) as [Hlo Hhi].
  set (d := Z.pos (digits2_pos m)) in *.
  assert (0 < d) as Hd by (unfold d; lia).
  set (E := Z.max (d + e - 24) (3 - 128 - 24)).
  assert (E = Z.max (d + e - 24) (-149)) as HEdef by (unfold E; lia).
  clearbody E.
  set (S := 2 ^ (e + 1074)) in *.
  assert (0 < S) as HS by (apply Z.pow_pos_nonneg; lia).
  assert (2 ^ (d - 1 + (e + 1074)) <= A < 2 ^ (d + (e + 1074))) as [HAlo HAhi].
  { rewrite (Z.pow_add_r 2 (d - 1)), (Z.pow_add_r 2 d) by lia.
    fold S. unfold A. split.
    - apply Z.mul_le_mono_nonneg_r; lia.
    - apply Z.mul_lt_mono_pos_r; lia. }
  destruct (Z.lt_total (d + e) 128) as [Hsmall|[Hmid|Hbig]].
  - (* below 2 ^ 127: no overflow *)
    assert (A < (2 ^ 25 - 1) * 2 ^ 1177) as Hlt.
    { assert (2 ^ (d + (e + 1074)) <= 2 ^ 1201) by (apply Z.pow_le_mono_r; lia).
      change (2 ^ 1201) with (2 ^ 24 * 2 ^ 1177) in *.
      pose proof (Z.pow_pos_nonneg 2 1177 ltac:(lia) ltac:(lia)). lia. }
    split; [lia|]. intros _.
    destruct (Z.leb_spec E e).
    + apply round_pack_finite; [|lia].
      apply Z.mul_nonneg_nonneg; [lia|apply Z.pow_nonneg; lia].
    + assert (0 <= Z.pos m / 2 ^ (E - e)) as Hq0
        by (apply Z.div_pos; [lia|apply Z.pow_pos_nonneg; lia]).
      destruct (_ =? _); apply round_pack_finite; try lia.
      destruct (round_up _ _ _); lia.
  - (* between 2 ^ 127 and 2 ^ 128 *)
    assert (E = 104) as -> by lia.
    destruct (Z.leb_spec 104 e) as [Hle|Hgt].
    + (* at most 24 digits: exact *)
      assert (A < (2 ^ 25 - 1) * 2 ^ 1177) as Hlt.
      { assert (Z.pos m + 1 <= 2 ^ d) as Hm1 by lia.
        assert (2 ^ d <= 2 ^ 24) as Hd24 by (apply Z.pow_le_mono_r; lia).
        assert (S = 2 ^ (e - 104) * 2 ^ 1178) as HSe.
        { unfold S. rewrite <- Z.pow_add_r by lia. f_equal. lia. }
        assert (2 ^ d * 2 ^ (e - 104) = 2 ^ 24) as Hprod.
        { rewrite <- Z.pow_add_r by lia. f_equal. lia. }
        assert (0 < 2 ^ (e - 104)) as Hpe by (apply Z.pow_pos_nonneg; lia).
        assert ((Z.pos m + 1) * 2 ^ (e - 104) <= 2 ^ 24) as Hz.
        { rewrite <- Hprod. apply Z.mul_le_mono_nonneg_r; lia. }
        assert (Z.pos m * 2 ^ (e - 104) <= 2 ^ 24 - 1) as Hz' by lia.
        unfold A. rewrite HSe, Z.mul_assoc.
        pose proof (Z.pow_pos_nonneg 2 1178 ltac:(lia) ltac:(lia)) as Hp.
        assert (Z.pos m * 2 ^ (e - 104) * 2 ^ 1178 <= (2 ^ 24 - 1) * 2 ^ 1178)
          by (apply Z.mul_le_mono_nonneg_r; lia).
        change (2 ^ 1178) with (2 * 2 ^ 1177) in *.
        pose proof (Z.pow_pos_nonneg 2 1177 ltac:(lia) ltac:(lia)). lia. }
      split; [lia|]. intros _. apply round_pack_finite; [|lia].
      apply Z.mul_nonneg_nonneg; [lia|apply Z.pow_nonneg; lia].
    + (* more than 24 digits: the quotient has 24 digits *)
      set (n := 104 - e). set (N2 := 2 ^ n).
      assert (0 < N2) as HN by (apply Z.pow_pos_nonneg; lia).
      set (q := Z.pos m / N2). set (r := Z.pos m mod N2).
      assert (Z.pos m = q * N2 + r ∧ 0 <= r < N2) as [Hm Hr].
      { unfold q, r. pose proof (Z.div_mod (Z.pos m) N2 ltac:(lia)).
        pose proof (Z.mod_pos_bound (Z.pos m) N2 HN). lia. }
      assert (d = n + 24) as Hdn by (unfold n; lia).
      assert (2 ^ 23 <= q < 2 ^ 24) as [Hqlo Hqhi].
      { split.
        - apply Z.div_le_lower_bound; [done|].
          unfold N2. rewrite <- Z.pow_add_r by lia.
          replace (n + 23) with (d - 1) by lia. lia.
        - apply Z.div_lt_upper_bound; [done|].
          unfold N2. rewrite <- Z.pow_add_r by lia.
          replace (n + 24) with d by lia. lia. }
      assert (N2 = 2 * 2 ^ (n - 1)) as HN2.
      { unfold N2. replace n with (1 + (n - 1)) at 1 by lia.
        rewrite Z.pow_add_r by lia. done. }
      assert (0 < 2 ^ (n - 1)) as Hhalf by (apply Z.pow_pos_nonneg; lia).
      assert (S * 2 ^ (n - 1) = 2 ^ 1177) as HSn.
      { unfold S. rewrite <- Z.pow_add_r by lia. f_equal. unfold n. lia. }
      (* the threshold in terms of [m] *)
      assert ((2 ^ 25 - 1) * 2 ^ 1177 <= A
              <-> (2 ^ 25 - 1) * 2 ^ (n - 1) <= Z.pos m) as Hthr.
      { unfold A. rewrite <- HSn.
        replace ((2 ^ 25 - 1) * (S * 2 ^ (n - 1)))
          with ((2 ^ 25 - 1) * 2 ^ (n - 1) * S) by ring.
        split.
        - intros H. by apply Z.mul_le_mono_pos_r in H.
        - intros H. by apply Z.mul_le_mono_nonneg_r; [lia|]. }
      assert ((2 ^ 25 - 1) * 2 ^ (n - 1) <= Z.pos m
              <-> q = 2 ^ 24 - 1 ∧ N2 <= 2 * r) as Hqr.
      { rewrite Hm, HN2. split.
        - intros H.
          assert (q = 2 ^ 24 - 1) as Hq; [|split; [done|]; rewrite Hq in H; lia].
          assert (2 ^ 24 - 1 <= q); [|lia].
          destruct (Z.le_gt_cases (2 ^ 24 - 1) q) as [|Hq]; [done|]. exfalso.
          assert (q + 1 <= 2 ^ 24 - 1) as Hq1 by lia.
          assert ((q + 1) * (2 * 2 ^ (n - 1)) <= (2 ^ 24 - 1) * (2 * 2 ^ (n - 1)))
            by (apply Z.mul_le_mono_nonneg_r; lia).
          lia.
        - intros [-> H2r]. lia. }
      assert (round_up n q r = true <-> N2 < 2 * r ∨ (N2 = 2 * r ∧ Z.odd q = true))
        as Hup.
      { unfold round_up. fold N2.
        rewrite orb_true_iff, andb_true_iff, Z.ltb_lt, Z.eqb_eq. tauto. }
      fold n N2 q r.
      destruct (Z.le_gt_cases ((2 ^ 25 - 1) * 2 ^ 1177) A) as [Hover|Hunder].
      * split; [|lia]. intros _.
        apply Hthr, Hqr in Hover as [Hq H2r].
        assert (round_up n q r = true) as ->.
        { apply Hup. rewrite Hq.
          destruct (Z.eq_dec N2 (2 * r)); [right; by split|left; lia]. }
        rewrite Hq. change (2 ^ 24 - 1 + 1 =? 2 ^ 24) with true. cbv iota.
        apply round_pack_overflow; lia.
      * split; [lia|]. intros _.
        assert ((if round_up n q r then q + 1 else q) < 2 ^ 24) as Hq'.
        { destruct (round_up n q r) eqn:Hru; [|lia].
          pose proof (proj1 Hup eq_refl) as Hcases.
          destruct (Z.eq_dec q (2 ^ 24 - 1)) as [Hq|Hq]; [|lia]. exfalso.
          assert (N2 <= 2 * r) as H2r by lia.
          pose proof (proj2 Hqr (conj Hq H2r)) as Hm'.
          apply Hthr in Hm'. lia. }
        destruct (Z.eqb_spec (if round_up n q r then q + 1 else q) (2 ^ 24));
          [lia|].
        apply round_pack_finite; [|lia]. destruct (round_up n q r); lia.
  - (* at least 2 ^ 128: overflow *)
    assert ((2 ^ 25 - 1) * 2 ^ 1177 <= A) as Hge.
    { assert (2 ^ 1202 <= 2 ^ (d - 1 + (e + 1074)))
        by (apply Z.pow_le_mono_r; lia).
      change (2 ^ 1202) with (2 ^ 25 * 2 ^ 1177) in *.
      pose proof (Z.pow_pos_nonneg 2 1177 ltac:(lia) ltac:(lia)). lia. }
    split; [|lia]. intros _.
    assert (E = d + e - 24) as -> by lia.
    destruct (Z.leb_spec (d + e - 24) e).
    + apply round_pack_overflow; [|lia].
      apply Z.mul_pos_pos; [lia|apply Z.pow_pos_nonneg; lia].
    + replace (d + e - 24 - e) with (d - 24) in * by lia.
      assert (2 ^ 23 <= Z.pos m / 2 ^ (d - 24)) as Hq.
      { apply Z.div_le_lower_bound; [apply Z.pow_pos_nonneg; lia|].
        rewrite <- Z.pow_add_r by lia.
        replace (d - 24 + 23) with (d - 1) by lia. lia. }
      destruct (_ =? _); apply round_pack_overflow; try lia.
      destruct (round_up _ _ _); lia.
Qed.

End Overflow.

(** X16. Where a component overflows float32.  A finite Python float
    is stored and read back as an infinity (of its sign) exactly when
    its magnitude is at least [2 ^ 128 - 2 ^ 103], half a step above
    the largest float32; every smaller float comes back finite.  The
    magnitude is given times [2 ^ 1074]. *)
Theorem serialize_overflow_threshold (x : spec_float) (a : Z) :
  is_python_float x ->
  f64_scaled x = Some a ->
  (((2 ^ 25 - 1) * 2 ^ 1177 <= Z.abs a)%Z ->
   _deserialize_emb (_serialize_emb [x]) = Ok [S754_infinity (a <? 0)%Z])
  ∧ ((Z.abs a < (2 ^ 25 - 1) * 2 ^ 1177)%Z ->
     ∃ y b, _deserialize_emb (_serialize_emb [x]) = Ok [y]
            ∧ f64_scaled y = Some b).
Proof.
  intros Hx Ha. rewrite deserialize_serialize. cbn [map].
  destruct x as [s|s| |s m e]; try done.
  - injection Ha as <-. split; [cbn; lia|]. intros _.
    exists (S754_zero s), 0%Z. done.
  - apply binary64_canonical in Hx as [He _].
    cbn [f64_scaled] in Ha. injection Ha as <-.
    pose proof (Z.pow_pos_nonneg 2 (e + 1074) ltac:(lia) ltac:(lia)) as Hp.
    assert (0 < Z.pos m * 2 ^ (e + 1074))%Z as Hpos by (apply Z.mul_pos_pos; lia).
    assert (Z.abs (cond_Zopp s (Z.pos m * 2 ^ (e + 1074)))
            = (Z.pos m * 2 ^ (e + 1074))%Z) as ->
      by (destruct s; cbn [cond_Zopp]; lia).
    assert ((cond_Zopp s (Z.pos m * 2 ^ (e + 1074)) <? 0)%Z = s) as ->.
    { destruct s; cbn [cond_Zopp]; [apply Z.ltb_lt|apply Z.ltb_ge]; lia. }
    cbn [F32.of_float]. unfold F32.prec, F32.emax.
    rewrite binary_round_model by lia.
    pose proof (round_model_valid 24 128 ltac:(lia) s m e) as Hvalid.
    destruct (round_model_overflow s m e He) as [Hover Hunder].
    split.
    + intros Hge. by rewrite (Hover Hge).
    + intros Hlt. specialize (Hunder Hlt).
      destruct (round_model 24 128 s m e) as [s'|s'| |s' m' e']; try done.
      * by exists (S754_zero s'), 0%Z.
      * destruct (to_float_finite s' m' e' Hvalid) as (m'' & -> & _).
        eexists _, _. split; [done|]. cbn [f64_scaled]. done.
Qed.

Lemma serialize_overflow_threshold_witness :
  (((2 ^ 25 - 1) * 2 ^ 1177 <= Z.abs (6724873095247260 * 2 ^ 2018))%Z ->
   _deserialize_emb (_serialize_emb [huge_float])
   = Ok [S754_infinity (6724873095247260 * 2 ^ 2018 <? 0)%Z])
  ∧ ((Z.abs (6724873095247260 * 2 ^ 2018) < (2 ^ 25 - 1) * 2 ^ 1177)%Z ->
     ∃ y b, _deserialize_emb (_serialize_emb [huge_float]) = Ok [y]
            ∧ f64_scaled y = Some b).
Proof.
  apply (serialize_overflow_threshold huge_float (6724873095247260 * 2 ^ 2018)).
  - vm_compute. reflexivity.
  - vm_compute. reflexivity.
Defined.

(** The largest Python float below the threshold comes back as the
    largest float32, and the threshold itself as an infinity. *)
Example overflow_boundary_example :
  _deserialize_emb
    (_serialize_emb [S754_finite false 9007198986305535 75;
                     S754_finite false 9007198986305536 75])
  = Ok [S754_finite false 9007198717870080 75; S754_infinity false].
Proof. vm_compute. reflexivity. Qed.

Section KeyFormat.

Implicit Types (c d x : N) (s t m : list N).

Lemma hex_digit_range d :
  d < 16 -> 48 <= SHA256.hex_digit d <= 57 ∨ 97 <= SHA256.hex_digit d <= 102.
Proof. unfold SHA256.hex_digit. destruct (N.ltb_spec d 10); lia. Qed.

Lemma hex_of_shape n x :
  length (SHA256.hex_of n x) = n
  ∧ Forall (fun c => 48 <= c <= 57 ∨ 97 <= c <= 102) (SHA256.hex_of n x).
Proof.
  induction n as [|n [IH1 IH2]]; [by split|]. cbn [SHA256.hex_of]. split.
  - cbn. by rewrite IH1.
  - constructor; [|done]. apply hex_digit_range. lia_div.
Qed.

Lemma flat_map_hex_shape (ws : list N) :
  length (flat_map (SHA256.hex_of 8) ws) = (8 * length ws)%nat
  ∧ Forall (fun c => 48 <= c <= 57 ∨ 97 <= c <= 102)
           (flat_map (SHA256.hex_of 8) ws).
Proof.
  induction ws as [|w ws [IH1 IH2]]; [by split|]. cbn [flat_map].
  destruct (hex_of_shape 8 w) as [H1 H2]. split.
  - rewrite length_app, H1, IH1. cbn [length]. lia.
  - by apply Forall_app.
Qed.

(** The code points of the words of [s.split()] are the code points of
    [s] that are no whitespace. *)
Lemma split_from_elem c s (w : list N) :
  c ∈ s -> PyStr.is_space c = false ->
  ∃ w', w' ∈ PyStr.split_from w s ∧ c ∈ w'.
Proof.
  revert w. induction s as [|a s IH]; intros w Hc Hns; [by apply elem_of_nil in Hc|].
  assert (∀ w0 s0, c ∈ w0 -> ∃ w', w' ∈ PyStr.split_from w0 s0 ∧ c ∈ w') as Hword.
  { intros w0 s0. revert w0. induction s0 as [|a0 s0 IH0]; intros w0 Hw0.
    - cbn. destruct w0; [by apply elem_of_nil in Hw0|].
      eexists. split; [by left|done].
    - cbn. destruct (PyStr.is_space a0).
      + destruct w0; [by apply elem_of_nil in Hw0|].
        eexists. split; [by left|done].
      + apply IH0. apply elem_of_app. by left. }
  cbn. apply elem_of_cons in Hc as [->|Hc].
  - rewrite Hns. apply Hword. apply elem_of_app. right. by left.
  - destruct (PyStr.is_space a).
    + destruct w as [|? ?].
      * by apply IH.
      * destruct (IH [] Hc Hns) as (w' & ? & ?). exists w'. split; [by right|done].
    + by apply IH.
Qed.

Lemma join_elem sep (ws : list (list N)) w c :
  w ∈ ws -> c ∈ w -> c ∈ PyStr.join sep ws.
Proof.
  induction ws as [|w0 ws IH]; [by intros ?%elem_of_nil|].
  intros Hw Hc. rewrite join_cons. apply elem_of_app.
  apply elem_of_cons in Hw as [->|Hw]; [by left|]. right.
  destruct ws as [|w1 ws]; [by apply elem_of_nil in Hw|].
  apply elem_of_app. right. by apply IH.
Qed.

Lemma is_space_scalar c : PyStr.is_space c = true -> PyStr.is_scalar c = true.
Proof.
  unfold PyStr.is_space, PyStr.is_scalar.
  rewrite !orb_true_iff, !andb_true_iff, !N.leb_le, !N.eqb_eq, !N.ltb_lt. lia.
Qed.

Lemma encode_cp_None c : PyStr.encode_cp c = None <-> PyStr.is_scalar c = false.
Proof.
  split.
  - intros Hn. destruct (PyStr.is_scalar c) eqn:Hs; [|done].
    destruct (encode_cp_scalar c Hs) as [bs Hbs]. congruence.
  - unfold PyStr.is_scalar, PyStr.encode_cp. intros Hs.
    apply orb_false_iff in Hs as [H1 H2].
    apply N.ltb_ge in H1.
    destruct (N.ltb_spec c 0x80); [lia|].
    destruct (N.ltb_spec c 0x800); [lia|].
    destruct (N.ltb_spec c 0x10000).
    + destruct (N.leb_spec 0xD800 c); [|lia]. cbn.
      destruct (N.leb_spec c 0xDFFF); [done|].
      apply andb_false_iff in H2 as [H2|H2].
      * apply N.ltb_ge in H2. lia.
      * apply N.ltb_ge in H2. lia.
    + apply andb_false_iff in H2 as [H2|H2].
      * apply N.ltb_ge in H2. lia.
      * by rewrite H2.
Qed.

Lemma encode_utf8_Raise s :
  PyStr.encode_utf8 s = Raise UnicodeEncodeError
  <-> ∃ c, c ∈ s ∧ PyStr.is_scalar c = false.
Proof.
  induction s as [|a s IH].
  - split; [done|]. by intros (c & ?%elem_of_nil & _).
  - cbn [PyStr.encode_utf8].
    destruct (PyStr.encode_cp a) as [bs|] eqn:Ha.
    + assert (PyStr.is_scalar a = true) as Hsa.
      { destruct (PyStr.is_scalar a) eqn:Hs; [done|].
        apply encode_cp_None in Hs. congruence. }
      destruct (PyStr.encode_utf8 s) as [d|e] eqn:Hs; cbn.
      * split; [done|]. intros (c & [->|Hc]%elem_of_cons & Hns); [congruence|].
        assert (Ok d = Raise UnicodeEncodeError :> result (list byte)); [|done].
        apply IH. by exists c.
      * pose proof (encode_utf8_raise _ _ Hs) as ->. split; [|done].
        intros _. destruct (proj1 IH eq_refl) as (c & ? & ?).
        exists c. split; [by right|done].
    + split; [|done]. intros _. exists a. split; [by left|].
      by apply encode_cp_None.
Qed.

End KeyFormat.

Section NormalForm.

Implicit Types (c : N) (w u s t : list N) (ws : list (list N)).

(** Splitting what was joined with single spaces gives the words
    back. *)
Lemma split_join ws :
  Forall word_ok ws -> PyStr.split (PyStr.join [32] ws) = ws.
Proof.
  unfold PyStr.split. induction 1 as [|w ws [Hne Hw] Hws IH]; [done|].
  rewrite join_cons. destruct ws as [|w1 ws].
  - rewrite split_from_nonspace by done. cbn. by destruct w.
  - rewrite split_from_nonspace by done. cbn [app].
    change (PyStr.split_from w (32 :: PyStr.join [32] (w1 :: ws)))
      with (match w with
            | [] => PyStr.split_from [] (PyStr.join [32] (w1 :: ws))
            | _ => w :: PyStr.split_from [] (PyStr.join [32] (w1 :: ws))
            end).
    rewrite IH. by destruct w.
Qed.

Lemma normalize_idem t : normalize (normalize t) = normalize t.
Proof.
  unfold normalize. change (of_string " ") with [32].
  by rewrite split_join by apply split_words.
Qed.

End NormalForm.

(** X17. The shape of a key: every key [_make_key] returns is a string
    of exactly 64 characters, each a digit [0-9] or a letter [a-f]. *)
Theorem make_key_format (text model k : list N) :
  _make_key text model = Ok k ->
  length k = 64%nat ∧ Forall (fun c => 48 <= c <= 57 ∨ 97 <= c <= 102) k.
Proof.
  rewrite make_key_words. unfold key_words.
  destruct (PyStr.encode_utf8 (prehash text model)) as [data|]; [|done].
  cbn. intros [= <-].
  destruct (flat_map_hex_shape (SHA256.digest_words (map Byte.to_N data)))
    as [Hlen Hall].
  destruct (digest_words_shape (map Byte.to_N data)) as [Hw _].
  rewrite Hw in Hlen. done.
Qed.

Lemma make_key_format_witness :
  length wit_key2 = 64%nat
  ∧ Forall (fun c => 48 <= c <= 57 ∨ 97 <= c <= 102) wit_key2.
Proof.
  apply (make_key_format wit_text2 wit_model wit_key2).
  vm_compute. reflexivity.
Defined.

(** X18. When key derivation fails: [_make_key] raises
    [UnicodeEncodeError] exactly when the text or the model name holds
    a code point that is no Unicode scalar value (a lone surrogate),
    and it raises nothing else. *)
Theorem make_key_failure (text model : list N) :
  (_make_key text model = Raise UnicodeEncodeError
   <-> ∃ c, (c ∈ text ∨ c ∈ model) ∧ PyStr.is_scalar c = false)
  ∧ (∀ e, _make_key text model = Raise e -> e = UnicodeEncodeError).
Proof.
  split; [|intros e; apply make_key_raise].
  rewrite make_key_unfold.
  assert ((∃ c, (c ∈ text ∨ c ∈ model) ∧ PyStr.is_scalar c = false)
          <-> PyStr.encode_utf8 (prehash text model) = Raise UnicodeEncodeError)
    as ->.
  { rewrite encode_utf8_Raise. unfold prehash. split.
    - intros (c & [Hc|Hc] & Hns); exists c; (split; [|done]).
      + apply elem_of_app. right. apply elem_of_app. right.
        assert (PyStr.is_space c = false) as Hsp.
        { destruct (PyStr.is_space c) eqn:Hsp; [|done].
          apply is_space_scalar in Hsp. congruence. }
        destruct (split_from_elem c text [] Hc Hsp) as (w & Hw & Hcw).
        by apply (join_elem _ _ w).
      + apply elem_of_app. by left.
    - intros (c & Hc & Hns). exists c. split; [|done].
      apply elem_of_app in Hc as [Hc|Hc]; [by right|].
      apply elem_of_app in Hc as [Hc|Hc].
      { apply list_elem_of_singleton in Hc. subst c. by vm_compute in Hns. }
      left.
      destruct (decide (c ∈ text)) as [|Hno]; [done|]. exfalso.
      assert (Forall (fun c' => c' ≠ c) (normalize text)) as Hall.
      { apply join_Forall.
        - constructor; [|done]. intros <-. by vm_compute in Hns.
        - apply split_from_Forall; [done|].
          apply Forall_forall. intros c' Hc' ->. done. }
      rewrite Forall_forall in Hall. by apply (Hall c). }
  destruct (PyStr.encode_utf8 (prehash text model)) as [d|e] eqn:He; cbn.
  - done.
  - by pose proof (encode_utf8_raise _ _ He) as ->.
Qed.

(** X19. The normal form of a text is a fixed point of the
    normalisation, with the same words as the text, and a text and its
    normal form have the same key under every model: a caller may
    normalise before calling and reaches the same record. *)
Theorem normalize_idempotent (text model : list N) :
  normalize (normalize text) = normalize text
  ∧ PyStr.split (normalize text) = PyStr.split text
  ∧ _make_key (normalize text) model = _make_key text model.
Proof.
  split; [apply normalize_idem|]. split.
  - apply normalize_eq_iff, normalize_idem.
  - apply make_key_normal_form, normalize_idem.
Qed.

(** ** Tables built by the cache *)

Section History.

Variables MAX_ENTRIES TTL_SECONDS : Z.
Hypothesis cap_range : (0 <= MAX_ENTRIES < 2 ^ 48)%Z.

Implicit Types (db : list row) (r : row) (c : call) (L : nat).

Lemma cache_inv_sublist db db' :
  db' `sublist_of` db -> cache_inv MAX_ENTRIES db -> cache_inv MAX_ENTRIES db'.
Proof.
  intros Hsub (Hwf & Hcount & Hall). split; [|split].
  - by eapply table_wf_sublist.
  - apply sublist_length in Hsub. unfold Sql.count in *. lia.
  - rewrite Forall_forall in *. intros r Hr. apply Hall.
    by eapply elem_of_sublist.
Qed.

Lemma get_result_sublist text model now db :
  (get_embedding_from_cache TTL_SECONDS text model now db).2 `sublist_of` db.
Proof.
  unfold get_embedding_from_cache.
  destruct (_make_key text model) as [k|e]; [|done].
  destruct (Sql.select_by_key k db) as [r|]; [|done].
  destruct (is_expired _ _ _); [|done]. apply sublist_filter.
Qed.

Lemma batch_result_sublist L texts model now db :
  (batch_get_embeddings_with TTL_SECONDS L Config.MAX_VARS texts model now db).2
  `sublist_of` db.
Proof.
  unfold batch_get_embeddings_with.
  destruct texts as [|t texts]; [done|].
  destruct (rmap _ _) as [keys|e]; [|done].
  destruct (rfold _ _ _) as [[found expired_keys]|e]; [|done].
  destruct (decide (expired_keys = ∅)); [done|].
  destruct (Sql.bindable _ _); [|done]. apply sublist_filter.
Qed.

Lemma put_result_inv text model vec now db :
  cache_inv MAX_ENTRIES db ->
  cache_inv MAX_ENTRIES (put_embedding_in_cache MAX_ENTRIES text model vec now db).2.
Proof.
  intros (Hwf & Hcount & Hall).
  destruct (_make_key text model) as [k|e] eqn:Hk.
  2:{ unfold put_embedding_in_cache. by rewrite Hk. }
  destruct (put_spec MAX_ENTRIES text model k vec now db _ Hwf Hk
              (cutoff_any MAX_ENTRIES cap_range))
    as (db' & -> & Hwf' & Hsame & Hevict & Hcap).
  { lia_div. }
  cbn [snd]. split; [done|]. split; [done|].
  set (db1 := Sql.insert_or_replace (new_row text model k vec now) db) in *.
  assert (∀ r, r ∈ db' -> r ∈ db1) as Hin.
  { destruct (Z.le_gt_cases (Sql.count db1) MAX_ENTRIES) as [Hle|Hgt].
    - by rewrite (Hsame Hle).
    - destruct (Hevict ltac:(lia)) as (Hsub & _). intros r Hr.
      by eapply elem_of_sublist. }
  rewrite Forall_forall in *. intros r Hr.
  apply Hin, insert_or_replace_elem in Hr as [->|[Hr _]]; [|by apply Hall].
  by exists text, vec.
Qed.

Lemma run_call_inv L c db :
  cache_inv MAX_ENTRIES db ->
  cache_inv MAX_ENTRIES (run_call_with L MAX_ENTRIES TTL_SECONDS db c).
Proof.
  intros Hinv. destruct c as [text model now|text model vec now|texts model now];
    cbn [run_call_with].
  - eapply cache_inv_sublist; [apply get_result_sublist|done].
  - by apply put_result_inv.
  - eapply cache_inv_sublist; [apply batch_result_sublist|done].
Qed.

Lemma run_calls_inv L calls db :
  cache_inv MAX_ENTRIES db ->
  cache_inv MAX_ENTRIES (run_calls_with L MAX_ENTRIES TTL_SECONDS calls db).
Proof.
  revert db. induction calls as [|c calls IH]; intros db Hinv; [done|].
  cbn. apply IH. by apply run_call_inv.
Qed.

Lemma cache_inv_empty : cache_inv MAX_ENTRIES [].
Proof.
  split; [apply NoDup_nil_2|]. split; [|constructor].
  pose proof cap_range. unfold Sql.count. cbn. lia.
Qed.

Lemma written_blob_ok r : written_by_put r -> (length (emb r) mod 4 = 0)%nat.
Proof.
  intros (t & vec & _ & _ & ->). rewrite serialize_length, Nat.mul_comm.
  apply Nat.Div0.mod_mul.
Qed.

End History.

(** X20. What every table built by the cache satisfies.  Starting from
    the empty table, after any sequence of lookups, writes and batch
    lookups (at any times, with any arguments) and for every cap from 0
    up to [2 ^ 48]: keys are unique, the table holds at most
    [MAX_ENTRIES] records, and every record is one that
    [put_embedding_in_cache] wrote: its key is the key of a text under
    its model, its text is at most 2000 code points long, and its blob
    is the encoding of a vector. *)
Theorem cache_history_invariants (MAX_ENTRIES TTL_SECONDS : Z) (calls : list call) :
  (0 <= MAX_ENTRIES < 2 ^ 48)%Z ->
  let db := run_calls MAX_ENTRIES TTL_SECONDS calls [] in
  table_wf db
  ∧ (Sql.count db <= MAX_ENTRIES)%Z
  ∧ Forall (fun r => written_by_put r
                     ∧ (length (text r) <= 2000)%nat
                     ∧ length (key r) = 64%nat
                     ∧ (length (emb r) mod 4 = 0)%nat) db.
Proof.
  intros Hcap db.
  destruct (run_calls_inv MAX_ENTRIES TTL_SECONDS Hcap Config.MAX_VARIABLE_NUMBER
              calls [] (cache_inv_empty MAX_ENTRIES Hcap)) as (Hwf & Hcount & Hall).
  split; [done|]. split; [done|].
  eapply Forall_impl; [exact Hall|]. intros r Hr. cbn beta.
  split; [done|]. pose proof (written_blob_ok r Hr) as Hblob.
  destruct Hr as (t & vec & Hk & Ht & _).
  split; [|split; [|done]].
  - rewrite Ht. unfold PyStr.slice_to. rewrite length_take. lia.
  - rewrite make_key_words in Hk. unfold key_words in Hk.
    destruct (PyStr.encode_utf8 (prehash t (model r))) as [data|]; [|done].
    cbn in Hk. injection Hk as <-.
    destruct (flat_map_hex_shape (SHA256.digest_words (map Byte.to_N data)))
      as [Hlen _].
    destruct (digest_words_shape (map Byte.to_N data)) as [Hw _].
    by rewrite Hw in Hlen.
Qed.

Lemma cache_history_invariants_witness :
  let db := run_calls 3 Config.TTL_SECONDS wit_calls [] in
  table_wf db
  ∧ (Sql.count db <= 3)%Z
  ∧ Forall (fun r => written_by_put r
                     ∧ (length (text r) <= 2000)%nat
                     ∧ length (key r) = 64%nat
                     ∧ (length (emb r) mod 4 = 0)%nat) db.
Proof. apply (cache_history_invariants 3 Config.TTL_SECONDS wit_calls). lia. Defined.

(** X21. Reading what the cache wrote never fails to decode, for every
    SQLite whose limit on bound variables is at least the chunk size.
    On a table built from the empty one by any sequence of calls, a
    lookup fails only when its key cannot be derived.  A batch lookup
    raises neither [ValueError] nor [OverflowError]; it raises
    [UnicodeEncodeError] exactly when the key of some text cannot be
    derived, and [OperationalError] exactly when all keys are derived
    and the table holds more expired records under keys of the batch
    than the limit: the one [DELETE] of their keys is then refused. *)
Theorem cache_reads_decode (MAX_VARIABLE_NUMBER : nat) (MAX_ENTRIES TTL_SECONDS : Z)
    (calls : list call) (text model : list N) (texts : list (list N)) (now : Z) :
  (Config.MAX_VARS <= MAX_VARIABLE_NUMBER)%nat ->
  (0 <= MAX_ENTRIES < 2 ^ 48)%Z ->
  let db := run_calls_with MAX_VARIABLE_NUMBER MAX_ENTRIES TTL_SECONDS calls [] in
  let out := batch_get_embeddings_with TTL_SECONDS MAX_VARIABLE_NUMBER
               Config.MAX_VARS texts model now db in
  (∀ e, (get_embedding_from_cache TTL_SECONDS text model now db).1 = Raise e ->
        e = UnicodeEncodeError ∧ _make_key text model = Raise e)
  ∧ out.1 ≠ Raise ValueError
  ∧ out.1 ≠ Raise OverflowError
  ∧ (out.1 = Raise UnicodeEncodeError
     <-> ∃ t, t ∈ texts ∧ _make_key t model = Raise UnicodeEncodeError)
  ∧ (out.1 = Raise OperationalError
     <-> (∀ t, t ∈ texts -> ∃ k, _make_key t model = Ok k)
         ∧ (MAX_VARIABLE_NUMBER
            < length (expired_in_batch TTL_SECONDS texts model now db))%nat).
Proof.
  intros HL Hcap db out.
  destruct (run_calls_inv MAX_ENTRIES TTL_SECONDS Hcap MAX_VARIABLE_NUMBER calls []
              (cache_inv_empty MAX_ENTRIES Hcap)) as (Hwf & _ & Hall).
  fold db in Hwf, Hall. rewrite Forall_forall in Hall.
  assert (1 <= Config.MAX_VARS)%nat as HM by (vm_compute; lia).
  split.
  { intros e. unfold get_embedding_from_cache.
    destruct (_make_key text model) as [k|e'] eqn:Hk.
    2:{ cbn. intros [= ->]. split; [by eapply make_key_raise|done]. }
    destruct (Sql.select_by_key k db) as [r|] eqn:Hsel; [|done].
    destruct (is_expired _ _ _); [done|].
    apply select_by_key_Some in Hsel as [Hr _].
    destruct (Hall r Hr) as (_ & vec & _ & _ & ->).
    by rewrite deserialize_serialize. }
  subst out.
  destruct (batch_with_cases TTL_SECONDS MAX_VARIABLE_NUMBER Config.MAX_VARS
              texts model now db HM HL)
    as [(found & missing & db' & Hb & Hkeys & _)
       |[[Hb (t & Ht & Hraise)]
        |[[Hb (_ & r & Hr & _ & _ & Hbad)]|[Hb (Hkeys & _ & Hmany)]]]].
  - rewrite Hb. cbn [fst]. split; [done|]. split; [done|]. split.
    + split; [done|]. intros (t & Ht & Hraise).
      destruct (Hkeys t Ht) as [k Hk]. congruence.
    + split; [done|]. intros [_ Hmany]. exfalso.
      rewrite (batch_with_over_limit TTL_SECONDS MAX_VARIABLE_NUMBER
                 Config.MAX_VARS texts model now db) in Hb; [done..| |done].
      intros r Hr _ _. apply written_blob_ok. by apply Hall.
  - rewrite Hb. cbn [fst]. split; [done|]. split; [done|]. split.
    + split; [|done]. intros _. by exists t.
    + split; [done|]. intros [Hkeys _].
      destruct (Hkeys t Ht) as [k Hk]. congruence.
  - destruct Hbad. apply written_blob_ok. by apply Hall.
  - rewrite Hb. cbn [fst]. split; [done|]. split; [done|]. split.
    + split; [done|]. intros (t & Ht & Hraise).
      destruct (Hkeys t Ht) as [k Hk]. congruence.
    + done.
Qed.

Lemma cache_reads_decode_witness :
  let db := run_calls 3 Config.TTL_SECONDS wit_calls [] in
  let out := batch_get_embeddings Config.TTL_SECONDS wit_batch wit_model 4000 db in
  (∀ e, (get_embedding_from_cache Config.TTL_SECONDS wit_text wit_model 4000 db).1
        = Raise e ->
        e = UnicodeEncodeError ∧ _make_key wit_text wit_model = Raise e)
  ∧ out.1 ≠ Raise ValueError
  ∧ out.1 ≠ Raise OverflowError
  ∧ (out.1 = Raise UnicodeEncodeError
     <-> ∃ t, t ∈ wit_batch ∧ _make_key t wit_model = Raise UnicodeEncodeError)
  ∧ (out.1 = Raise OperationalError
     <-> (∀ t, t ∈ wit_batch -> ∃ k, _make_key t wit_model = Ok k)
         ∧ (Config.MAX_VARIABLE_NUMBER
            < length (expired_in_batch Config.TTL_SECONDS wit_batch wit_model 4000
                        db))%nat).
Proof.
  apply (cache_reads_decode Config.MAX_VARIABLE_NUMBER 3 Config.TTL_SECONDS
           wit_calls wit_text wit_model wit_batch 4000).
  - vm_compute. lia.
  - lia.
Defined.

(** ** The unchunked [DELETE] of the batch *)

Section OverLimit.

Lemma over_limit_texts_scalar :
  Forall (Forall (fun c => PyStr.is_scalar c = true)) over_limit_texts.
Proof. apply (bool_decide_unpack _). vm_compute. exact I. Qed.

Lemma over_limit_key t :
  t ∈ over_limit_texts -> _make_key t wit_model = Ok (key (over_limit_row t)).
Proof.
  intros Ht. pose proof over_limit_texts_scalar as Hall.
  rewrite Forall_forall in Hall.
  destruct (make_key_total t wit_model) as [k Hk];
    [by apply Hall|by apply (bool_decide_unpack _)|].
  unfold over_limit_row. cbn [key new_row]. by rewrite Hk.
Qed.

(** The table is the one the cache builds by writing the 1000 texts at
    time 0. *)
Lemma over_limit_table_built :
  over_limit_table
  = run_calls Config.MAX_ENTRIES Config.TTL_SECONDS
      ((fun t => Put t wit_model wit_vec 0) <$> over_limit_texts) [].
Proof. vm_compute. reflexivity. Qed.

Lemma over_limit_table_wf : table_wf over_limit_table.
Proof.
  rewrite over_limit_table_built.
  assert (0 <= Config.MAX_ENTRIES < 2 ^ 48)%Z as Hcap by (vm_compute; split; congruence).
  by destruct (run_calls_inv Config.MAX_ENTRIES Config.TTL_SECONDS Hcap
                 Config.MAX_VARIABLE_NUMBER
                 ((fun t => Put t wit_model wit_vec 0) <$> over_limit_texts) []
                 (cache_inv_empty Config.MAX_ENTRIES Hcap)) as [? _].
Qed.

Lemma over_limit_rows r :
  r ∈ over_limit_table ->
  is_expired Config.TTL_SECONDS 2592001 (created_at r) = true
  ∧ batch_key over_limit_texts wit_model (key r)
  ∧ (length (emb r) mod 4 = 0)%nat.
Proof.
  intros (t & -> & Ht)%list_elem_of_fmap. split; [done|]. split.
  - exists t. split; [done|]. by apply over_limit_key.
  - cbn [emb over_limit_row new_row]. by rewrite serialize_length, Nat.mul_comm,
      Nat.Div0.mod_mul.
Qed.

End OverLimit.

(** C8 at the batch it fails on.  The table holds a record for each of
    the 1000 texts ["t000"] to ["t999"], all written at time 0 and
    older than [TTL_SECONDS] at time 2592001; the batch asks for the
    1000 texts on an SQLite that allows 999 bound variables.  Every
    record of the table is expired and under a key of the batch, yet
    none is deleted: the [SELECT]s, in chunks of 900 and 100 keys, are
    within the limit, the one [DELETE] binds 1000 keys and is refused,
    and the batch raises [OperationalError] with the table as it
    was. *)
Theorem batch_expiry_unchunked_delete :
  length over_limit_texts = 1000%nat
  ∧ length over_limit_table = 1000%nat
  ∧ (∀ r, r ∈ over_limit_table ->
          (2592001 - created_at r > Config.TTL_SECONDS)%Z
          ∧ batch_key over_limit_texts wit_model (key r))
  ∧ batch_get_embeddings Config.TTL_SECONDS over_limit_texts wit_model 2592001
      over_limit_table
    = (Raise OperationalError, over_limit_table).
Proof.
  split; [done|]. split; [done|]. split.
  { intros r (Hexp & Hk & _)%over_limit_rows. split; [|done].
    by apply (is_expired_spec Config.TTL_SECONDS), Hexp; apply config_ttl_nonzero. }
  unfold batch_get_embeddings. apply batch_with_over_limit.
  - vm_compute. lia.
  - vm_compute. lia.
  - apply over_limit_table_wf.
  - intros t Ht. eexists. by apply over_limit_key.
  - intros r Hr _ _. by apply over_limit_rows.
  - unfold expired_in_batch. rewrite (filter_all _ over_limit_table).
    + unfold over_limit_table, over_limit_texts.
      rewrite !length_fmap, length_seq. vm_compute. lia.
    + intros r (Hexp & Hk & _)%over_limit_rows. done.
Qed.

(** * Properties of the scripts *)

Section StripFacts.

Implicit Types (c : N) (s : list N).

Lemma lstrip_nil s : lstrip s = [] <-> Forall (fun c => PyStr.is_space c = true) s.
Proof.
  induction s as [|c s IH]; [by split|]. cbn.
  destruct (PyStr.is_space c) eqn:Hc.
  - rewrite IH. split; [by constructor|by inversion 1].
  - split; [done|]. inversion 1. congruence.
Qed.

Lemma lstrip_Forall (P : N -> Prop) s : Forall P s -> Forall P (lstrip s).
Proof.
  induction 1 as [|c s Hc Hs IH]; [done|]. cbn.
  destruct (PyStr.is_space c); [done|by constructor].
Qed.

Lemma lstrip_length s : (length (lstrip s) <= length s)%nat.
Proof.
  induction s as [|c s IH]; [done|]. cbn.
  destruct (PyStr.is_space c); cbn; lia.
Qed.

Lemma lstrip_head c s : PyStr.is_space c = false -> lstrip (c :: s) = c :: s.
Proof. intros Hc. cbn. by rewrite Hc. Qed.

(** What is left of [s] holds a character that is no whitespace, or
    nothing. *)
Lemma lstrip_cons s c s' :
  lstrip s = c :: s' -> PyStr.is_space c = false ∧ c ∈ s.
Proof.
  induction s as [|a s IH]; [done|]. cbn.
  destruct (PyStr.is_space a) eqn:Ha.
  - intros [? ?]%IH. split; [done|by right].
  - intros [= -> ->]. split; [done|by left].
Qed.

Lemma strip_nil s : strip s = [] <-> Forall (fun c => PyStr.is_space c = true) s.
Proof.
  unfold strip, rstrip. split.
  - intros Hs. apply lstrip_nil.
    destruct (lstrip s) as [|c s'] eqn:Hl; [done|]. exfalso.
    apply lstrip_cons in Hl as [Hc _].
    assert (lstrip (reverse (c :: s')) = []) as Hr.
    { apply (f_equal reverse) in Hs. by rewrite reverse_involutive in Hs. }
    apply lstrip_nil in Hr. rewrite Forall_forall in Hr.
    specialize (Hr c). rewrite elem_of_reverse in Hr.
    rewrite Hr in Hc; [done|by left].
  - intros Hs%lstrip_nil. by rewrite Hs.
Qed.

Lemma strip_length s : (length (strip s) <= length s)%nat.
Proof.
  unfold strip, rstrip. rewrite length_reverse.
  etransitivity; [apply lstrip_length|]. rewrite length_reverse.
  apply lstrip_length.
Qed.

(** A string that begins and ends with a character that is no
    whitespace is its own [strip()]. *)
Lemma strip_fixed c1 s c2 :
  PyStr.is_space c1 = false -> PyStr.is_space c2 = false ->
  strip (c1 :: s ++ [c2]) = c1 :: s ++ [c2].
Proof.
  intros H1 H2. unfold strip, rstrip. rewrite lstrip_head by done.
  rewrite reverse_cons, reverse_app. cbn [reverse app].
  change (reverse [c2]) with [c2]. cbn [app].
  rewrite lstrip_head by done.
  rewrite reverse_cons, reverse_app, !reverse_involutive.
  change (reverse [c1]) with [c1]. by rewrite <- app_assoc.
Qed.

End StripFacts.

Section UploadFacts.

Import Upload.

Implicit Types (node : gmap (list N) jval) (nodes : list (gmap (list N) jval))
  (it : item) (items : list item) (hs : bool).

(** The text of a node, by cases. *)
Lemma semantic_text_on_unfold hs node :
  semantic_text_on hs node
  = if truthy (dict_get node "semantic_text") then Done (dict_get node "semantic_text")
    else if truthy (dict_get node "description")
         then jslice hs 1000 (dict_get node "description")
         else Done (JStr []).
Proof.
  unfold semantic_text_on, py_or.
  destruct (truthy (dict_get node "semantic_text")); [done|].
  by destruct (truthy (dict_get node "description")).
Qed.

(** A text taken from the description has at most 1000 code points. *)
Lemma semantic_text_description hs node s :
  truthy (dict_get node "semantic_text") = false ->
  semantic_text_on hs node = Done (JStr s) -> (length s <= 1000)%nat.
Proof.
  intros Hfalsy. rewrite semantic_text_on_unfold, Hfalsy.
  destruct (truthy (dict_get node "description")).
  - destruct (dict_get node "description"); cbn [jslice]; try done.
    intros [= <-]. rewrite length_take. lia.
  - intros [= <-]. cbn. lia.
Qed.

Lemma build_items_cons hs node rest items :
  build_items_on hs (node :: rest) = Done items ->
  ∃ s, semantic_text_on hs node = Done (JStr s)
       ∧ ((strip s = [] ∧ build_items_on hs rest = Done items)
          ∨ (strip s ≠ []
             ∧ ∃ id items', node !! of_string "id" = Some id
                            ∧ build_items_on hs rest = Done items'
                            ∧ items = Item id s (make_meta node) :: items')).
Proof.
  cbn [build_items_on].
  destruct (semantic_text_on hs node) as [v|e]; cbn [mbind outcome_bind]; [|done].
  destruct v as [| | | |s| |]; try done.
  intros Hb. exists s. split; [done|].
  destruct (strip s) as [|c s'] eqn:Hs; [left; by split|]. right. split; [done|].
  destruct (node !! of_string "id") as [id|]; [|done].
  destruct (build_items_on hs rest) as [items'|e]; [|done].
  cbn [mbind outcome_bind] in Hb.
  injection Hb as <-. by exists id, items'.
Qed.

Lemma fmap_concat_list {A B} (f : A -> B) (ls : list (list A)) :
  f <$> concat ls = concat ((fun l : list A => f <$> l) <$> ls).
Proof.
  induction ls as [|l ls IH]; [done|]. cbn. by rewrite fmap_app, IH.
Qed.

Section Service.

Variable get_embeddings : list (list N) -> list (list spec_float).
Hypothesis one_per_text : ∀ texts, length (get_embeddings texts) = length texts.

Lemma make_vectors_fields (batch : list item) :
  vec_id <$> make_vectors get_embeddings batch = item_id <$> batch
  ∧ vec_metadata <$> make_vectors get_embeddings batch = item_meta <$> batch
  ∧ vec_values <$> make_vectors get_embeddings batch
    = get_embeddings (item_text <$> batch).
Proof.
  unfold make_vectors.
  pose proof (one_per_text (item_text <$> batch)) as Hlen.
  rewrite length_fmap in Hlen.
  set (embs := get_embeddings (item_text <$> batch)) in *. clearbody embs.
  revert embs Hlen. induction batch as [|it batch IH]; intros [|e embs] Hlen;
    try done.
  cbn in Hlen. destruct (IH embs ltac:(lia)) as (H1 & H2 & H3).
  cbn. by rewrite H1, H2, H3.
Qed.

End Service.

End UploadFacts.

(** X22. [chunked(iterable, n)] of the upload script, run to the end.
    A zero [n] raises [ValueError] (the step of [range]) and a negative
    [n] yields no chunk at all; for a positive [n] the chunks
    concatenated give the input back, no chunk is empty, every chunk
    but the last has exactly [n] elements and there are
    [ceil(len / n)] chunks. *)
Theorem chunked_partition {A} (l : list A) (n : Z) :
  (n = 0%Z -> Upload.chunked l n = Raise ValueError)
  ∧ ((n < 0)%Z -> Upload.chunked l n = Ok [])
  ∧ ((0 < n)%Z ->
     ∃ cs, Upload.chunked l n = Ok cs
           ∧ concat cs = l
           ∧ Forall (fun c => 1 <= Z.of_nat (length c) <= n)%Z cs
           ∧ (∀ j c, cs !! j = Some c -> (S j < length cs)%nat ->
                     Z.of_nat (length c) = n)
           ∧ Z.of_nat (length cs) = ((Z.of_nat (length l) + n - 1) / n)%Z).
Proof.
  unfold Upload.chunked. split; [|split].
  - by intros ->.
  - intros Hn. destruct (Z.eqb_spec n 0); [lia|].
    by destruct (Z.ltb_spec n 0); [|lia].
  - intros Hn. destruct (Z.eqb_spec n 0); [lia|].
    destruct (Z.ltb_spec n 0); [lia|].
    eexists. split; [done|].
    destruct (py_range_slices (Z.to_nat n) l) as (Hcat & Hlen & Hfull & Hcount);
      [lia|].
    split; [done|]. split; [|split].
    + eapply Forall_impl; [exact Hlen|]. intros c Hc. cbn in Hc. lia.
    + intros j c Hj Hlast. rewrite (Hfull j c Hj Hlast). lia.
    + rewrite Hcount. rewrite Nat2Z.inj_div.
      f_equal; lia.
Qed.

(** X23. What the upload script selects.  When the loop over the nodes
    of the data file ends without an exception, no item has a blank
    text; every node whose text (its [semantic_text], or else the first
    1000 code points of its [description]) is a string with a
    character that is no whitespace gives an item with that text, the
    node's id and the node's metadata; every item comes from such a
    node; and a text taken from the description has at most 1000 code
    points. *)
Theorem build_items_spec (nodes : list (gmap (list N) jval))
    (items : list Upload.item) :
  Upload.build_items nodes = Done items ->
  Forall (fun it => strip (Upload.item_text it) ≠ []) items
  ∧ (∀ node s, node ∈ nodes -> Upload.semantic_text node = Done (JStr s) ->
               strip s ≠ [] ->
               ∃ it, it ∈ items ∧ Upload.item_text it = s
                     ∧ node !! of_string "id" = Some (Upload.item_id it)
                     ∧ Upload.item_meta it = Upload.make_meta node)
  ∧ (∀ it, it ∈ items ->
           ∃ node, node ∈ nodes
                   ∧ Upload.semantic_text node = Done (JStr (Upload.item_text it))
                   ∧ node !! of_string "id" = Some (Upload.item_id it)
                   ∧ Upload.item_meta it = Upload.make_meta node
                   ∧ (truthy (dict_get node "semantic_text") = false ->
                      (length (Upload.item_text it) <= 1000)%nat))
  ∧ (length items <= length nodes)%nat.
Proof.
  unfold Upload.build_items, Upload.semantic_text.
  revert items. induction nodes as [|node rest IH]; intros items Hb.
  - injection Hb as <-. split; [done|]. split; [by intros ? ? ?%elem_of_nil|].
    split; [by intros ? ?%elem_of_nil|done].
  - apply build_items_cons in Hb
      as (s & Hst & [[Hblank Hrest]|(Hs & id & items' & Hid & Hrest & ->)]).
    + destruct (IH items Hrest) as (H1 & H2 & H3 & H4).
      split; [done|]. split; [|split].
      * intros node' s' [->|Hin]%elem_of_cons Hst' Hs'; [congruence|].
        by apply (H2 node' s').
      * intros it Hit. destruct (H3 it Hit) as (node' & ? & ?).
        exists node'. split; [by right|done].
      * cbn. lia.
    + destruct (IH items' Hrest) as (H1 & H2 & H3 & H4).
      split; [by constructor|]. split; [|split].
      * intros node' s' [->|Hin]%elem_of_cons Hst' Hs'.
        -- exists (Upload.Item id s (Upload.make_meta node)).
           split; [by left|]. cbn. split; [congruence|done].
        -- destruct (H2 node' s' Hin Hst' Hs') as (it & ? & ?).
           exists it. split; [by right|done].
      * intros it [->|Hit]%elem_of_cons.
        -- exists node. split; [by left|]. cbn. repeat split; try done.
           intros Hfalsy. by eapply semantic_text_description.
        -- destruct (H3 it Hit) as (node' & ? & ?).
           exists node'. split; [by right|done].
      * cbn. lia.
Qed.

Lemma build_items_spec_witness :
  Forall (fun it => strip (Upload.item_text it) ≠ []) wit_items
  ∧ (∀ node s, node ∈ [wit_node; blank_node] ->
               Upload.semantic_text node = Done (JStr s) ->
               strip s ≠ [] ->
               ∃ it, it ∈ wit_items ∧ Upload.item_text it = s
                     ∧ node !! of_string "id" = Some (Upload.item_id it)
                     ∧ Upload.item_meta it = Upload.make_meta node)
  ∧ (∀ it, it ∈ wit_items ->
           ∃ node, node ∈ [wit_node; blank_node]
                   ∧ Upload.semantic_text node = Done (JStr (Upload.item_text it))
                   ∧ node !! of_string "id" = Some (Upload.item_id it)
                   ∧ Upload.item_meta it = Upload.make_meta node
                   ∧ (truthy (dict_get node "semantic_text") = false ->
                      (length (Upload.item_text it) <= 1000)%nat))
  ∧ (length wit_items <= length [wit_node; blank_node])%nat.
Proof.
  apply (build_items_spec [wit_node; blank_node] wit_items).
  vm_compute. reflexivity.
Defined.

(** X24. A surprise of the text selection: a node whose
    [semantic_text] is not empty but holds only whitespace is skipped,
    whatever its [description] and its other fields hold, because the
    [or] takes the non-empty string before the description is looked
    at. *)
Theorem blank_semantic_text_shadows_description
    (node : gmap (list N) jval) (rest : list (gmap (list N) jval)) (s : list N) :
  node !! of_string "semantic_text" = Some (JStr s) ->
  s ≠ [] -> Forall (fun c => PyStr.is_space c = true) s ->
  Upload.build_items (node :: rest) = Upload.build_items rest.
Proof.
  intros Hst Hne Hblank. unfold Upload.build_items. cbn [Upload.build_items_on].
  unfold Upload.semantic_text_on, dict_get. rewrite Hst.
  destruct s as [|c s]; [done|].
  cbn [default from_option id truthy mbind outcome_bind].
  by rewrite (proj2 (strip_nil (c :: s)) Hblank).
Qed.

Lemma blank_semantic_text_shadows_description_witness :
  Upload.build_items [blank_node; wit_node] = Upload.build_items [wit_node].
Proof.
  apply (blank_semantic_text_shadows_description blank_node [wit_node]
           (of_string "  ")).
  - vm_compute. reflexivity.
  - vm_compute. intros H. discriminate H.
  - repeat constructor.
Defined.

Section UploadErrors.

Import Upload.

Implicit Types (node : gmap (list N) jval) (nodes pre post : list (gmap (list N) jval))
  (items : list item) (hs : bool) (v d : jval).

(** When taking the text of a node raises: the [semantic_text] is
    false and the [description] is true and cannot be sliced. *)
Lemma semantic_text_Failed hs node e :
  semantic_text_on hs node = Failed e
  <-> truthy (dict_get node "semantic_text") = false
      ∧ truthy (dict_get node "description") = true
      ∧ match dict_get node "description" with
        | JBool _ | JInt _ | JFloat _ => e = TypeError
        | JObj _ => e = if hs then KeyError else TypeError
        | JNull | JStr _ | JList _ => False
        end.
Proof.
  rewrite semantic_text_on_unfold.
  destruct (truthy (dict_get node "semantic_text")); [by split; [|intros [? _]]|].
  destruct (truthy (dict_get node "description")) eqn:Hd;
    [|by split; [|intros (_ & ? & _)]].
  destruct (dict_get node "description"); cbn [jslice]; split;
    try done; try (by intros [= <-]); try (by intros (_ & _ & ->));
    try (by intros (_ & _ & [])).
Qed.

(** The text that is taken is the [semantic_text], or a slice of the
    [description], or [""]. *)
Lemma semantic_text_Done hs node v :
  semantic_text_on hs node = Done v ->
  (truthy v = true ∧ v = dict_get node "semantic_text")
  ∨ (truthy (dict_get node "semantic_text") = false
     ∧ ((∃ s, dict_get node "description" = JStr s ∧ v = JStr (take 1000 s))
        ∨ (∃ l, dict_get node "description" = JList l ∧ l ≠ []
                ∧ v = JList (take 1000 l))
        ∨ (truthy (dict_get node "description") = false ∧ v = JStr []))).
Proof.
  rewrite semantic_text_on_unfold.
  destruct (truthy (dict_get node "semantic_text")) eqn:Ha.
  { intros [= <-]. by left. }
  intros Hv. right. split; [done|].
  destruct (truthy (dict_get node "description")) eqn:Hd.
  - destruct (dict_get node "description") as [| | | |s|l|]; cbn [jslice] in Hv;
      try done; injection Hv as <-.
    + left. by exists s.
    + right. left. exists l. split; [done|]. split; [by intros ->|done].
  - injection Hv as <-. by do 2 right.
Qed.

(** The loop over one node. *)
Lemma build_items_one hs node :
  (∃ s, semantic_text_on hs node = Done (JStr s) ∧ strip s = []
        ∧ build_items_on hs [node] = Done [])
  ∨ (∃ s id, semantic_text_on hs node = Done (JStr s) ∧ strip s ≠ []
             ∧ node !! of_string "id" = Some id
             ∧ build_items_on hs [node] = Done [Item id s (make_meta node)])
  ∨ (∃ s, semantic_text_on hs node = Done (JStr s) ∧ strip s ≠ []
          ∧ node !! of_string "id" = None
          ∧ build_items_on hs [node] = Failed KeyError)
  ∨ (∃ v, semantic_text_on hs node = Done v ∧ (∀ s, v ≠ JStr s)
          ∧ build_items_on hs [node] = Failed AttributeError)
  ∨ (∃ e, semantic_text_on hs node = Failed e
          ∧ build_items_on hs [node] = Failed e).
Proof.
  cbn [build_items_on].
  destruct (semantic_text_on hs node) as [v|e] eqn:Hv; cbn [mbind outcome_bind].
  2:{ do 4 right. by exists e. }
  destruct v as [|b|n|x|s|l|o];
    try (do 3 right; left; eexists; split; [done|]; split; [by intros s'|done]).
  destruct (strip s) as [|c s'] eqn:Hstrip.
  - left. by exists s.
  - right. destruct (node !! of_string "id") as [id|] eqn:Hid.
    + left. exists s, id. rewrite Hstrip. done.
    + right. left. exists s. rewrite Hstrip. done.
Qed.

(** The loop over a concatenation: the first failure wins. *)
Lemma build_items_app hs pre post :
  build_items_on hs (pre ++ post)
  = (i1 ← build_items_on hs pre ; i2 ← build_items_on hs post ; Done (i1 ++ i2)).
Proof.
  induction pre as [|node pre IH].
  - cbn. by destruct (build_items_on hs post).
  - cbn [app build_items_on].
    destruct (semantic_text_on hs node) as [v|e]; cbn [mbind outcome_bind]; [|done].
    destruct v as [| | | |s| |]; try done.
    destruct (strip s) as [|c s']; [done|].
    destruct (node !! of_string "id") as [id|]; [|done].
    rewrite IH.
    destruct (build_items_on hs pre) as [i1|e]; cbn [mbind outcome_bind]; [|done].
    by destruct (build_items_on hs post).
Qed.

Lemma build_items_Failed hs nodes e :
  build_items_on hs nodes = Failed e ->
  ∃ pre node post items,
    nodes = pre ++ node :: post
    ∧ build_items_on hs pre = Done items
    ∧ build_items_on hs [node] = Failed e.
Proof.
  induction nodes as [|node nodes IH]; [done|].
  change (node :: nodes) with ([node] ++ nodes).
  rewrite build_items_app.
  destruct (build_items_on hs [node]) as [i1|e1] eqn:H1; cbn [mbind outcome_bind].
  - destruct (build_items_on hs nodes) as [i2|e2] eqn:H2;
      cbn [mbind outcome_bind]; [done|].
    intros [= ->]. destruct (IH eq_refl) as (pre & nd & post & items & -> & Hpre & Hnd).
    exists (node :: pre), nd, post, (i1 ++ items). split; [done|]. split; [|done].
    change (node :: pre) with ([node] ++ pre).
    rewrite build_items_app, H1, Hpre. done.
  - intros [= ->]. exists [], node, nodes, []. done.
Qed.

End UploadErrors.

(** X25. Where the upload script fails, before Python 3.12 and since.
    The loop over the nodes raises exactly when some node, the first
    of its kind, has a text that cannot be used: [KeyError] when the
    text is a string with a character that is no whitespace and the
    node has no ["id"]; [AttributeError] when the text is no string
    (the [semantic_text] is a number, [True], a list or a [dict], or it
    is false and the [description] is a list: none has [strip]); and
    the exception of the slice when the [semantic_text] is false and
    the [description] is true and is no string and no list:
    [TypeError] for a number and for [True], and for a [dict]
    [TypeError] before Python 3.12 and [KeyError] since.  It raises
    nothing else, and since the loop ends before the first upload,
    nothing is uploaded then. *)
Theorem build_items_failure (hashable_slices : bool)
    (nodes : list (gmap (list N) jval)) (e : script_exn) :
  (Upload.build_items_on hashable_slices nodes = Failed e
   <-> ∃ pre node post items,
         nodes = pre ++ node :: post
         ∧ Upload.build_items_on hashable_slices pre = Done items
         ∧ ((e = KeyError
             ∧ node !! of_string "id" = None
             ∧ ∃ s, Upload.semantic_text_on hashable_slices node = Done (JStr s)
                    ∧ strip s ≠ [])
            ∨ (e = AttributeError
               ∧ ∃ v, Upload.semantic_text_on hashable_slices node = Done v
                      ∧ ∀ s, v ≠ JStr s)
            ∨ Upload.semantic_text_on hashable_slices node = Failed e))
  ∧ (∀ node,
       Upload.semantic_text_on hashable_slices node = Failed e
       <-> truthy (dict_get node "semantic_text") = false
           ∧ truthy (dict_get node "description") = true
           ∧ match dict_get node "description" with
             | JBool _ | JInt _ | JFloat _ => e = TypeError
             | JObj _ => e = if hashable_slices then KeyError else TypeError
             | JNull | JStr _ | JList _ => False
             end)
  ∧ (∀ node v,
       Upload.semantic_text_on hashable_slices node = Done v ->
       (truthy v = true ∧ v = dict_get node "semantic_text")
       ∨ (truthy (dict_get node "semantic_text") = false
          ∧ ((∃ s, dict_get node "description" = JStr s ∧ v = JStr (take 1000 s))
             ∨ (∃ l, dict_get node "description" = JList l ∧ l ≠ []
                     ∧ v = JList (take 1000 l))
             ∨ (truthy (dict_get node "description") = false ∧ v = JStr [])))).
Proof.
  split; [|split; [intros node; apply semantic_text_Failed
                  |intros node v; apply semantic_text_Done]].
  split.
  - intros (pre & node & post & items & -> & Hpre & Hnode)%build_items_Failed.
    exists pre, node, post, items. split; [done|]. split; [done|].
    destruct (build_items_one hashable_slices node)
      as [(s & _ & _ & H)|[(s & id & _ & _ & _ & H)
         |[(s & Hs & Hstrip & Hid & H)|[(v & Hv & Hns & H)|(e' & He' & H)]]]];
      rewrite H in Hnode; try done; injection Hnode as <-.
    + left. split; [done|]. split; [done|]. by exists s.
    + right. left. split; [done|]. by exists v.
    + by do 2 right.
  - intros (pre & node & post & items & -> & Hpre & Hcase).
    change (node :: post) with ([node] ++ post).
    rewrite !build_items_app, Hpre. cbn [mbind outcome_bind].
    destruct (build_items_one hashable_slices node)
      as [(s & Hs & Hstrip & H)|[(s & id & Hs & Hstrip & Hid & H)
         |[(s & Hs & Hstrip & Hid & H)|[(v & Hv & Hns & H)|(e' & He' & H)]]]];
      rewrite H; cbn [mbind outcome_bind];
      destruct Hcase as [(-> & Hnoid & s' & Hs' & Hstrip')
                        |[(-> & v' & Hv' & Hns')|Hfail]];
      try done; try congruence.
Qed.

(** Nodes of a data file that stop the upload: a [description] that is
    the number 5, a [semantic_text] that is the number 7, a
    [semantic_text] that is a list, and a [description] that is an
    object. *)
Example build_items_failure_examples :
  let node (k : string) (v : jval) : gmap (list N) jval :=
    <[of_string "id" := JStr (of_string "n1")]> (<[of_string k := v]> ∅) in
  Upload.build_items [node "description"%string (JInt 5)] = Failed TypeError
  ∧ Upload.build_items [node "semantic_text"%string (JInt 7)] = Failed AttributeError
  ∧ Upload.build_items [node "semantic_text"%string (JList [JStr (of_string "x")])]
    = Failed AttributeError
  ∧ Upload.build_items_on false
      [node "description"%string (JObj [(of_string "a", JInt 1)])] = Failed TypeError
  ∧ Upload.build_items_on true
      [node "description"%string (JObj [(of_string "a", JInt 1)])] = Failed KeyError
  ∧ Upload.build_items [node "description"%string (JInt 0)] = Done [].
Proof. vm_compute. repeat split. Qed.

(** X26. Every item is uploaded once.  When the embedding service
    answers with one vector per text, [main] calls [index.upsert] with
    batches of 1 to 32 vectors whose ids and metadata, batch after
    batch, are the ids and metadata of the items in order, and whose
    values are the service's answers for the texts of each batch;
    [main] fails only where the loop over the nodes fails. *)
Theorem main_uploads_every_item
    (get_embeddings : list (list N) -> list (list spec_float))
    (nodes : list (gmap (list N) jval)) :
  (∀ texts, length (get_embeddings texts) = length texts) ->
  match Upload.build_items nodes with
  | Failed e => Upload.main get_embeddings nodes = Failed e
  | Done items =>
      ∃ uploads,
        Upload.main get_embeddings nodes = Done uploads
        ∧ Upload.vec_id <$> concat uploads = Upload.item_id <$> items
        ∧ Upload.vec_metadata <$> concat uploads = Upload.item_meta <$> items
        ∧ Forall (fun b => 1 <= length b <= 32)%nat uploads
        ∧ Z.of_nat (length uploads) = ((Z.of_nat (length items) + 31) / 32)%Z
  end.
Proof.
  intros Hone. unfold Upload.main, Upload.main_on, Upload.build_items.
  destruct (Upload.build_items_on Python.HASHABLE_SLICES nodes) as [items|e];
    [|done].
  cbn [mbind outcome_bind]. unfold Upload.chunked, Upload.BATCH_SIZE.
  cbn [Z.eqb Z.ltb Z.compare].
  change (Z.to_nat 32) with 32%nat.
  destruct (py_range_slices 32 items) as (Hcat & Hlen & _ & Hcount); [lia|].
  set (batches := (fun i => take 32 (drop i items)) <$> py_range (length items) 32)
    in *.
  eexists. split; [done|].
  assert (∀ {B} (f : Upload.vector -> B) (g : Upload.item -> B),
            (∀ b, f <$> Upload.make_vectors get_embeddings b = g <$> b) ->
            f <$> concat (Upload.make_vectors get_embeddings <$> batches)
            = g <$> items) as Hfield.
  { intros B f g Hfg. rewrite <- Hcat. rewrite !fmap_concat_list.
    f_equal. rewrite <- list_fmap_compose. apply list_fmap_ext.
    intros _ b _. apply Hfg. }
  split; [|split; [|split]].
  - apply Hfield. intros b. by apply make_vectors_fields.
  - apply Hfield. intros b. by apply make_vectors_fields.
  - apply Forall_fmap. eapply Forall_impl; [exact Hlen|].
    intros b Hb. unfold compose. cbn beta in *.
    destruct (make_vectors_fields get_embeddings Hone b) as (Hid & _).
    apply (f_equal length) in Hid. rewrite !length_fmap in Hid. lia.
  - rewrite length_fmap, Hcount, Nat2Z.inj_div. f_equal. lia.
Qed.

Lemma main_uploads_every_item_witness :
  match Upload.build_items [wit_node; blank_node] with
  | Failed e => Upload.main wit_embed [wit_node; blank_node] = Failed e
  | Done items =>
      ∃ uploads,
        Upload.main wit_embed [wit_node; blank_node] = Done uploads
        ∧ Upload.vec_id <$> concat uploads = Upload.item_id <$> items
        ∧ Upload.vec_metadata <$> concat uploads = Upload.item_meta <$> items
        ∧ Forall (fun b => 1 <= length b <= 32)%nat uploads
        ∧ Z.of_nat (length uploads) = ((Z.of_nat (length items) + 31) / 32)%Z
  end.
Proof.
  apply (main_uploads_every_item wit_embed [wit_node; blank_node]).
  intros texts. unfold wit_embed. apply length_fmap.
Defined.

Section GraphFacts.

Import HybridChat.

Implicit Types (r : neighbour) (nid : list N).

Lemma fallback_name_strip (snippet idtxt : list N) :
  let n := of_string "'" ++ snippet ++ of_string "' (ID:" ++ idtxt ++ of_string ")" in
  strip n = n ∧ (length snippet + 8 <= length n)%nat.
Proof.
  intros n. subst n. split.
  - change (of_string "'" ++ snippet ++ of_string "' (ID:" ++ idtxt ++ of_string ")")
      with (39 :: snippet ++ of_string "' (ID:" ++ idtxt ++ [41]).
    rewrite !app_assoc. apply strip_fixed; done.
  - rewrite !length_app. cbn. lia.
Qed.

Lemma name_usable_length s :
  name_unusable (Some s) = false -> (3 <= length (strip s))%nat.
Proof.
  unfold name_unusable. destruct s as [|c s]; [done|].
  intros H%Nat.ltb_ge. done.
Qed.

End GraphFacts.

(** X27. Every graph fact has a usable name.  Whatever the graph
    returns, each fact of [fetch_graph_context] has a [target_name]
    with at least 3 characters after [strip()] (the test the function
    itself applies to names), a [target_desc] of at most 400 code
    points that is the beginning of the neighbour's description, and a
    [source] among the ids asked for, for every [neighborhood_depth]. *)
Theorem fetch_graph_context_facts (run : list N -> list HybridChat.neighbour)
    (node_ids : list (list N)) (neighborhood_depth : Z) (f : HybridChat.fact) :
  f ∈ HybridChat.fetch_graph_context run node_ids neighborhood_depth ->
  (3 <= length (strip (HybridChat.target_name f)))%nat
  ∧ (length (HybridChat.target_desc f) <= 400)%nat
  ∧ HybridChat.source f ∈ node_ids
  ∧ ∃ r, r ∈ run (HybridChat.source f)
         ∧ HybridChat.target_desc f
           `prefix_of` default [] (HybridChat.description r).
Proof.
  unfold HybridChat.fetch_graph_context.
  intros (nid & Hf & Hnid)%list_elem_of_bind.
  apply list_elem_of_fmap in Hf as (r & -> & Hr).
  unfold HybridChat.make_fact.
  cbn [HybridChat.target_name HybridChat.target_desc HybridChat.source].
  split; [|split; [|split]].
  - destruct (HybridChat.name_unusable (HybridChat.name r)) eqn:Hn.
    + destruct (fallback_name_strip
                  (PyStr.join (of_string " ")
                     (take 10 (PyStr.split (default [] (HybridChat.description r)))))
                  (HybridChat.fmt (HybridChat.id r))) as [-> Hlen].
      lia.
    + destruct (HybridChat.name r) as [s|]; [|done]. cbn.
      by apply name_usable_length.
  - rewrite length_take. lia.
  - done.
  - exists r. split; [done|]. apply prefix_take.
Qed.

Lemma fetch_graph_context_facts_witness :
  let f := HybridChat.make_fact (of_string "n1") wit_neighbour in
  (3 <= length (strip (HybridChat.target_name f)))%nat
  ∧ (length (HybridChat.target_desc f) <= 400)%nat
  ∧ HybridChat.source f ∈ [of_string "n1"]
  ∧ ∃ r, r ∈ wit_run (HybridChat.source f)
         ∧ HybridChat.target_desc f
           `prefix_of` default [] (HybridChat.description r).
Proof.
  apply (fetch_graph_context_facts wit_run [of_string "n1"] 1
           (HybridChat.make_fact (of_string "n1") wit_neighbour)).
  vm_compute. left.
Defined.

(** X28. The name a fact gets.  A neighbour's name is kept when it has
    at least 3 characters after [strip()]; otherwise (no name, or a
    shorter one) the name is built from the description and the id:
    a quote, the first 10 words of the description joined by single
    spaces, and [' (ID:<id>)].  The snippet has exactly the first 10
    words of the description, however long they are. *)
Theorem fetch_graph_context_name (nid : list N) (r : HybridChat.neighbour) :
  let f := HybridChat.make_fact nid r in
  (∀ s, HybridChat.name r = Some s -> (3 <= length (strip s))%nat ->
        HybridChat.target_name f = s)
  ∧ ((HybridChat.name r = None
      ∨ ∃ s, HybridChat.name r = Some s ∧ (length (strip s) < 3)%nat) ->
     ∃ snippet,
       HybridChat.target_name f
       = of_string "'" ++ snippet ++ of_string "' (ID:"
         ++ HybridChat.fmt (HybridChat.id r) ++ of_string ")"
       ∧ PyStr.split snippet
         = take 10 (PyStr.split (default [] (HybridChat.description r)))
       ∧ normalize snippet = snippet).
Proof.
  intros f. subst f. unfold HybridChat.make_fact.
  cbn [HybridChat.target_name HybridChat.target_desc HybridChat.source]. split.
  - intros s -> Hlen. unfold HybridChat.name_unusable.
    destruct s as [|c s]; [cbn in Hlen; lia|].
    by destruct (Nat.ltb_spec (length (strip (c :: s))) 3); [lia|].
  - intros Hbad.
    assert (HybridChat.name_unusable (HybridChat.name r) = true) as ->.
    { destruct Hbad as [->|(s & -> & Hlen)]; [done|].
      unfold HybridChat.name_unusable. destruct s as [|c s]; [done|].
      by apply Nat.ltb_lt. }
    eexists. split; [done|].
    assert (Forall word_ok
              (take 10 (PyStr.split (default [] (HybridChat.description r)))))
      as Hwords by (apply Forall_take, split_words).
    change (of_string " ") with [32].
    split; [by apply split_join|].
    unfold normalize. change (of_string " ") with [32].
    by rewrite split_join.
Qed.
